(** * StampMod / imagePawcessor: the colour-reduction pipeline.

    A shallow embedding of [imagePawcessor/imagePawcess.py]: palette
    construction, nearest-colour matching (scalar and batched), the
    dithering family, the static stamp encoder, the animation delta
    encoder and the dynamic threshold of the background remover.

    Conventions of the embedding.
    - Every image that reaches the pipeline went through [prepare_image],
      which converts it to mode RGBA; a pixel is therefore a record of four
      channels, [has_alpha] is true and the [len(pixel) == 4] branches are
      the ones taken.
    - Channels are integers ([Z]).  A [uint8] conversion is written
      [to_uint8]; the [int16] working arrays of the dithering functions
      hold values between 0 and 255 only, so no wrap-around happens there.
    - The [float32] distance computations of the matchers work on integers
      below [2^24] and are exact; they are integer arithmetic here.
    - The [float64] arithmetic of the dithering functions and of
      [calculate_dynamic_threshold] is carried out on rationals ([Q]):
      binary rounding is not modelled.
    - Python exceptions are the [Raise] case of [result].
    - The process-wide flag [use_lab] is an explicit argument.
    - OpenCV's colour conversions and Pillow's filters are taken as given
      functions (class [External]).
    - [np.random] is the process-wide generator: a state [rng] threaded
      through the calls that draw from it. *)

From Stdlib Require Import ZArith QArith Qround Qminmax Lqa String Ascii.
From Stdlib Require Import Decimal DecimalString DecimalZ DecimalPos.
From stdpp Require Import base option list gmap strings.

Close Scope Q_scope.
Local Open Scope Z_scope.

(* ================================================================= *)
(** ** Exceptions *)

Inductive exn : Type :=
  | ValueError
  | IndexError
  | KeyError
  | FileNotFoundError
  | Cv2Error.

Inductive result (A : Type) : Type :=
  | Ok (a : A)
  | Raise (e : exn).

Arguments Ok {A} a.
Arguments Raise {A} e.

#[global] Instance result_ret : MRet result := fun A a => Ok a.

#[global] Instance result_bind : MBind result := fun A B f m =>
  match m with
  | Ok a => f a
  | Raise e => Raise e
  end.

#[global] Instance result_fmap : FMap result := fun A B f m =>
  match m with
  | Ok a => Ok (f a)
  | Raise e => Raise e
  end.

Definition is_Ok {A} (m : result A) : Prop := exists a, m = Ok a.

(** [[f(v) for v in l]] where [f] may raise: the first exception wins. *)
Fixpoint mapR {A B} (f : A -> result B) (l : list A) : result (list B) :=
  match l with
  | [] => Ok []
  | a :: l' => b ← f a; bs ← mapR f l'; Ok (b :: bs)
  end.

(** [for i in range(n): s = body(i, s)], with exceptions propagating. *)
Fixpoint for_each {A S} (l : list A) (body : A -> S -> result S) (s : S)
  : result S :=
  match l with
  | [] => Ok s
  | a :: l' => s' ← body a s; for_each l' body s'
  end.

Definition range (n : nat) : list nat := seq 0 n.

Definition for_range {S} (n : nat) (body : nat -> S -> result S) (s : S)
  : result S :=
  for_each (range n) body s.

(* ================================================================= *)
(** ** Pixels and images *)

Definition rgb : Type := Z * Z * Z.

Record pixel : Type := Pixel { pR : Z; pG : Z; pB : Z; pA : Z }.

#[global] Instance pixel_eq_dec : EqDecision pixel.
Proof. solve_decision. Defined.

Definition pixel_rgb (p : pixel) : rgb := (pR p, pG p, pB p).

Definition with_rgb (c : rgb) (p : pixel) : pixel :=
  let '(r, g, b) := c in Pixel r g b (pA p).

(** A pixel buffer: rows from top to bottom, each row from left to right
    ([img_array[y, x]] in numpy, [pixels[x, y]] in Pillow). *)
Abbreviation image := (list (list pixel)).

Definition height (img : image) : nat := length img.

Definition width (img : image) : nat :=
  match img with
  | [] => 0%nat
  | row :: _ => length row
  end.

Definition transparent_black : pixel := Pixel 0 0 0 0.

(** [pixels[x, y]] for coordinates inside the image. *)
Definition getpixel (img : image) (x y : nat) : pixel :=
  default transparent_black (img !! y ≫= (.!! x)).

(** [pixels[x, y] = p]. *)
Definition putpixel (img : image) (x y : nat) (p : pixel) : image :=
  alter (<[x := p]>) y img.

(** [pixels[x, y]] when the coordinates come from another image's size:
    Pillow raises [IndexError] outside the image. *)
Definition pixel_access (img : image) (x y : nat) : result pixel :=
  match img !! y ≫= (.!! x) with
  | Some p => Ok p
  | None => Raise IndexError
  end.

Definition is_byte (v : Z) : Prop := 0 <= v <= 255.

Definition byte_pixel (p : pixel) : Prop :=
  is_byte (pR p) /\ is_byte (pG p) /\ is_byte (pB p) /\ is_byte (pA p).

(** A decoded RGBA image: a rectangular grid of byte pixels. *)
Definition rectangular (img : image) : Prop :=
  Forall (fun row => length row = width img) img.

Definition byte_image (img : image) : Prop :=
  Forall (Forall byte_pixel) img.

Definition to_uint8 (v : Z) : Z := v mod 256.

Definition rgb_to_uint8 (c : rgb) : rgb :=
  let '(r, g, b) := c in (to_uint8 r, to_uint8 g, to_uint8 b).

(* ================================================================= *)
(** ** Palette *)

Record PaletteEntry : Type := {
  number : Z;
  hex : string;
  boost : option Q;
  threshold : option Q;
}.

(** ** External library functions *)

Class External : Type := {
  (** [cv2.cvtColor(_, cv2.COLOR_RGB2LAB)] on one [uint8] pixel. *)
  cvtColor_RGB2LAB : rgb -> rgb;
  (** [cv2.cvtColor(_, cv2.COLOR_LAB2RGB)] on one [uint8] pixel. *)
  cvtColor_LAB2RGB : rgb -> rgb;
  (** [img.convert('L').filter(FIND_EDGES).filter(GaussianBlur(1.5))]
      divided by 255, read at [[y, x]]. *)
  saliency_array : image -> nat -> nat -> Q;
  (** ['K-Means Mapping'] ([simple_k_means_palette_mapping]), which
      clusters with scikit-learn; it is not embedded. *)
  simple_k_means_palette_mapping :
    bool -> image -> list (Z * rgb) -> gmap string Q -> result image;
  (** [remove_background], which runs the U2NET model and returns its
      input when anything fails. *)
  remove_background : image -> image;
  (** [resize_image]: Lanczos resampling. *)
  resize_image : image -> Q -> result image;
  (** The OpenCV passes of [preprocess_image] (denoising, CLAHE,
      brightness, percentile stretch over the pixels of the opaque mask,
      gamma, saturation boost, unsharp mask), from the RGB channels, the
      opaque mask and the colour key array to the new RGB channels. *)
  preprocess_passes :
    bool -> list (list rgb) -> (nat -> nat -> bool) -> list PaletteEntry ->
    list (list rgb);
}.


(** [color_key]: a Python dict from colour number to RGB tuple.  A dict
    keeps its keys in insertion order, which decides ties in the
    matchers, so it is an association list with distinct keys. *)
Abbreviation color_key := (list (Z * rgb)).

(** [d[k] = v]: an existing key keeps its position. *)
Fixpoint dict_set (k : Z) (v : rgb) (d : color_key) : color_key :=
  match d with
  | [] => [(k, v)]
  | (k', v') :: d' =>
      if decide (k' = k) then (k, v) :: d' else (k', v') :: dict_set k v d'
  end.

(** [d[k]]. *)
Fixpoint dict_get (d : color_key) (k : Z) : result rgb :=
  match d with
  | [] => Raise KeyError
  | (k', v) :: d' => if decide (k' = k) then Ok v else dict_get d' k
  end.

Definition is_dict (d : color_key) : Prop := NoDup d.*1.

Fixpoint lstrip_hash (s : string) : string :=
  match s with
  | String c s' => if Ascii.eqb c "#" then lstrip_hash s' else s
  | EmptyString => s
  end.

Definition hex_digit (c : ascii) : option Z :=
  let n := Z.of_nat (nat_of_ascii c) in
  if (48 <=? n) && (n <=? 57) then Some (n - 48)
  else if (97 <=? n) && (n <=? 102) then Some (n - 87)
  else if (65 <=? n) && (n <=? 70) then Some (n - 55)
  else None.

Fixpoint hex_digits (s : string) (acc : Z) : result Z :=
  match s with
  | EmptyString => Ok acc
  | String c s' =>
      match hex_digit c with
      | Some d => hex_digits s' (16 * acc + d)
      | None => Raise ValueError
      end
  end.

(** [int(s, 16)] on a slice of hexadecimal digits; the empty slice and any
    other character raise [ValueError].  (Python also accepts a sign and
    surrounding white space in the slice; a colour code has neither.) *)
Definition int_base16 (s : string) : result Z :=
  match s with
  | EmptyString => Raise ValueError
  | _ => hex_digits s 0
  end.

(** [tuple(int(hex_code[i:i+2], 16) for i in (0, 2, 4))]. *)
Definition parse_hex (hex_code : string) : result rgb :=
  r ← int_base16 (substring 0 2 hex_code);
  g ← int_base16 (substring 2 2 hex_code);
  b ← int_base16 (substring 4 2 hex_code);
  Ok (r, g, b).

Definition build_color_key (color_key_array : list PaletteEntry)
  : result color_key :=
  for_each color_key_array
    (fun item key =>
       let color_num := number item in
       let hex_code := lstrip_hash (hex item) in
       c ← parse_hex hex_code;
       Ok (dict_set color_num c key))
    [].

Definition color_nums (key : color_key) : list Z := key.*1.

(** [np.array(list(color_key.values()), dtype=np.uint8)]. *)
Definition color_values_rgb (key : color_key) : list rgb :=
  rgb_to_uint8 <$> key.*2.

(* ================================================================= *)
(** ** Nearest colour: the scalar and the batched matcher *)

(** [np.sum(diff**2)] for [diff = a - b]. *)
Definition dist_sq (a b : rgb) : Z :=
  let '(a0, a1, a2) := a in
  let '(b0, b1, b2) := b in
  (a0 - b0) * (a0 - b0) + (a1 - b1) * (a1 - b1) + (a2 - b2) * (a2 - b2).

(** Scan of [np.argmin]: the first index of the smallest value. *)
Fixpoint argmin_from (l : list Z) (i : nat) (best_i : nat) (best : Z) : nat :=
  match l with
  | [] => best_i
  | d :: l' =>
      if d <? best then argmin_from l' (S i) i d
      else argmin_from l' (S i) best_i best
  end.

(** [np.argmin(dist_sq)]: [ValueError] on an empty sequence. *)
Definition argmin (l : list Z) : result nat :=
  match l with
  | [] => Raise ValueError
  | d :: l' => Ok (argmin_from l' 1 0 d)
  end.

Definition index {A} (l : list A) (i : nat) : result A :=
  match l !! i with
  | Some a => Ok a
  | None => Raise IndexError
  end.

Section Matching.
Context `{External}.

Definition rgb_to_lab_single (c : rgb) : rgb :=
  cvtColor_RGB2LAB (rgb_to_uint8 c).

(** OpenCV refuses an empty array. *)
Definition rgb_palette_to_lab (key : color_key) : result (list rgb) :=
  match color_values_rgb key with
  | [] => Raise Cv2Error
  | rgb_vals => Ok (cvtColor_RGB2LAB <$> rgb_vals)
  end.

Definition find_closest_color (use_lab : bool) (pixel : rgb)
    (key : color_key) : result Z :=
  let pixel := rgb_to_uint8 pixel in
  idx ← (if use_lab then
           let pixel_lab := rgb_to_lab_single pixel in
           color_values_lab ← rgb_palette_to_lab key;
           argmin ((fun c => dist_sq c pixel_lab) <$> color_values_lab)
         else
           argmin ((fun c => dist_sq c pixel) <$> color_values_rgb key));
  index (color_nums key) idx.

(** [a.reshape(H, W, ...)] of a flat list. *)
Fixpoint reshape {A} (h w : nat) (flat : list A) : list (list A) :=
  match h with
  | O => []
  | S h' => take w flat :: reshape h' w (drop w flat)
  end.

(** [np.dstack((mapped_data, alpha_channel))]. *)
Definition dstack (mapped_data : list (list rgb)) (alpha : list (list Z))
  : image :=
  zip_with (zip_with (fun c a => with_rgb c (Pixel 0 0 0 a)))
    mapped_data alpha.

Definition find_closest_colors_image (use_lab : bool) (image_array : image)
    (key : color_key) : result image :=
  let rgb_data := map pixel_rgb <$> image_array in
  let alpha_channel := map pA <$> image_array in
  let h := height image_array in
  let w := width image_array in
  let flat := concat rgb_data in
  closest_indices ←
    (if use_lab return result (list nat) then
       match flat with
       | [] => Raise Cv2Error
       | _ =>
           let lab_flat := cvtColor_RGB2LAB <$> flat in
           color_values_lab ← rgb_palette_to_lab key;
           mapR (fun p => argmin (dist_sq p <$> (color_values_lab : list rgb)))
             lab_flat
       end
     else
       match color_values_rgb key with
       | [] => Raise IndexError
       | colors_f => mapR (fun p => argmin (dist_sq p <$> colors_f)) flat
       end);
  mapped_flat ← mapR (index (color_values_rgb key)) closest_indices;
  Ok (dstack (reshape h w mapped_flat) alpha_channel).

(** ['Color Match']. *)
Definition color_matching_opaque_mask (img_array : image) (x y : nat) : bool :=
  let alpha_threshold := 191 in
  pA (getpixel img_array x y) >? alpha_threshold.

Definition color_matching (use_lab : bool) (img : image) (key : color_key)
  : result image :=
  let img_array := img in
  mapped ← find_closest_colors_image use_lab img_array key;
  Ok (imap (fun y row =>
        imap (fun x p =>
          if color_matching_opaque_mask img_array x y then p
          else getpixel img_array x y) row) mapped).

End Matching.

(* ================================================================= *)
(** ** Dithering engine *)

(** [process_params]: a dict from parameter name to number. *)
Abbreviation params := (gmap string Q).

(** [params.get('strength', 1.0)]. *)
Definition get_strength (p : params) : Q := default 1%Q (p !! "strength").

(** A diffusion matrix: [(dx, dy, coefficient)] in the order of the list. *)
Abbreviation kernel := (list (Z * Z * Q)).

(** A weight [n / d]. *)
Definition frac (n : Z) (d : positive) : Q := Qmake n d.

Definition atkinson_matrix : kernel :=
  [ (1, 0, frac 1 8); (2, 0, frac 1 8);
    (-1, 1, frac 1 8); (0, 1, frac 1 8); (1, 1, frac 1 8);
    (0, 2, frac 1 8) ].

Definition floyd_steinberg_matrix : kernel :=
  [ (1, 0, frac 7 16);
    (-1, 1, frac 3 16); (0, 1, frac 5 16); (1, 1, frac 1 16) ].

Definition stucki_matrix : kernel :=
  [ (1, 0, frac 8 42); (2, 0, frac 4 42);
    (-2, 1, frac 2 42); (-1, 1, frac 4 42); (0, 1, frac 8 42); (1, 1, frac 4 42);
    (2, 1, frac 2 42);
    (-2, 2, frac 1 42); (-1, 2, frac 2 42); (0, 2, frac 4 42); (1, 2, frac 2 42);
    (2, 2, frac 1 42) ].

Definition jarvis_judice_ninke_matrix : kernel :=
  [ (1, 0, frac 7 48); (2, 0, frac 5 48);
    (-2, 1, frac 3 48); (-1, 1, frac 5 48); (0, 1, frac 7 48); (1, 1, frac 5 48);
    (2, 1, frac 3 48);
    (-2, 2, frac 1 48); (-1, 2, frac 3 48); (0, 2, frac 5 48); (1, 2, frac 3 48);
    (2, 2, frac 1 48) ].

Definition sierra2_matrix : kernel :=
  [ (1, 0, frac 4 16); (2, 0, frac 3 16);
    (-2, 1, frac 1 16); (-1, 1, frac 2 16); (0, 1, frac 3 16); (1, 1, frac 2 16);
    (2, 1, frac 1 16) ].

(** [a < b] on floats. *)
Definition Qlt_bool (a b : Q) : bool := negb (Qle_bool b a).

(** [int(v)]: truncation towards zero. *)
Definition py_int (v : Q) : Z :=
  if Qle_bool 0 v then Qfloor v else Qceiling v.

(** [np.clip(v, 0, 255)] and [min(max(v, 0), 255)] on a float. *)
Definition clip_255 (v : Q) : Q := Qmin (Qmax v 0) 255.

(** [int(min(max(v, 0), 255))]. *)
Definition clamp_channel (v : Q) : Z := py_int (clip_255 v).

(** [np.clip(a, 0, 255).astype(np.uint8)] on one [int16] value. *)
Definition clip_uint8 (v : Z) : Z := to_uint8 (Z.min (Z.max v 0) 255).

Definition clip_pixel (p : pixel) : pixel :=
  Pixel (clip_uint8 (pR p)) (clip_uint8 (pG p)) (clip_uint8 (pB p))
        (clip_uint8 (pA p)).

Definition clip_image (img_array : image) : image :=
  map clip_pixel <$> img_array.

(** [alpha_mask = (alpha_channel > 0)], read at [[y, x]]. *)
Definition alpha_mask (img : image) (y x : nat) : bool :=
  pA (getpixel img x y) >? 0.

(** [0 <= nx < width and 0 <= ny < height]. *)
Definition in_bounds (w h : nat) (nx ny : Z) : bool :=
  (0 <=? nx) && (nx <? Z.of_nat w) && (0 <=? ny) && (ny <? Z.of_nat h).

(** [[(o - n) * strength for o, n in zip(old_pixel_rgb, new_pixel)]]. *)
Definition quant_error_of (old_pixel_rgb new_pixel : rgb) (strength : Q)
  : Q * Q * Q :=
  let '(o0, o1, o2) := old_pixel_rgb in
  let '(n0, n1, n2) := new_pixel in
  (inject_Z (o0 - n0) * strength, inject_Z (o1 - n1) * strength,
   inject_Z (o2 - n2) * strength)%Q.

(** The neighbour after receiving its share of the error.  The products
    and sums are exact here; the source computes them in binary64 before
    it truncates, so a value that falls within rounding error of an
    integer can differ by one from the program's. *)
Definition add_error (neighbor : pixel) (quant_error : Q * Q * Q) (coeff : Q)
  : pixel :=
  let '(e0, e1, e2) := quant_error in
  let nr := (inject_Z (pR neighbor) + e0 * coeff)%Q in
  let ng := (inject_Z (pG neighbor) + e1 * coeff)%Q in
  let nb := (inject_Z (pB neighbor) + e2 * coeff)%Q in
  Pixel (clamp_channel nr) (clamp_channel ng) (clamp_channel nb)
        (pA neighbor).

Section Dithering.
Context `{External}.

(** The local [closest_color_func] of the array-based dithering
    functions; [color_values_lab] is [None] (here the empty list) when
    [use_lab] is off. *)
Definition closest_color_func (use_lab : bool) (values_rgb values_lab : list rgb)
    (pixel_rgb : rgb) : result nat :=
  if use_lab then
    let p_lab := cvtColor_RGB2LAB (rgb_to_uint8 pixel_rgb) in
    argmin ((fun c => dist_sq c p_lab) <$> values_lab)
  else
    argmin ((fun c => dist_sq c pixel_rgb) <$> values_rgb).

Definition palette_lab (use_lab : bool) (key : color_key)
  : result (list rgb) :=
  if use_lab then rgb_palette_to_lab key else Ok [].

(** The inner loop over the diffusion matrix, on the working array. *)
Definition diffuse (mask : nat -> nat -> bool) (w h : nat) (x y : nat)
    (quant_error : Q * Q * Q) (diffusion_matrix : kernel)
    (img_array : image) : image :=
  foldl (fun arr '(dx, dy, coeff) =>
           let nx := Z.of_nat x + dx in
           let ny := Z.of_nat y + dy in
           if in_bounds w h nx ny
              && mask (Z.to_nat ny) (Z.to_nat nx)
           then
             let neighbor := getpixel arr (Z.to_nat nx) (Z.to_nat ny) in
             putpixel arr (Z.to_nat nx) (Z.to_nat ny)
               (add_error neighbor quant_error coeff)
           else arr)
        img_array diffusion_matrix.

(** One iteration of the pixel loop of
    [optimized_error_diffusion_dithering] (and of [hybrid_dithering],
    which picks the matrix per pixel). *)
Definition diffusion_step (use_lab : bool) (values_rgb values_lab : list rgb)
    (strength : Q) (matrix_at : nat -> nat -> kernel)
    (mask : nat -> nat -> bool) (w h : nat) (y x : nat)
    (img_array : image) : result image :=
  if negb (mask y x) then Ok img_array
  else
    let old_pixel := getpixel img_array x y in
    let old_pixel_rgb := pixel_rgb old_pixel in
    idx ← closest_color_func use_lab values_rgb values_lab old_pixel_rgb;
    new_pixel ← index values_rgb idx;
    let quant_error := quant_error_of old_pixel_rgb new_pixel strength in
    let img_array := putpixel img_array x y (with_rgb new_pixel old_pixel) in
    Ok (diffuse mask w h x y quant_error (matrix_at y x) img_array).

Definition diffusion_loop (use_lab : bool) (values_rgb values_lab : list rgb)
    (strength : Q) (matrix_at : nat -> nat -> kernel)
    (mask : nat -> nat -> bool) (w h : nat) (img_array : image)
  : result image :=
  for_range h (fun y =>
    for_range w (fun x =>
      diffusion_step use_lab values_rgb values_lab strength matrix_at
        mask w h y x))
    img_array.

Definition optimized_error_diffusion_dithering (use_lab : bool)
    (img : image) (key : color_key) (strength : Q)
    (diffusion_matrix : kernel) : result image :=
  let img_array := img in
  let h := height img_array in
  let w := width img_array in
  let mask := alpha_mask img in
  let values_rgb := color_values_rgb key in
  values_lab ← palette_lab use_lab key;
  img_array ← diffusion_loop use_lab values_rgb values_lab strength
                (fun _ _ => diffusion_matrix) mask w h img_array;
  Ok (clip_image img_array).

Definition atkinson_dithering (use_lab : bool) (img : image)
    (key : color_key) (p : params) : result image :=
  optimized_error_diffusion_dithering use_lab img key (get_strength p)
    atkinson_matrix.

Definition stucki_dithering (use_lab : bool) (img : image)
    (key : color_key) (p : params) : result image :=
  optimized_error_diffusion_dithering use_lab img key (get_strength p)
    stucki_matrix.

Definition floyd_steinberg_dithering (use_lab : bool) (img : image)
    (key : color_key) (p : params) : result image :=
  optimized_error_diffusion_dithering use_lab img key (get_strength p)
    floyd_steinberg_matrix.

Definition jarvis_judice_ninke_dithering (use_lab : bool) (img : image)
    (key : color_key) (p : params) : result image :=
  optimized_error_diffusion_dithering use_lab img key (get_strength p)
    jarvis_judice_ninke_matrix.

Definition sierra2_dithering (use_lab : bool) (img : image)
    (key : color_key) (p : params) : result image :=
  optimized_error_diffusion_dithering use_lab img key (get_strength p)
    sierra2_matrix.

(** ['Hybrid Dither']: Floyd-Steinberg where the saliency exceeds 0.5,
    Atkinson elsewhere. *)
Definition hybrid_matrix_at (img : image) (y x : nat) : kernel :=
  let saliency := saliency_array img y x in
  if Qlt_bool (1 # 2) saliency then floyd_steinberg_matrix
  else atkinson_matrix.

Definition hybrid_dithering (use_lab : bool) (img : image)
    (key : color_key) (p : params) : result image :=
  let strength := get_strength p in
  let img_array := img in
  let h := height img_array in
  let w := width img_array in
  let values_rgb := color_values_rgb key in
  values_lab ← palette_lab use_lab key;
  let mask := alpha_mask img in
  img_array ← diffusion_loop use_lab values_rgb values_lab strength
                (hybrid_matrix_at img) mask w h img_array;
  Ok (clip_image img_array).

(** ['Pattern Dither']. *)
Definition bayer_8x8 : list (list Z) :=
  [ [0; 32; 8; 40; 2; 34; 10; 42];
    [48; 16; 56; 24; 50; 18; 58; 26];
    [12; 44; 4; 36; 14; 46; 6; 38];
    [60; 28; 52; 20; 62; 30; 54; 22];
    [3; 35; 11; 43; 1; 33; 9; 41];
    [51; 19; 59; 27; 49; 17; 57; 25];
    [15; 47; 7; 39; 13; 45; 5; 37];
    [63; 31; 55; 23; 61; 29; 53; 21] ].

(** [np.tile(bayer_8x8, ...)[:height, :width]] read at [[y, x]]; the
    matrix was divided by 64. *)
Definition tiled_bayer (y x : nat) : Q :=
  let b := default 0 (bayer_8x8 !! (y mod 8)%nat ≫= (.!! (x mod 8)%nat)) in
  (inject_Z b / 64)%Q.

(** The adjusted pixel of the pattern dither.  In RGB mode [R], [G] and
    [B] are [np.uint8] scalars, so their sum wraps around at 256.  The
    products are exact here; the source computes them in binary64 before
    it truncates, so a channel that falls within rounding error of an
    integer can differ by one from the program's. *)
Definition ordered_adjust (use_lab : bool) (adjustment_factor : Q)
    (y x : nat) (old_pixel : rgb) : rgb :=
  if use_lab then
    let '(l0, a0, b0) := rgb_to_lab_single old_pixel in
    let L := (inject_Z l0 / 255)%Q in
    let L_adj :=
      if Qlt_bool L (tiled_bayer y x)
      then Qmax 0%Q (L - adjustment_factor)%Q
      else Qmin 1%Q (L + adjustment_factor)%Q in
    cvtColor_LAB2RGB (to_uint8 (py_int (L_adj * 255)%Q), a0, b0)
  else
    let '(R, G, B) := old_pixel in
    let brightness := (inject_Z (to_uint8 (to_uint8 (R + G) + B)) / 765)%Q in
    let factor :=
      if Qlt_bool brightness (tiled_bayer y x)
      then (1 - adjustment_factor)%Q
      else (1 + adjustment_factor)%Q in
    (clamp_channel (inject_Z R * factor)%Q,
     clamp_channel (inject_Z G * factor)%Q,
     clamp_channel (inject_Z B * factor)%Q).

Definition ordered_step (use_lab : bool) (values_rgb values_lab : list rgb)
    (adjustment_factor : Q) (mask : nat -> nat -> bool) (y x : nat)
    (img_array : image) : result image :=
  if negb (mask y x) then Ok img_array
  else
    let old_pixel := rgb_to_uint8 (pixel_rgb (getpixel img_array x y)) in
    let pixel_rgb_adj := ordered_adjust use_lab adjustment_factor y x old_pixel in
    idx ← closest_color_func use_lab values_rgb values_lab pixel_rgb_adj;
    new_pixel ← index values_rgb idx;
    Ok (putpixel img_array x y (with_rgb new_pixel (getpixel img_array x y))).

Definition ordered_dithering (use_lab : bool) (img : image)
    (key : color_key) (p : params) : result image :=
  let strength := get_strength p in
  let img_array := img in
  let mask := alpha_mask img in
  let h := height img_array in
  let w := width img_array in
  let values_rgb := color_values_rgb key in
  values_lab ← palette_lab use_lab key;
  let adjustment_factor := ((3 # 10) * strength)%Q in
  img_array ← for_range h (fun y =>
                for_range w (fun x =>
                  ordered_step use_lab values_rgb values_lab
                    adjustment_factor mask y x))
                img_array;
  Ok (clip_image img_array).

(** The Pillow-based [error_diffusion_dithering] with its helper
    [distribute_error]. *)
Definition distribute_error (pixels : image) (x y : nat) (w h : nat)
    (quant_error : Q * Q * Q) (diffusion_matrix : kernel) : image :=
  foldl (fun pixels '(dx, dy, coefficient) =>
           let nx := Z.of_nat x + dx in
           let ny := Z.of_nat y + dy in
           if in_bounds w h nx ny then
             let current_pixel := getpixel pixels (Z.to_nat nx) (Z.to_nat ny) in
             if pA current_pixel =? 0 then pixels
             else putpixel pixels (Z.to_nat nx) (Z.to_nat ny)
                    (add_error current_pixel quant_error coefficient)
           else pixels)
        pixels diffusion_matrix.

Definition error_diffusion_step (use_lab : bool) (key : color_key)
    (strength : Q) (diffusion_matrix : kernel) (w h : nat) (y x : nat)
    (pixels : image) : result image :=
  let old_pixel := getpixel pixels x y in
  if pA old_pixel =? 0 then Ok pixels
  else
    let old_pixel_rgb := pixel_rgb old_pixel in
    new_pixel_num ← find_closest_color use_lab old_pixel_rgb key;
    new_pixel ← dict_get key new_pixel_num;
    let quant_error := quant_error_of old_pixel_rgb new_pixel strength in
    let pixels := putpixel pixels x y (with_rgb new_pixel old_pixel) in
    Ok (distribute_error pixels x y w h quant_error diffusion_matrix).

Definition error_diffusion_dithering (use_lab : bool) (img : image)
    (key : color_key) (strength : Q) (diffusion_matrix : kernel)
  : result image :=
  let w := width img in
  let h := height img in
  for_range h (fun y =>
    for_range w (fun x =>
      error_diffusion_step use_lab key strength diffusion_matrix w h y x))
    img.

End Dithering.

(* ================================================================= *)
(** ** Random dithering and the process-wide generator *)

(** The state of [np.random]: the standard normal deviates it is going to
    produce, and how many were drawn. *)
Record rng : Type := { draws : nat -> Q; position : nat }.

(** [np.random.normal(loc, scale)]; a negative scale is a [ValueError]. *)
Definition random_normal (loc scale : Q) (g : rng) : result (Q * rng) :=
  if Qlt_bool scale 0 then Raise ValueError
  else Ok ((loc + scale * draws g (position g))%Q,
           {| draws := draws g; position := S (position g) |}).

Section Processing.
Context `{External}.

Definition lab_to_rgb_single (lab : Q * Q * Q) : rgb :=
  let '(l, a, b) := lab in
  cvtColor_LAB2RGB (to_uint8 (py_int l), to_uint8 (py_int a),
                    to_uint8 (py_int b)).

(** The noisy pixel of one iteration of [random_dithering]. *)
Definition noisy_pixel_of (use_lab : bool) (noise_std : Q)
    (old_pixel_rgb : rgb) (g : rng) : result (rgb * rng) :=
  if use_lab then
    let '(l0, a0, b0) := rgb_to_lab_single old_pixel_rgb in
    '(n0, g) ← random_normal 0 (noise_std * (1 # 2)) g;
    let l_noise := clip_255 (inject_Z l0 + n0) in
    '(n1, g) ← random_normal 0 (noise_std * (1 # 4)) g;
    let a_noise := clip_255 (inject_Z a0 + n1) in
    '(n2, g) ← random_normal 0 (noise_std * (1 # 4)) g;
    let b_noise := clip_255 (inject_Z b0 + n2) in
    Ok (lab_to_rgb_single (l_noise, a_noise, b_noise), g)
  else
    let '(r0, g0, b0) := old_pixel_rgb in
    '(n0, g) ← random_normal 0 noise_std g;
    let r := clip_255 (inject_Z r0 + n0) in
    '(n1, g) ← random_normal 0 noise_std g;
    let g_ := clip_255 (inject_Z g0 + n1) in
    '(n2, g) ← random_normal 0 noise_std g;
    let b := clip_255 (inject_Z b0 + n2) in
    Ok ((py_int r, py_int g_, py_int b), g).

Definition random_step (use_lab : bool) (key : color_key) (noise_std : Q)
    (y x : nat) (st : image * rng) : result (image * rng) :=
  let '(pixels, g) := st in
  let old_pixel := getpixel pixels x y in
  if pA old_pixel =? 0 then Ok st
  else
    let old_pixel_rgb := pixel_rgb old_pixel in
    '(noisy_pixel, g) ← noisy_pixel_of use_lab noise_std old_pixel_rgb g;
    new_pixel_num ← find_closest_color use_lab noisy_pixel key;
    new_pixel ← dict_get key new_pixel_num;
    Ok (putpixel pixels x y (with_rgb new_pixel old_pixel), g).

(** ['Random Dither'].  Only ['strength'] is read from [params]; the
    noise comes from the process-wide generator. *)
Definition random_dithering (use_lab : bool) (img : image)
    (key : color_key) (p : params) (g : rng) : result (image * rng) :=
  let strength := get_strength p in
  let w := width img in
  let h := height img in
  let noise_std := (32 * strength)%Q in
  for_range h (fun y =>
    for_range w (fun x => random_step use_lab key noise_std y x))
    (img, g).

(** *** The registry and [process_image] *)

Definition processing_function : Type :=
  bool -> image -> color_key -> params -> rng -> result (image * rng).

(** A method that does not touch the generator. *)
Definition no_rng (f : bool -> image -> color_key -> params -> result image)
  : processing_function :=
  fun use_lab img key p g => out ← f use_lab img key p; Ok (out, g).

Definition processing_method_registry : list (string * processing_function) :=
  [ ("Color Match", no_rng (fun use_lab img key _ => color_matching use_lab img key));
    ("K-Means Mapping", no_rng simple_k_means_palette_mapping);
    ("Hybrid Dither", no_rng hybrid_dithering);
    ("Pattern Dither", no_rng ordered_dithering);
    ("Atkinson Dither", no_rng atkinson_dithering);
    ("Stucki Dither", no_rng stucki_dithering);
    ("Floyd Dither", no_rng floyd_steinberg_dithering);
    ("Jarvis Dither", no_rng jarvis_judice_ninke_dithering);
    ("Sierra Dither", no_rng sierra2_dithering);
    ("Random Dither", random_dithering) ].

Fixpoint registry_get (reg : list (string * processing_function))
    (name : string) : option processing_function :=
  match reg with
  | [] => None
  | (n, f) :: reg' => if String.eqb n name then Some f else registry_get reg' name
  end.

Definition process_image (use_lab : bool) (img : image) (key : color_key)
    (process_mode : string) (process_params : params) (g : rng)
  : result (image * rng) :=
  match registry_get processing_method_registry process_mode with
  | Some processing_function =>
      processing_function use_lab img key process_params g
  | None =>
      no_rng (fun use_lab img key _ => color_matching use_lab img key)
        use_lab img key process_params g
  end.

End Processing.

(* ================================================================= *)
(** ** Tone preprocessor: the part that depends on opacity *)

Section Preprocess.
Context `{External}.

(** [opaque_mask = alpha_channel >= config['alpha_threshold']]. *)
Definition preprocess_opaque_mask (image_array : image) (y x : nat) : bool :=
  let alpha_threshold := 191 in
  pA (getpixel image_array x y) >=? alpha_threshold.

(** [preprocess_image]: the colour key luminances are computed first
    ([min] of an empty sequence is a [ValueError]); the passes run on
    the RGB channels with the opaque mask; pixels outside the mask get
    their original RGB back and the alpha channel is re-attached. *)
Definition preprocess_image (use_lab : bool) (image_array : image)
    (color_key_array : list PaletteEntry) : result image :=
  let opaque_mask := preprocess_opaque_mask image_array in
  let rgb_image := map pixel_rgb <$> image_array in
  _ ← mapR (fun ck => parse_hex (hex ck)) color_key_array;
  match color_key_array with
  | [] => Raise ValueError
  | _ =>
      let rgb_image := preprocess_passes use_lab rgb_image opaque_mask
                         color_key_array in
      Ok (imap (fun y row =>
            imap (fun x p =>
              if opaque_mask y x
              then with_rgb (default (pixel_rgb p)
                               (rgb_image !! y ≫= (.!! x))) p
              else p) row) image_array)
  end.

End Preprocess.

(* ================================================================= *)
(** ** Stamp text *)

(** [str(n)] for an integer. *)
Definition str_int (z : Z) : string := NilZero.string_of_int (Z.to_int z).

(** [f"{round(n * 0.1, 1)}"] for a coordinate or a size [n]: the float
    nearest to [n / 10], printed by Python with one digit after the
    point. *)
Definition fmt_tenths (n : nat) : string :=
  str_int (Z.of_nat (n / 10)) +:+ "." +:+ str_int (Z.of_nat (n mod 10)).

(** [f"{scaled_x},{scaled_y},{color_num}"]. *)
Definition point_line (x y : nat) (color_num : Z) : string :=
  fmt_tenths x +:+ "," +:+ fmt_tenths y +:+ "," +:+ str_int color_num.

Definition img_header (w h : nat) : string :=
  fmt_tenths w +:+ "," +:+ fmt_tenths h +:+ ",img".

Definition gif_header (w h : nat) (total_frames : nat) (uniform_delay : Z)
  : string :=
  fmt_tenths w +:+ "," +:+ fmt_tenths h +:+ ",gif," +:+
  str_int (Z.of_nat total_frames) +:+ "," +:+ str_int uniform_delay.

(** [f"frame,{n}"] and [f"frame,{n},{delay}"]. *)
Definition frame_header (n : nat) (delay : option Z) : string :=
  match delay with
  | None => "frame," +:+ str_int (Z.of_nat n)
  | Some d => "frame," +:+ str_int (Z.of_nat n) +:+ "," +:+ str_int d
  end.

(** [for i in range(n): s = body(i, s)] for a body that cannot raise. *)
Definition fold_range {S} (n : nat) (body : nat -> S -> S) (s : S) : S :=
  foldl (fun s i => body i s) s (range n).

(** [for i in range(n - 1, -1, -1): s = body(i, s)]. *)
Definition fold_range_down {S} (n : nat) (body : nat -> S -> S) (s : S) : S :=
  foldl (fun s i => body i s) s (reverse (range n)).

(* ================================================================= *)
(** ** Static encoder *)

(** The transparency filter of [process_and_save_image]. *)
Definition filter_transparency (img : image) : image :=
  let w := width img in
  let h := height img in
  fold_range h (fun y =>
    fold_range w (fun x pixels =>
      let pixel := getpixel pixels x y in
      if pA pixel <=? 191 then putpixel pixels x y transparent_black
      else pixels))
    img.

(** A non-zero value at [[y, x]] of a band. *)
Definition nonzero_at (band : list (list Z)) (y x : nat) : bool :=
  negb (default 0 (band !! y ≫= (.!! x)) =? 0).

(** [alpha.getbbox()]: the bounding box [(left, upper, right, lower)] of
    the non-zero values, [None] when there is none. *)
Definition getbbox (alpha : list (list Z)) : option (nat * nat * nat * nat) :=
  let w := match alpha with [] => 0%nat | row :: _ => length row end in
  let h := length alpha in
  let ys := filter (fun y => existsb (nonzero_at alpha y) (range w)) (range h) in
  let xs := filter (fun x => existsb (fun y => nonzero_at alpha y x) (range h))
              (range w) in
  match head xs, last xs, head ys, last ys with
  | Some x_min, Some x_max, Some y_min, Some y_max =>
      Some (x_min, y_min, S x_max, S y_max)
  | _, _, _, _ => None
  end.

(** [image.crop((left, upper, right, lower))] for a box inside the image. *)
Definition crop (img : image) (bbox : nat * nat * nat * nat) : image :=
  let '(left_, upper, right_, lower) := bbox in
  (fun row => take (right_ - left_) (drop left_ row))
    <$> take (lower - upper) (drop upper img).

Definition crop_to_solid_area (img : image) : image :=
  let alpha := map pA <$> img in
  match getbbox alpha with
  | Some bbox => crop img bbox
  | None => [[transparent_black]]
  end.

Section StaticEncoder.
Context `{External}.

(** The body of the pixel loop that writes [stamp.txt]; an exception of
    the matcher is reported through [message_callback] and the pixel is
    left out. *)
Definition stamp_pixel (use_lab : bool) (key : color_key) (img : image)
    (h : nat) (y x : nat) (f : list string) : list string :=
  let pixel := getpixel img x y in
  let '(r, g, b, a) := (pR pixel, pG pixel, pB pixel, pA pixel) in
  if a <=? 191 then f
  else
    match find_closest_color use_lab (r, g, b) key with
    | Ok closest_color_num =>
        f ++ [point_line x (h - 1 - y) closest_color_num]
    | Raise _ => f
    end.

(** The contents of [stamp.txt], line by line. *)
Definition write_stamp (use_lab : bool) (img : image) (key : color_key)
  : list string :=
  let w := width img in
  let h := height img in
  let f := [img_header w h] in
  fold_range_down h (fun y =>
    fold_range w (fun x => stamp_pixel use_lab key img h y x)) f.

(** [process_and_save_image]: the lines written to [stamp.txt], or the
    exception handed to [error_callback]. *)
Definition process_and_save_image (img : image) (target_size : option Q)
    (process_mode : string) (use_lab : bool) (process_params : params)
    (color_key_array : list PaletteEntry) (remove_bg preprocess_flag : bool)
    (g : rng) : result (list string * rng) :=
  let img := if remove_bg then remove_background img else img in
  img ← match target_size with
        | Some t => resize_image img t
        | None => Ok img
        end;
  img ← (if preprocess_flag
         then preprocess_image use_lab img color_key_array
         else Ok img);
  key ← build_color_key color_key_array;
  '(img, g) ← process_image use_lab img key process_mode process_params g;
  let img := filter_transparency img in
  let img := crop_to_solid_area img in
  Ok (write_stamp use_lab img key, g).

End StaticEncoder.

(* ================================================================= *)
(** ** Animation encoder *)

(** [{(x, y): color_num}]. *)
Abbreviation pixel_map := (gmap (nat * nat) Z).

(** [d.get((x, y), -1)]. *)
Definition get_color (d : pixel_map) (xy : nat * nat) : Z :=
  default (-1) (d !! xy).

(** Python does not fix the order in which a set is iterated; the encoder
    is parametrised by it.  An iteration visits every element once. *)
Record set_order : Type := {
  iterate : gset (nat * nat) -> list (nat * nat);
  iterate_NoDup : forall s, NoDup (iterate s);
  iterate_elem_of : forall s xy, xy ∈ iterate s <-> xy ∈ s;
}.

(** The comparison loop of a frame with the one before it. *)
Definition frame_diffs (O : set_order) (Frame1Array current_frame_pixels : pixel_map)
  : list (nat * nat * Z) :=
  let all_positions := dom Frame1Array ∪ dom current_frame_pixels in
  foldl (fun diffs '(x, y) =>
           let prev_color_num := get_color Frame1Array (x, y) in
           let current_color_num := get_color current_frame_pixels (x, y) in
           if decide (current_color_num ≠ prev_color_num) then
             if current_color_num =? -1 then diffs ++ [(x, y, -1)]
             else diffs ++ [(x, y, current_color_num)]
           else diffs)
        [] (iterate O all_positions).

(** The comparison loop that closes the animation: the last frame against
    the first. *)
Definition closing_diffs (O : set_order) (first_frame_pixels Frame1Array : pixel_map)
  : list (nat * nat * Z) :=
  let all_positions := dom first_frame_pixels ∪ dom Frame1Array in
  foldl (fun diffs '(x, y) =>
           let first_color_num := get_color first_frame_pixels (x, y) in
           let last_color_num := get_color Frame1Array (x, y) in
           if decide (first_color_num ≠ last_color_num) then
             if first_color_num =? -1 then diffs ++ [(x, y, first_color_num)]
             else if last_color_num =? -1 then diffs ++ [(x, y, -1)]
             else diffs ++ [(x, y, first_color_num)]
           else diffs)
        [] (iterate O all_positions).

(** [for x, y, color_num in diffs: frames_file.write(...)]. *)
Definition write_diffs (frames_file : list string) (diffs : list (nat * nat * Z))
  : list string :=
  foldl (fun f '(x, y, color_num) => f ++ [point_line x y color_num])
        frames_file diffs.

(** The state carried from frame to frame. *)
Record encoder_state : Type := {
  Frame1Array : pixel_map;
  frames_file : list string;
  header_frame_number : nat;
}.

(** The two text files of an animated stamp. *)
Record gif_files : Type := {
  stamp_txt : list string;
  frames_txt : list string;
}.

(** [delays[0] if all(d == delays[0] for d in delays) else -1]. *)
Definition uniform_delay_of (delays : list Z) : result Z :=
  d0 ← index delays 0;
  Ok (if forallb (fun d => d =? d0) delays then d0 else -1).

Section AnimationEncoder.
Context `{External}.
Variable O : set_order.

(** Frame 1: only the pixels kept are entered in the map. *)
Definition first_frame_step (use_lab : bool) (key : color_key)
    (first_frame : image) (y x : nat) (st : pixel_map * list string)
  : result (pixel_map * list string) :=
  let '(Frame1Array, stamp_file) := st in
  let pixel := getpixel first_frame x y in
  let '(r, g, b, a) := (pR pixel, pG pixel, pB pixel, pA pixel) in
  if a <=? 191 then Ok st
  else
    closest_color_num ← find_closest_color use_lab (r, g, b) key;
    Ok (<[(x, y) := closest_color_num]> Frame1Array,
        stamp_file ++ [point_line x y closest_color_num]).

Definition encode_first_frame (use_lab : bool) (key : color_key)
    (first_frame : image) (total_frames : nat) (uniform_delay : Z)
  : result (pixel_map * list string) :=
  let w := width first_frame in
  let h := height first_frame in
  let stamp_file := [gif_header w h total_frames uniform_delay] in
  for_range h (fun y =>
    for_range w (fun x => first_frame_step use_lab key first_frame y x))
    (∅, stamp_file).

(** Later frames: every coordinate is entered, [-1] for a pixel that is
    not kept. *)
Definition collect_step (use_lab : bool) (key : color_key) (frame : image)
    (y x : nat) (current_frame_pixels : pixel_map) : result pixel_map :=
  pixel ← pixel_access frame x y;
  let '(r, g, b, a) := (pR pixel, pG pixel, pB pixel, pA pixel) in
  current_color_num ←
    (if a <=? 191 then Ok (-1)
     else find_closest_color use_lab (r, g, b) key);
  Ok (<[(x, y) := current_color_num]> current_frame_pixels).

Definition collect_pixels (use_lab : bool) (key : color_key) (w h : nat)
    (frame : image) : result pixel_map :=
  for_range h (fun y =>
    for_range w (fun x => collect_step use_lab key frame y x)) ∅.

(** The body of [for frame_number in range(2, total_frames + 1)]. *)
Definition encode_frame (use_lab : bool) (key : color_key) (w h : nat)
    (saved : list image) (delays : list Z) (uniform_delay : Z)
    (frame_number : nat) (st : encoder_state) : result encoder_state :=
  frame ← match saved !! (frame_number - 1)%nat with
          | Some frame => Ok frame
          | None => Raise FileNotFoundError
          end;
  current_frame_pixels ← collect_pixels use_lab key w h frame;
  let diffs := frame_diffs O (Frame1Array st) current_frame_pixels in
  header ← (if uniform_delay =? -1 then
              frame_delay ← index delays (frame_number - 1)%nat;
              Ok (frame_header (header_frame_number st) (Some frame_delay))
            else Ok (frame_header (header_frame_number st) None));
  Ok {| Frame1Array := current_frame_pixels;
        frames_file := write_diffs (frames_file st ++ [header]) diffs;
        header_frame_number := S (header_frame_number st) |}.

(** The closing block, written under the next frame number. *)
Definition encode_closing (delays : list Z) (uniform_delay : Z)
    (first_frame_pixels : pixel_map) (st : encoder_state)
  : result (list string) :=
  let diffs := closing_diffs O first_frame_pixels (Frame1Array st) in
  let final_frame_number := header_frame_number st in
  header ← (if uniform_delay =? -1 then
              frame_delay ← index delays 0;
              Ok (frame_header final_frame_number (Some frame_delay))
            else Ok (frame_header final_frame_number None));
  Ok (write_diffs (frames_file st ++ [header]) diffs).

(** The encoding part of [process_and_save_gif], from the frames saved
    by [save_frames] ([frame_1.png], [frame_2.png], ...). *)
Definition encode_gif (use_lab : bool) (key : color_key)
    (saved : list image) (total_frames : nat) (delays : list Z)
  : result gif_files :=
  uniform_delay ← uniform_delay_of delays;
  first_frame ← match saved !! 0%nat with
                | Some frame => Ok frame
                | None => Raise FileNotFoundError
                end;
  let w := width first_frame in
  let h := height first_frame in
  '(first_frame_pixels, stamp_file) ←
    encode_first_frame use_lab key first_frame total_frames uniform_delay;
  st ← for_each (seq 2 (total_frames - 1))
         (encode_frame use_lab key w h saved delays uniform_delay)
         {| Frame1Array := first_frame_pixels;
            frames_file := [];
            header_frame_number := 1 |};
  frames_file ← encode_closing delays uniform_delay first_frame_pixels st;
  Ok {| stamp_txt := stamp_file; frames_txt := frames_file |}.

(** One frame of [save_frames]: the pipeline of a still image, then
    every pixel below 80% opacity is cleared. *)
Definition save_frame (target_size : option Q) (process_mode : string)
    (use_lab : bool) (process_params : params)
    (color_key_array : list PaletteEntry) (remove_bg preprocess_flag : bool)
    (key : color_key) (frame : image) (g : rng) : result (image * rng) :=
  let frame := if remove_bg then remove_background frame else frame in
  frame ← match target_size with
          | Some t => resize_image frame t
          | None => Ok frame
          end;
  frame ← (if preprocess_flag
           then preprocess_image use_lab frame color_key_array
           else Ok frame);
  '(frame, g) ← process_image use_lab frame key process_mode process_params g;
  let w := width frame in
  let h := height frame in
  let opacity_threshold := 204 in
  Ok (fold_range h (fun y =>
        fold_range w (fun x pixels =>
          let a := pA (getpixel pixels x y) in
          if a <? opacity_threshold
          then putpixel pixels x y transparent_black
          else pixels)) frame, g).

(** [save_frames] keeps what was saved before the first exception. *)
Fixpoint save_each (save : image -> rng -> result (image * rng))
    (frames : list image) (g : rng) : list image :=
  match frames with
  | [] => []
  | frame :: frames' =>
      match save frame g with
      | Ok (saved, g') => saved :: save_each save frames' g'
      | Raise _ => []
      end
  end.

Definition save_frames (target_size : option Q) (process_mode : string)
    (use_lab : bool) (process_params : params)
    (color_key_array : list PaletteEntry) (remove_bg preprocess_flag : bool)
    (frames : list image) (g : rng) : list image :=
  match build_color_key color_key_array with
  | Ok key =>
      save_each (save_frame target_size process_mode use_lab process_params
                   color_key_array remove_bg preprocess_flag key) frames g
  | Raise _ => []
  end.

(** [process_and_save_gif] on the decoded frames and their delays. *)
Definition process_and_save_gif (frames : list image) (delays : list Z)
    (target_size : option Q) (process_mode : string) (use_lab : bool)
    (process_params : params) (color_key_array : list PaletteEntry)
    (remove_bg preprocess_flag : bool) (g : rng) : result gif_files :=
  let total_frames := length frames in
  let saved := save_frames target_size process_mode use_lab process_params
                 color_key_array remove_bg preprocess_flag frames g in
  key ← build_color_key color_key_array;
  encode_gif use_lab key saved total_frames delays.

End AnimationEncoder.

(* ================================================================= *)
(** ** Background remover: the dynamic threshold *)

Definition np_mean (mask : list Q) : Q :=
  (foldr Qplus 0 mask / inject_Z (Z.of_nat (length mask)))%Q.

Definition np_max (mask : list Q) : result Q :=
  match mask with
  | [] => Raise ValueError
  | v :: mask' => Ok (foldl Qmax v mask')
  end.

Definition calculate_dynamic_threshold (mask : list Q) : result Q :=
  let mean_value := np_mean mask in
  max_value ← np_max mask;
  let calculated_threshold :=
    Qmax (1 # 100) (Qmin (mean_value * (1 # 2)) (max_value * (1 # 2))) in
  let adjusted_threshold :=
    (Qmax (1 # 100) (calculated_threshold * (9 # 10) - (1 # 100)) / 42)%Q in
  Ok adjusted_threshold.

(* ================================================================= *)
(** ** Vocabulary of the statements *)

(** The point a colour is compared at: LAB coordinates when [use_lab] is
    on, the RGB bytes otherwise. *)
Definition metric_point `{External} (use_lab : bool) (c : rgb) : rgb :=
  if use_lab then cvtColor_RGB2LAB c else c.

(** Squared distances from a pixel to the palette entries, in palette
    order. *)
Definition distances `{External} (use_lab : bool) (key : color_key) (p : rgb)
  : list Z :=
  (fun c => dist_sq (metric_point use_lab c) (metric_point use_lab p))
    <$> color_values_rgb key.

(** [i] is the first position of the least value of [l]. *)
Definition first_min (l : list Z) (i : nat) : Prop :=
  exists d, l !! i = Some d
    /\ (forall j d', l !! j = Some d' -> d <= d')
    /\ (forall j d', (j < i)%nat -> l !! j = Some d' -> d < d').

(** The position [np.argmin] picks among the distances ([0] stands for
    the exception on an empty palette). *)
Definition closest_index `{External} (use_lab : bool) (key : color_key)
    (p : rgb) : nat :=
  match argmin (distances use_lab key p) with
  | Ok i => i
  | Raise _ => 0%nat
  end.

(** [n] is the number of the nearest palette entry, the first one winning
    ties, and [i] is its position. *)
Definition nearest_entry `{External} (use_lab : bool) (key : color_key)
    (p : rgb) (i : nat) (n : Z) : Prop :=
  color_nums key !! i = Some n /\ first_min (distances use_lab key p) i.

(** Coordinates in the order of the static encoder: rows from the last
    to the first, each row from left to right. *)
Definition bottom_up_coords (w h : nat) : list (nat * nat) :=
  y ← reverse (range h); (fun x => (x, y)) <$> range w.

(** Coordinates in raster order. *)
Definition raster_coords (w h : nat) : list (nat * nat) :=
  y ← range h; (fun x => (x, y)) <$> range w.

Definition kept (img : image) (xy : nat * nat) : bool :=
  191 <? pA (getpixel img xy.1 xy.2).

(** The number the scalar matcher returns for a pixel ([-1] stands for
    an exception). *)
Definition matched_number `{External} (use_lab : bool) (key : color_key)
    (p : pixel) : Z :=
  match find_closest_color use_lab (pixel_rgb p) key with
  | Ok n => n
  | Raise _ => -1
  end.

(** The value the animation encoder compares: the colour number of a kept
    pixel, [-1] for any other. *)
Definition frame_color `{External} (use_lab : bool) (key : color_key)
    (frame : image) (xy : nat * nat) : Z :=
  let p := getpixel frame xy.1 xy.2 in
  if pA p <=? 191 then -1 else matched_number use_lab key p.

(** A delta block [d] between two frames: no coordinate twice, and a
    triple for exactly the coordinates whose value differs, carrying the
    value of the later frame. *)
Definition delta_between `{External} (use_lab : bool) (key : color_key)
    (w h : nat) (prev cur : image) (d : list (nat * nat * Z)) : Prop :=
  NoDup (fst <$> d)
  /\ forall x y c,
       (x, y, c) ∈ d <->
       (x < w)%nat /\ (y < h)%nat
       /\ c = frame_color use_lab key cur (x, y)
       /\ frame_color use_lab key cur (x, y)
          ≠ frame_color use_lab key prev (x, y).

(** A pixel map that stands for a frame of size [w] x [h]: it yields the
    value of the frame at every coordinate and has no entry outside the
    frame. *)
Definition holds_frame `{External} (use_lab : bool) (key : color_key)
    (w h : nat) (frame : image) (m : pixel_map) : Prop :=
  (forall xy, get_color m xy = frame_color use_lab key frame xy)
  /\ (forall x y, is_Some (m !! (x, y)) -> (x < w)%nat /\ (y < h)%nat).

(** A pixel map with an entry for every coordinate of the frame. *)
Definition covers (w h : nat) (m : pixel_map) : Prop :=
  forall x y, (x < w)%nat -> (y < h)%nat -> is_Some (m !! (x, y)).

(** A frame of the size the encoder works with. *)
Definition frame_of_size (w h : nat) (frame : image) : Prop :=
  rectangular frame /\ width frame = w /\ height frame = h.

(** The delay written in a frame header: that of the frame when the
    delays differ, none when they are uniform. *)
Definition delay_field (uniform_delay : Z) (delays : list Z) (i : nat)
  : option Z :=
  if uniform_delay =? -1 then delays !! i else None.

(** A header line followed by one line per triple. *)
Definition block_lines (header : string) (d : list (nat * nat * Z))
  : list string :=
  header :: ((fun '(x, y, c) => point_line x y c) <$> d).

(** Modelled from the spec: the consumer's replay of a delta block on its
    current pixel map (the game runtime that reads [frames.txt] is not
    among the sources): every triple overwrites the value at its
    coordinate. *)
Definition replay (m : pixel_map) (d : list (nat * nat * Z)) : pixel_map :=
  foldl (fun m '(x, y, c) => <[(x, y) := c]> m) m d.

(** A pixel after a clearing loop with condition [c]. *)
Definition clear_if (c : pixel -> bool) (p : pixel) : pixel :=
  if c p then transparent_black else p.


(** The claimed threshold formula of the background remover. *)
Definition claimed_threshold (mean_value max_value : Q) : Q :=
  (Qmax (1 # 100) (Qmin (mean_value * (1 # 2)) (max_value * (1 # 2)))
   * (9 # 10) / 42)%Q.

(** What dithering may change of an image: the alpha value of every pixel
    is kept, and a pixel whose alpha is 0 is kept whole. *)
Definition frozen_kept (img out : image) : Prop :=
  forall x y,
    pA (getpixel out x y) = pA (getpixel img x y)
    /\ (pA (getpixel img x y) = 0 -> getpixel out x y = getpixel img x y).

(** Two generator states that are going to produce the same deviates. *)
Definition same_stream (g1 g2 : rng) : Prop :=
  forall i, draws g1 (position g1 + i) = draws g2 (position g2 + i).

(** Two runs that end alike: results related by [R], or the same
    exception. *)
Definition result_rel {A} (R : A -> A -> Prop) (r1 r2 : result A) : Prop :=
  match r1, r2 with
  | Ok a1, Ok a2 => R a1 a2
  | Raise e1, Raise e2 => e1 = e2
  | _, _ => False
  end.

(** The names under which the dithering functions are registered. *)
Definition dithering_methods : list string :=
  [ "Hybrid Dither"; "Pattern Dither"; "Atkinson Dither"; "Stucki Dither";
    "Floyd Dither"; "Jarvis Dither"; "Sierra Dither"; "Random Dither" ].

(* ================================================================= *)
(** ** Concrete inputs *)

(** Set iteration in the order of [elements]. *)
Definition elements_order : set_order :=
  {| iterate := elements;
     iterate_NoDup := NoDup_elements;
     iterate_elem_of := fun s xy => elem_of_elements s xy |}.

(** External functions for runs in RGB mode without background removal,
    resizing or preprocessing, where none of them is called. *)
Definition rgb_only : External :=
  {| cvtColor_RGB2LAB := fun c => c;
     cvtColor_LAB2RGB := fun c => c;
     saliency_array := fun _ _ _ => 0%Q;
     simple_k_means_palette_mapping := fun _ img _ _ => Ok img;
     remove_background := fun img => img;
     resize_image := fun img _ => Ok img;
     preprocess_passes := fun _ rgb_image _ _ => rgb_image |}.

Definition entry (n : Z) (h : string) : PaletteEntry :=
  {| number := n; hex := h; boost := None; threshold := None |}.

Definition white_black : color_key := [(0, (255, 255, 255)); (1, (0, 0, 0))].

Definition opaque_white : pixel := Pixel 255 255 255 255.
Definition opaque_black : pixel := Pixel 0 0 0 255.

(** A generator whose deviates are all [v]. *)
Definition constant_rng (v : Q) : rng := {| draws := fun _ => v; position := 0 |}.

(* ================================================================= *)
(** ** Vocabulary of the further properties *)

(** A colour code of six hexadecimal digits. *)
Definition six_hex_digits (s : string) : Prop :=
  String.length s = 6%nat
  /\ Forall (fun c => is_Some (hex_digit c)) (list_ascii_of_string s).

(** A colour whose channels are bytes. *)
Definition byte_rgb (c : rgb) : Prop :=
  let '(r, g, b) := c in is_byte r /\ is_byte g /\ is_byte b.

(** The values of a list without repetition, each at the place of its
    first occurrence. *)
Definition first_occurrences (l : list Z) : list Z :=
  reverse (remove_dups (reverse l)).

(** The palette colour the batched matcher writes for a colour. *)
Definition nearest_color `{External} (use_lab : bool) (key : color_key)
    (c : rgb) : rgb :=
  default (0, 0, 0) (color_values_rgb key !! closest_index use_lab key c).

(** A pixel after ['Color Match']. *)
Definition match_pixel `{External} (use_lab : bool) (key : color_key)
    (p : pixel) : pixel :=
  if 191 <? pA p then with_rgb (nearest_color use_lab key (pixel_rgb p)) p
  else p.

(** A diffusion matrix that only reaches pixels that come later in
    raster order: below, or to the right in the same row. *)
Definition forward_kernel (k : kernel) : Prop :=
  Forall (fun '(dx, dy, _) => 0 < dy \/ (dy = 0 /\ 0 < dx)) k.

(** [(x', y')] comes before [(x, y)] in raster order. *)
Definition raster_before (x y x' y' : nat) : Prop :=
  (y' < y)%nat \/ (y' = y /\ (x' < x)%nat).

(** Every pixel of the mask that the raster scan passed before it reached
    [(x, y)] holds a colour of [palette]. *)
Definition quantized_before (palette : list rgb) (mask : nat -> nat -> bool)
    (w : nat) (x y : nat) (t : image) : Prop :=
  forall x' y', (x' < w)%nat -> raster_before x y x' y' ->
    mask y' x' = true -> pixel_rgb (getpixel t x' y') ∈ palette.

(* ================================================================= *)
(** ** Reading the stamp text back *)

(** Modelled from the spec: the wire format is plain text, one record per
    line, comma-separated, with numeric fields of one decimal place; the
    reader of the stamp (the game runtime) is not among the sources.
    [split_on] is [line.split(sep)] for a one-character separator. *)
Fixpoint split_on (sep : ascii) (s : string) : list string :=
  match s with
  | EmptyString => [EmptyString]
  | String c s' =>
      if Ascii.eqb c sep then EmptyString :: split_on sep s'
      else match split_on sep s' with
           | field :: fields => String c field :: fields
           | [] => [String c EmptyString]
           end
  end.

(** Modelled from the spec: the number an unsigned decimal numeral stands
    for (a sign or any other character makes it unreadable). *)
Definition read_nat (s : string) : option Z :=
  Z.of_uint <$> NilZero.uint_of_string s.

(** Modelled from the spec: the number a decimal numeral with an optional
    minus sign stands for. *)
Definition read_int (s : string) : option Z :=
  Z.of_int <$> NilZero.int_of_string s.

(** Modelled from the spec: the number a numeral [i.d] with exactly one
    digit after the point stands for, [i + d / 10], as the fraction
    [(10 * i + d) / 10]. *)
Definition read_tenths (s : string) : option Q :=
  match split_on "." s with
  | [i; d] =>
      if (String.length d =? 1)%nat then
        a ← read_nat i; b ← read_nat d; Some (Qmake (10 * a + b) 10)
      else None
  | _ => None
  end.

(** Modelled from the spec: the fields of the header line of a static
    stamp, [width*0.1,height*0.1,kind]. *)
Definition read_header (line : string) : option (Q * Q * string) :=
  match split_on "," line with
  | [w; h; kind] => w' ← read_tenths w; h' ← read_tenths h; Some (w', h', kind)
  | _ => None
  end.

(** Modelled from the spec: the fields of a point line,
    [x*0.1,y*0.1,color_number]. *)
Definition read_point (line : string) : option (Q * Q * Z) :=
  match split_on "," line with
  | [x; y; n] =>
      x' ← read_tenths x; y' ← read_tenths y; n' ← read_int n;
      Some (x', y', n')
  | _ => None
  end.

(** [n * 0.1] as a fraction. *)
Definition tenths (n : nat) : Q := Qmake (Z.of_nat n) 10.

(* ================================================================= *)
(** * Properties *)

(** ** Loops and exceptions *)

Lemma bind_Ok {A B} (m : result A) (f : A -> result B) (b : B) :
  m ≫= f = Ok b <-> exists a, m = Ok a /\ f a = Ok b.
Proof.
  destruct m as [a|e]; simpl; split.
  - intros Hf. exists a. done.
  - intros (a' & [= <-] & Hf). done.
  - intros [=].
  - intros (a' & [=] & _).
Qed.

Lemma for_each_app {A S} (l1 l2 : list A) (body : A -> S -> result S) (s : S) :
  for_each (l1 ++ l2) body s = for_each l1 body s ≫= for_each l2 body.
Proof.
  revert s. induction l1 as [|a l1 IH]; intros s; simpl; [done|].
  destruct (body a s) as [s'|e]; simpl; [apply IH|done].
Qed.

(** A property kept by every iteration is kept by the loop. *)
Lemma for_each_invariant {A S} (I : S -> Prop) (l : list A)
    (body : A -> S -> result S) (s s' : S) :
  I s ->
  (forall a t t', a ∈ l -> I t -> body a t = Ok t' -> I t') ->
  for_each l body s = Ok s' -> I s'.
Proof.
  revert s. induction l as [|a l IH]; intros s Hs Hbody; simpl.
  - intros [= <-]. done.
  - intros (t & Ht & Hrest)%bind_Ok.
    apply (IH t); [|intros; eapply Hbody; [right|..]; eauto|done].
    eapply Hbody; [left|..]; eauto.
Qed.

(** A loop whose iterations all succeed under an invariant succeeds. *)
Lemma for_each_total {A S} (I : S -> Prop) (l : list A)
    (body : A -> S -> result S) (s : S) :
  I s ->
  (forall a t, a ∈ l -> I t -> exists t', body a t = Ok t' /\ I t') ->
  exists s', for_each l body s = Ok s' /\ I s'.
Proof.
  revert s. induction l as [|a l IH]; intros s Hs Hbody; simpl.
  - eauto.
  - destruct (Hbody a s) as (t & -> & Ht); [left|done|]. simpl.
    apply IH; [done|]. intros; apply Hbody; [right|]; done.
Qed.

Lemma mapR_Ok {A B} (f : A -> result B) (g : A -> B) (l : list A) :
  (forall a, a ∈ l -> f a = Ok (g a)) -> mapR f l = Ok (g <$> l).
Proof.
  induction l as [|a l IH]; intros Hf; simpl; [done|].
  rewrite Hf by left. simpl. rewrite IH; [done|].
  intros; apply Hf; right; done.
Qed.

Lemma elem_of_range (n i : nat) : i ∈ range n <-> (i < n)%nat.
Proof. unfold range. rewrite elem_of_seq. lia. Qed.

Lemma foldl_snoc_app {A B} (g : B -> A) (acc : list A) (l : list B) :
  foldl (fun f b => f ++ [g b]) acc l = acc ++ (g <$> l).
Proof.
  revert acc. induction l as [|b l IH]; intros acc; simpl.
  - by rewrite app_nil_r.
  - rewrite IH, <- app_assoc. done.
Qed.

(** ** Pixel buffers *)

Lemma height_putpixel (img : image) x y p : height (putpixel img x y p) = height img.
Proof. unfold height, putpixel. by rewrite length_alter. Qed.

Lemma width_putpixel (img : image) x y p : width (putpixel img x y p) = width img.
Proof.
  unfold width, putpixel. destruct img as [|row img]; [done|].
  destruct y; simpl; [by rewrite length_insert|done].
Qed.

Lemma lookup_putpixel (img : image) x y p y' x' :
  putpixel img x y p !! y' ≫= (.!! x') =
  if decide (y = y' /\ x = x' /\ is_Some (img !! y ≫= (.!! x))) then Some p
  else img !! y' ≫= (.!! x').
Proof.
  unfold putpixel. rewrite list_lookup_alter.
  destruct (decide (y = y')) as [<-|Hy].
  - destruct (img !! y) as [row|] eqn:Hrow; simpl.
    + destruct (decide (x = x')) as [<-|Hx].
      * destruct (row !! x) as [q|] eqn:Hq.
        -- rewrite list_lookup_insert_eq by (by eapply lookup_lt_Some).
           rewrite decide_True; [done|]. repeat split; eauto.
        -- rewrite list_insert_ge by (by apply lookup_ge_None).
           rewrite Hq. rewrite decide_False; [done|].
           intros (_ & _ & [? [=]]).
      * rewrite list_lookup_insert_ne by done.
        rewrite decide_False; [done|]. intros (_ & ? & _); done.
    + rewrite decide_False; [done|]. intros (_ & _ & [? [=]]).
  - rewrite decide_False; [done|]. intros (? & _); done.
Qed.

Lemma getpixel_putpixel_ne (img : image) x y p x' y' :
  (x, y) ≠ (x', y') -> getpixel (putpixel img x y p) x' y' = getpixel img x' y'.
Proof.
  intros Hne. unfold getpixel. rewrite lookup_putpixel.
  rewrite decide_False; [done|]. intros (-> & -> & _). done.
Qed.

Lemma getpixel_putpixel_same (img : image) x y p :
  pA p = pA (getpixel img x y) -> pA (getpixel (putpixel img x y p) x y) = pA (getpixel img x y).
Proof.
  intros Hp. unfold getpixel in *. rewrite lookup_putpixel.
  case_decide as Hd; [done|done].
Qed.

Lemma rectangular_lookup (img : image) x y :
  rectangular img -> (x < width img)%nat -> (y < height img)%nat ->
  is_Some (img !! y ≫= (.!! x)).
Proof.
  intros Hrect Hx Hy. unfold height in Hy.
  destruct (lookup_lt_is_Some_2 img y Hy) as [row Hrow]. rewrite Hrow. simpl.
  apply lookup_lt_is_Some_2.
  unfold rectangular in Hrect. rewrite Forall_lookup in Hrect.
  rewrite (Hrect _ _ Hrow). done.
Qed.

Lemma getpixel_putpixel_eq (img : image) x y p :
  rectangular img -> (x < width img)%nat -> (y < height img)%nat ->
  getpixel (putpixel img x y p) x y = p.
Proof.
  intros Hrect Hx Hy. unfold getpixel. rewrite lookup_putpixel.
  rewrite decide_True; [done|]. repeat split. by apply rectangular_lookup.
Qed.

Lemma rectangular_putpixel (img : image) x y p :
  rectangular img -> rectangular (putpixel img x y p).
Proof.
  unfold rectangular. rewrite width_putpixel. unfold putpixel.
  rewrite !Forall_lookup. intros Hrect i row.
  rewrite list_lookup_alter. case_decide as Hi.
  - subst i. destruct (img !! y) as [r|] eqn:Hr; simpl; [|done].
    intros [= <-]. rewrite length_insert. eauto.
  - eauto.
Qed.

Lemma byte_image_lookup (img : image) x y p :
  byte_image img -> img !! y ≫= (.!! x) = Some p -> byte_pixel p.
Proof.
  unfold byte_image. rewrite Forall_lookup. intros Hb Hp.
  destruct (img !! y) as [row|] eqn:Hrow; simpl in Hp; [|done].
  specialize (Hb _ _ Hrow). rewrite Forall_lookup in Hb. eauto.
Qed.

Lemma byte_getpixel (img : image) x y : byte_image img -> byte_pixel (getpixel img x y).
Proof.
  intros Hb. unfold getpixel.
  destruct (img !! y ≫= (.!! x)) as [p|] eqn:Hp; simpl.
  - by eapply byte_image_lookup.
  - unfold byte_pixel, is_byte, transparent_black; simpl. lia.
Qed.

Lemma to_uint8_byte v : is_byte v -> to_uint8 v = v.
Proof. unfold is_byte, to_uint8. intros. apply Z.mod_small. lia. Qed.

Lemma rgb_to_uint8_byte (p : pixel) : byte_pixel p -> rgb_to_uint8 (pixel_rgb p) = pixel_rgb p.
Proof.
  intros (Hr & Hg & Hb & _). unfold pixel_rgb, rgb_to_uint8.
  by rewrite !to_uint8_byte.
Qed.

Lemma to_uint8_idemp v : to_uint8 (to_uint8 v) = to_uint8 v.
Proof. unfold to_uint8. apply Z.mod_mod. done. Qed.

Lemma rgb_to_uint8_idemp c : rgb_to_uint8 (rgb_to_uint8 c) = rgb_to_uint8 c.
Proof. destruct c as [[r g] b]. unfold rgb_to_uint8. by rewrite !to_uint8_idemp. Qed.

(** ** Nearest colour *)

Lemma dist_sq_sym (a b : rgb) : dist_sq a b = dist_sq b a.
Proof. destruct a as [[a0 a1] a2], b as [[b0 b1] b2]. unfold dist_sq. lia. Qed.

Lemma argmin_from_first_min (l pre : list Z) (best_i : nat) (best : Z) :
  pre !! best_i = Some best ->
  (forall j d', pre !! j = Some d' -> best <= d') ->
  (forall j d', (j < best_i)%nat -> pre !! j = Some d' -> best < d') ->
  first_min (pre ++ l) (argmin_from l (length pre) best_i best).
Proof.
  revert pre best_i best.
  induction l as [|d l IH]; intros pre best_i best Hbest Hle Hlt; simpl.
  - rewrite app_nil_r. exists best. done.
  - replace (pre ++ d :: l) with ((pre ++ [d]) ++ l) by (by rewrite <- app_assoc).
    replace (S (length pre)) with (length (pre ++ [d]))
      by (rewrite length_app; simpl; lia).
    destruct (d <? best) eqn:Hd.
    + apply Z.ltb_lt in Hd. apply IH.
      * by rewrite lookup_app_r, Nat.sub_diag.
      * intros j d' Hj. apply lookup_app_Some in Hj as [Hj|[_ Hj]].
        -- specialize (Hle _ _ Hj). lia.
        -- apply list_lookup_singleton_Some in Hj as [_ <-]. lia.
      * intros j d' Hlen Hj. rewrite lookup_app_l in Hj by done.
        specialize (Hle _ _ Hj). lia.
    + apply Z.ltb_ge in Hd. apply IH.
      * apply lookup_app_l_Some. done.
      * intros j d' Hj. apply lookup_app_Some in Hj as [Hj|[_ Hj]].
        -- eauto.
        -- apply list_lookup_singleton_Some in Hj as [_ <-]. lia.
      * intros j d' Hlen Hj.
        assert (best_i < length pre)%nat by (by eapply lookup_lt_Some).
        rewrite lookup_app_l in Hj by lia. eauto.
Qed.

Lemma argmin_first_min (l : list Z) :
  l ≠ [] -> exists i, argmin l = Ok i /\ first_min l i.
Proof.
  destruct l as [|d l]; [done|]. intros _. simpl. eexists. split; [done|].
  apply (argmin_from_first_min l [d] 0 d).
  - done.
  - intros [|j] d'; simpl; [intros [= <-]; lia|done].
  - intros; lia.
Qed.

Section NearestColour.
Context `{External}.

Lemma distances_nonempty use_lab (key : color_key) p :
  key ≠ [] -> distances use_lab key p ≠ [].
Proof.
  destruct key as [|[k c] key]; [done|]. intros _.
  unfold distances, color_values_rgb. simpl. done.
Qed.

Lemma length_distances use_lab (key : color_key) p :
  length (distances use_lab key p) = length key.
Proof. unfold distances, color_values_rgb. by rewrite !length_fmap. Qed.

Lemma closest_index_spec use_lab (key : color_key) p :
  key ≠ [] ->
  argmin (distances use_lab key p) = Ok (closest_index use_lab key p)
  /\ first_min (distances use_lab key p) (closest_index use_lab key p).
Proof.
  intros Hkey. unfold closest_index.
  destruct (argmin_first_min (distances use_lab key p)) as (i & -> & Hi).
  - by apply distances_nonempty.
  - done.
Qed.

Lemma closest_index_lt use_lab (key : color_key) p :
  key ≠ [] -> (closest_index use_lab key p < length key)%nat.
Proof.
  intros Hkey. destruct (closest_index_spec use_lab key p Hkey) as (_ & d & Hd & _).
  apply lookup_lt_Some in Hd. by rewrite length_distances in Hd.
Qed.

Lemma color_values_rgb_nonempty (key : color_key) :
  key ≠ [] -> color_values_rgb key ≠ [].
Proof. destruct key as [|[k c] key]; done. Qed.

Lemma rgb_palette_to_lab_Ok (key : color_key) :
  key ≠ [] ->
  rgb_palette_to_lab key = Ok (cvtColor_RGB2LAB <$> color_values_rgb key).
Proof.
  intros Hkey%color_values_rgb_nonempty. unfold rgb_palette_to_lab.
  destruct (color_values_rgb key); done.
Qed.

(** The scalar matcher returns the number at the position of the first
    least distance. *)
Lemma find_closest_color_index use_lab p (key : color_key) :
  key ≠ [] ->
  find_closest_color use_lab p key =
  index (color_nums key) (closest_index use_lab key (rgb_to_uint8 p)).
Proof.
  intros Hkey. unfold find_closest_color.
  destruct (closest_index_spec use_lab key (rgb_to_uint8 p) Hkey) as [Harg _].
  destruct use_lab.
  - rewrite rgb_palette_to_lab_Ok by done. simpl.
    unfold rgb_to_lab_single. rewrite rgb_to_uint8_idemp.
    unfold distances, metric_point in Harg.
    rewrite <- list_fmap_compose. unfold compose.
    rewrite Harg. done.
  - unfold distances, metric_point in Harg. rewrite Harg. done.
Qed.

Lemma find_closest_color_nearest use_lab p (key : color_key) :
  key ≠ [] ->
  exists n,
    find_closest_color use_lab p key = Ok n
    /\ nearest_entry use_lab key (rgb_to_uint8 p)
         (closest_index use_lab key (rgb_to_uint8 p)) n.
Proof.
  intros Hkey. rewrite find_closest_color_index by done.
  pose proof (closest_index_lt use_lab key (rgb_to_uint8 p) Hkey) as Hlt.
  destruct (lookup_lt_is_Some_2 (color_nums key)
              (closest_index use_lab key (rgb_to_uint8 p))) as [n Hn].
  { unfold color_nums. by rewrite length_fmap. }
  exists n. unfold index. rewrite Hn. split; [done|]. split; [done|].
  by apply closest_index_spec.
Qed.

End NearestColour.

(** ** The batched matcher *)

Lemma mapR_fmap {A B C} (f : B -> result C) (g : A -> B) (l : list A) :
  mapR f (g <$> l) = mapR (fun a => f (g a)) l.
Proof. induction l as [|a l IH]; csimpl; [done|]. by rewrite IH. Qed.

Lemma reshape_concat {A} (rows : list (list A)) (w : nat) :
  Forall (fun row => length row = w) rows ->
  reshape (length rows) w (concat rows) = rows.
Proof.
  induction rows as [|row rows IH]; intros Hrows; simpl; [done|].
  apply Forall_cons in Hrows as [Hrow Hrows].
  rewrite take_app_length' by done. rewrite drop_app_length' by done.
  by rewrite IH.
Qed.

Lemma concat_fmap_fmap {A B} (f : A -> B) (rows : list (list A)) :
  f <$> concat rows = concat (map f <$> rows).
Proof.
  induction rows as [|row rows IH]; simpl; [done|].
  rewrite fmap_app, IH. done.
Qed.

Lemma width_fmap_rows {A} (f : pixel -> A) (img : image) :
  match map f <$> img with [] => 0%nat | row :: _ => length row end = width img.
Proof. destruct img as [|row img]; simpl; [done|]. by rewrite length_map. Qed.

Section Batched.
Context `{External}.

Lemma batched_indices_rgb (key : color_key) (flat : list rgb) :
  key ≠ [] ->
  mapR (fun p => argmin (dist_sq p <$> color_values_rgb key)) flat
  = Ok (closest_index false key <$> flat).
Proof.
  intros Hkey. apply mapR_Ok. intros p _.
  destruct (closest_index_spec false key p Hkey) as [<- _].
  f_equal. unfold distances, metric_point.
  apply list_fmap_ext. intros ? c' _. simpl. apply dist_sq_sym.
Qed.

Lemma batched_indices_lab (key : color_key) (flat : list rgb) :
  key ≠ [] ->
  mapR (fun p => argmin (dist_sq p <$> (cvtColor_RGB2LAB <$> color_values_rgb key)))
    (cvtColor_RGB2LAB <$> flat)
  = Ok (closest_index true key <$> flat).
Proof.
  intros Hkey. rewrite mapR_fmap. apply mapR_Ok. intros p _.
  destruct (closest_index_spec true key p Hkey) as [<- _].
  f_equal. unfold distances, metric_point. rewrite <- list_fmap_compose.
  apply list_fmap_ext. intros ? c' _. simpl. apply dist_sq_sym.
Qed.

Lemma batched_tail use_lab (img : image) (key : color_key) :
  key ≠ [] -> rectangular img ->
  mapR (index (color_values_rgb key))
    (closest_index use_lab key <$> concat (map pixel_rgb <$> img))
  ≫= (fun mapped_flat =>
        Ok (dstack (reshape (height img) (width img) mapped_flat)
              (map pA <$> img)))
  = Ok (map (fun p =>
            with_rgb (default (0, 0, 0)
                        (color_values_rgb key
                           !! closest_index use_lab key (pixel_rgb p)))
                     (Pixel 0 0 0 (pA p))) <$> img).
Proof.
  intros Hkey Hrect.
  set (values := color_values_rgb key).
  rewrite mapR_fmap.
  rewrite (mapR_Ok _ (fun p => default (0, 0, 0)
                       (values !! closest_index use_lab key p))).
  2:{ intros p _. unfold index.
      destruct (lookup_lt_is_Some_2 values (closest_index use_lab key p)) as [c Hc].
      { subst values. unfold color_values_rgb. rewrite !length_fmap.
        by apply closest_index_lt. }
      unfold rgb in *. rewrite Hc. done. }
  simpl. f_equal.
  rewrite concat_fmap_fmap. unfold height.
  replace (length img) with (length (map (fun p : rgb => default (0, 0, 0)
      (values !! closest_index use_lab key p)) <$> (map pixel_rgb <$> img)))
    by (by rewrite !length_fmap).
  rewrite reshape_concat.
  2:{ rewrite Forall_fmap, Forall_fmap. eapply Forall_impl; [exact Hrect|].
      intros row Hrow. simpl. by rewrite !length_map. }
  unfold dstack. rewrite <- list_fmap_compose.
  rewrite zip_with_fmap_l, zip_with_fmap_r, zip_with_diag.
  apply list_fmap_ext. intros i row _. simpl.
  rewrite map_map.
  change (map ?f ?l) with (f <$> l).
  rewrite zip_with_fmap_l, zip_with_fmap_r, zip_with_diag.
  done.
Qed.

(** The pixel the batched matcher produces from a pixel of its input. *)
Lemma find_closest_colors_image_Ok use_lab (img : image) (key : color_key) :
  key ≠ [] -> rectangular img -> (0 < width img)%nat ->
  find_closest_colors_image use_lab img key =
  Ok (map (fun p =>
            with_rgb (default (0, 0, 0)
                        (color_values_rgb key
                           !! closest_index use_lab key (pixel_rgb p)))
                     (Pixel 0 0 0 (pA p))) <$> img).
Proof.
  intros Hkey Hrect Hw. unfold find_closest_colors_image.
  rewrite <- (batched_tail use_lab img key Hkey Hrect).
  destruct use_lab.
  - destruct (concat (map pixel_rgb <$> img)) as [|c flat'] eqn:Hfl.
    { destruct img as [|[|p row] img]; simpl in *; [lia|lia|done]. }
    rewrite rgb_palette_to_lab_Ok by done.
    cbn [mbind result_bind].
    rewrite batched_indices_lab by done. done.
  - pose proof (color_values_rgb_nonempty key Hkey) as Hv.
    destruct (color_values_rgb key) as [|v values'] eqn:Hvals; [done|].
    rewrite <- Hvals.
    rewrite batched_indices_rgb by done. done.
Qed.

End Batched.

Section BatchedEqualsScalar.
Context `{External}.

Lemma getpixel_fmap (f : pixel -> pixel) (img : image) x y p :
  img !! y ≫= (.!! x) = Some p ->
  getpixel (map f <$> img) x y = f p.
Proof.
  intros Hp. unfold getpixel. rewrite list_lookup_fmap.
  destruct (img !! y) as [row|]; simpl in *; [|done].
  change (map f row) with (f <$> row). rewrite list_lookup_fmap, Hp. done.
Qed.

Lemma getpixel_lookup (img : image) x y p :
  img !! y ≫= (.!! x) = Some p -> getpixel img x y = p.
Proof. intros Hp. unfold getpixel. by rewrite Hp. Qed.

(** C2. For a decoded image and a non-empty palette, in RGB and in LAB
    mode, the batched matcher succeeds, keeps the size and, at every
    coordinate, writes the RGB value of the palette entry whose number
    the scalar matcher returns for that pixel: the entry at the first
    position of the least squared distance. The alpha value is kept. *)
Theorem batched_equals_scalar (use_lab : bool) (img : image) (key : color_key) :
  key ≠ [] -> rectangular img -> byte_image img -> (0 < width img)%nat ->
  exists out,
    find_closest_colors_image use_lab img key = Ok out
    /\ height out = height img /\ width out = width img
    /\ forall x y, (x < width img)%nat -> (y < height img)%nat ->
         exists i n,
           find_closest_color use_lab (pixel_rgb (getpixel img x y)) key = Ok n
           /\ nearest_entry use_lab key (pixel_rgb (getpixel img x y)) i n
           /\ color_values_rgb key !! i = Some (pixel_rgb (getpixel out x y))
           /\ pA (getpixel out x y) = pA (getpixel img x y).
Proof.
  intros Hkey Hrect Hbyte Hw.
  eexists. split; [by apply find_closest_colors_image_Ok|].
  split; [unfold height; by rewrite length_fmap|].
  split; [destruct img as [|row img]; simpl; [done|by rewrite length_map]|].
  intros x y Hx Hy.
  destruct (rectangular_lookup img x y Hrect Hx Hy) as [p Hp].
  rewrite (getpixel_fmap _ img x y p Hp), (getpixel_lookup img x y p Hp).
  pose proof (byte_image_lookup img x y p Hbyte Hp) as Hbp.
  destruct (find_closest_color_nearest use_lab (pixel_rgb p) key Hkey)
    as (n & Hn & Hnear).
  rewrite rgb_to_uint8_byte in Hnear by done.
  exists (closest_index use_lab key (pixel_rgb p)), n.
  split; [done|]. split; [done|].
  destruct (lookup_lt_is_Some_2 (color_values_rgb key)
              (closest_index use_lab key (pixel_rgb p))) as [c Hc].
  { unfold color_values_rgb. rewrite !length_fmap. by apply closest_index_lt. }
  unfold rgb in *. rewrite Hc. simpl. destruct c as [[r g] b]. done.
Qed.

End BatchedEqualsScalar.

Lemma batched_equals_scalar_witness :
  exists out,
    @find_closest_colors_image rgb_only false
      [[opaque_white; opaque_black]] white_black = Ok out
    /\ height out = 1%nat /\ width out = 2%nat
    /\ forall x y, (x < 2)%nat -> (y < 1)%nat ->
         exists i n,
           @find_closest_color rgb_only false
             (pixel_rgb (getpixel [[opaque_white; opaque_black]] x y))
             white_black = Ok n
           /\ @nearest_entry rgb_only false white_black
                (pixel_rgb (getpixel [[opaque_white; opaque_black]] x y)) i n
           /\ color_values_rgb white_black !! i
              = Some (pixel_rgb (getpixel out x y))
           /\ pA (getpixel out x y)
              = pA (getpixel [[opaque_white; opaque_black]] x y).
Proof.
  apply (@batched_equals_scalar rgb_only false
           [[opaque_white; opaque_black]] white_black).
  - done.
  - repeat constructor.
  - repeat constructor; simpl; lia.
  - simpl. lia.
Defined.

(** ** Static encoder *)

Lemma foldl_ext {A B} (f g : A -> B -> A) (l : list B) (a : A) :
  (forall a b, f a b = g a b) -> foldl f a l = foldl g a l.
Proof.
  intros Hfg. revert a. induction l as [|b l IH]; intros a; simpl; [done|].
  by rewrite Hfg, IH.
Qed.

Lemma foldl_app_bind {A B} (g : B -> list A) (acc : list A) (l : list B) :
  foldl (fun f b => f ++ g b) acc l = acc ++ (l ≫= g).
Proof.
  revert acc. induction l as [|b l IH]; intros acc; csimpl.
  - by rewrite app_nil_r.
  - rewrite IH, <- app_assoc. done.
Qed.

Lemma bind_filter_fmap {A B} (P : A -> bool) (f : A -> B) (l : list A) :
  l ≫= (fun a => if P a then [f a] else []) = f <$> filter (fun a => P a) l.
Proof.
  induction l as [|a l IH]; csimpl; [done|].
  rewrite IH. rewrite filter_cons. destruct (P a) eqn:HP.
  - rewrite decide_True by done. done.
  - rewrite decide_False by (by intros []). done.
Qed.

Lemma bind_rows {A} (P : nat * nat -> bool) (f : nat * nat -> A) (ys xs : list nat) :
  ys ≫= (fun y => xs ≫= (fun x => if P (x, y) then [f (x, y)] else []))
  = f <$> filter (fun xy => P xy) (ys ≫= (fun y => (fun x => (x, y)) <$> xs)).
Proof.
  induction ys as [|y ys IH]; csimpl; [done|].
  rewrite filter_app, fmap_app, <- IH. f_equal.
  rewrite <- bind_filter_fmap.
  clear. induction xs as [|x xs IHx]; csimpl; [done|]. by rewrite IHx.
Qed.

Section StaticStamp.
Context `{External}.

Lemma stamp_pixel_lines use_lab (key : color_key) (img : image) h y x f :
  key ≠ [] ->
  stamp_pixel use_lab key img h y x f =
  f ++ (if kept img (x, y)
        then [point_line x (h - 1 - y) (matched_number use_lab key (getpixel img x y))]
        else []).
Proof.
  intros Hkey. unfold stamp_pixel, kept, matched_number. simpl.
  destruct (pA (getpixel img x y) <=? 191) eqn:Ha.
  - apply Z.leb_le in Ha.
    replace (191 <? pA (getpixel img x y)) with false
      by (symmetry; apply Z.ltb_ge; lia).
    by rewrite app_nil_r.
  - apply Z.leb_gt in Ha.
    replace (191 <? pA (getpixel img x y)) with true
      by (symmetry; apply Z.ltb_lt; lia).
    fold (pixel_rgb (getpixel img x y)).
    destruct (find_closest_color_nearest use_lab
                (pixel_rgb (getpixel img x y)) key Hkey) as (n & -> & _).
    done.
Qed.

Lemma write_stamp_lines use_lab (img : image) (key : color_key) :
  key ≠ [] ->
  write_stamp use_lab img key =
  img_header (width img) (height img)
  :: ((fun xy => point_line xy.1 (height img - 1 - xy.2)
                   (matched_number use_lab key (getpixel img xy.1 xy.2)))
      <$> filter (fun xy => kept img xy)
            (bottom_up_coords (width img) (height img))).
Proof.
  intros Hkey. unfold write_stamp, fold_range_down, fold_range.
  rewrite (foldl_ext _ (fun f y => f ++ (range (width img) ≫= (fun x =>
      if kept img (x, y)
      then [point_line x (height img - 1 - y) (matched_number use_lab key (getpixel img x y))]
      else [])))).
  2:{ intros f y. rewrite <- foldl_app_bind. apply foldl_ext.
      intros f' x. by apply stamp_pixel_lines. }
  rewrite foldl_app_bind. simpl. f_equal.
  apply (bind_rows (kept img)
           (fun xy => point_line xy.1 (height img - 1 - xy.2)
                        (matched_number use_lab key (getpixel img xy.1 xy.2)))).
Qed.

End StaticStamp.

(** ** Transparency filter and crop *)

Lemma foldl_bind {A B S} (f : S -> B -> S) (g : A -> list B) (l : list A) (s : S) :
  foldl f s (l ≫= g) = foldl (fun s a => foldl f s (g a)) s l.
Proof.
  revert s. induction l as [|a l IH]; intros s; csimpl; [done|].
  by rewrite foldl_app, IH.
Qed.

Lemma foldl_fmap {A B S} (f : S -> B -> S) (g : A -> B) (l : list A) (s : S) :
  foldl f s (g <$> l) = foldl (fun s a => f s (g a)) s l.
Proof. revert s. induction l as [|a l IH]; intros s; csimpl; [done|]. by rewrite IH. Qed.

(** Two nested loops over rows and columns visit the coordinates in
    raster order. *)
Lemma fold_range_raster {S} (w h : nat) (body : nat -> nat -> S -> S) (s : S) :
  fold_range h (fun y => fold_range w (fun x => body y x)) s
  = foldl (fun s xy => body xy.2 xy.1 s) s (raster_coords w h).
Proof.
  unfold fold_range, raster_coords. rewrite foldl_bind.
  apply foldl_ext. intros t y. by rewrite foldl_fmap.
Qed.

Lemma elem_of_raster_coords (w h : nat) (x y : nat) :
  (x, y) ∈ raster_coords w h <-> (x < w)%nat /\ (y < h)%nat.
Proof.
  unfold raster_coords. rewrite list_elem_of_bind. split.
  - intros (y' & Hxy & Hy'). apply list_elem_of_fmap in Hxy as (x' & [= -> ->] & Hx').
    by rewrite !elem_of_range in *.
  - intros [Hx Hy]. exists y. rewrite elem_of_range. split; [|done].
    apply list_elem_of_fmap. exists x. by rewrite elem_of_range.
Qed.

Lemma NoDup_raster_coords (w h : nat) : NoDup (raster_coords w h).
Proof.
  unfold raster_coords, range. apply NoDup_bind.
  - intros y1 y2 xy _ _ (x1 & -> & _)%list_elem_of_fmap (x2 & [= _ ->] & _)%list_elem_of_fmap.
    done.
  - intros y _. apply NoDup_fmap_2; [|apply NoDup_seq]. by intros ?? [=].
  - apply NoDup_seq.
Qed.

(** A loop that rewrites each coordinate of a list once, each step touching
    its own coordinate only. *)
Lemma foldl_pointwise (g : pixel -> pixel) (step : nat * nat -> image -> image)
    (coords : list (nat * nat)) (s : image) :
  NoDup coords ->
  (forall xy t x' y',
     step xy t !! y' ≫= (.!! x') =
     if decide (xy = (x', y')) then g <$> (t !! y' ≫= (.!! x'))
     else t !! y' ≫= (.!! x')) ->
  forall x' y',
    foldl (fun t xy => step xy t) s coords !! y' ≫= (.!! x') =
    if decide ((x', y') ∈ coords) then g <$> (s !! y' ≫= (.!! x'))
    else s !! y' ≫= (.!! x').
Proof.
  intros Hnodup Hstep x' y'. revert s.
  induction Hnodup as [|xy coords Hnotin Hnodup IH]; intros s; cbn [foldl].
  - rewrite decide_False; [done|]. by intros ?%elem_of_nil.
  - rewrite IH, Hstep.
    destruct (decide (xy = (x', y'))) as [->|Hne].
    + rewrite decide_False by done. rewrite decide_True by left. done.
    + destruct (decide ((x', y') ∈ coords)).
      * rewrite decide_True by (by right). done.
      * rewrite decide_False; [done|]. by intros [?|?]%elem_of_cons.
Qed.

Lemma lookup_outside (img : image) x y :
  rectangular img -> ¬ ((x < width img)%nat /\ (y < height img)%nat) ->
  img !! y ≫= (.!! x) = None.
Proof.
  intros Hrect Hout. destruct (img !! y) as [row|] eqn:Hrow; simpl; [|done].
  apply lookup_ge_None. pose proof (lookup_lt_Some _ _ _ Hrow) as Hy.
  unfold rectangular in Hrect. rewrite Forall_lookup in Hrect.
  rewrite (Hrect _ _ Hrow). unfold height in Hout. lia.
Qed.

(** The clearing loops of [process_and_save_image] and [save_frames]. *)
Lemma clearing_loop_lookup (c : pixel -> bool) (img : image) x y :
  rectangular img ->
  fold_range (height img) (fun y =>
    fold_range (width img) (fun x pixels =>
      if c (getpixel pixels x y) then putpixel pixels x y transparent_black
      else pixels)) img !! y ≫= (.!! x)
  = clear_if c <$> (img !! y ≫= (.!! x)).
Proof.
  intros Hrect.
  rewrite (fold_range_raster _ _ (fun y x pixels =>
     if c (getpixel pixels x y) then putpixel pixels x y transparent_black
     else pixels)).
  rewrite (foldl_pointwise (clear_if c)
             (fun xy pixels => if c (getpixel pixels xy.1 xy.2)
                               then putpixel pixels xy.1 xy.2 transparent_black
                               else pixels)).
  - case_decide as Hin; [done|].
    rewrite elem_of_raster_coords in Hin.
    by rewrite lookup_outside.
  - apply NoDup_raster_coords.
  - intros [x0 y0] t x' y'. simpl.
    destruct (c (getpixel t x0 y0)) eqn:Hc.
    + rewrite lookup_putpixel.
      destruct (decide ((x0, y0) = (x', y'))) as [[= <- <-]|Hne].
      * unfold getpixel in Hc.
        destruct (t !! y0 ≫= (.!! x0)) as [p|] eqn:Hp; simpl in *.
        -- rewrite decide_True by eauto. unfold clear_if. by rewrite Hc.
        -- rewrite decide_False; [done|]. intros (_ & _ & [? [=]]).
      * rewrite decide_False; [done|]. intros (-> & -> & _). done.
    + destruct (decide ((x0, y0) = (x', y'))) as [[= <- <-]|Hne]; [|done].
      unfold getpixel in Hc.
      destruct (t !! y0 ≫= (.!! x0)) as [p|] eqn:Hp; simpl in *; [|done].
      unfold clear_if. by rewrite Hc.
Qed.

Lemma getpixel_fmap_lookup (g : pixel -> pixel) (a b : image) x y :
  g transparent_black = transparent_black ->
  a !! y ≫= (.!! x) = g <$> (b !! y ≫= (.!! x)) ->
  getpixel a x y = g (getpixel b x y).
Proof.
  intros Hg Hab. unfold getpixel. rewrite Hab.
  destruct (b !! y ≫= (.!! x)); simpl; done.
Qed.

Lemma fold_range_invariant {S} (I : S -> Prop) (n : nat) (body : nat -> S -> S) (s : S) :
  I s -> (forall i t, I t -> I (body i t)) -> I (fold_range n body s).
Proof.
  intros Hs Hbody. unfold fold_range. generalize (range n).
  intros l. revert s Hs. induction l as [|i l IH]; intros s Hs; simpl; [done|].
  apply IH. by apply Hbody.
Qed.

Lemma clearing_loop_shape (c : pixel -> bool) (img : image) :
  rectangular img ->
  let out := fold_range (height img) (fun y =>
    fold_range (width img) (fun x pixels =>
      if c (getpixel pixels x y) then putpixel pixels x y transparent_black
      else pixels)) img in
  rectangular out /\ width out = width img /\ height out = height img.
Proof.
  intros Hrect out. subst out.
  apply (fold_range_invariant (fun t : image =>
           rectangular t /\ width t = width img /\ height t = height img));
    [done|].
  intros y t Ht.
  apply (fold_range_invariant (fun t : image =>
           rectangular t /\ width t = width img /\ height t = height img));
    [done|].
  intros x t' (Hr & Hw & Hh). destruct (c (getpixel t' x y)); [|done].
  rewrite width_putpixel, height_putpixel. split; [|done].
  by apply rectangular_putpixel.
Qed.


Lemma head_filter_range_1 (P : nat -> Prop) `{!forall x, Decision (P x)} (n a : nat) :
  head (filter P (range n)) = Some a ->
  P a /\ (a < n)%nat /\ forall b, (b < a)%nat -> ¬ P b.
Proof.
  intros Hhead.
  pose proof (head_Some_elem_of _ _ Hhead) as [HPa Ha%elem_of_range]%list_elem_of_filter.
  split; [done|]. split; [done|].
  apply head_filter_Some in Hhead as (l1 & l2 & Hsplit & Hl1).
  intros b Hb. rewrite Forall_forall in Hl1. apply Hl1.
  assert (range n !! length l1 = Some a) as Hlen.
  { rewrite Hsplit. rewrite lookup_app_r by lia. by rewrite Nat.sub_diag. }
  apply lookup_seq in Hlen as [-> _].
  assert (range n !! b = Some b) as Hlb.
  { apply lookup_seq. lia. }
  rewrite Hsplit, lookup_app_l in Hlb by (simpl in Hb; lia).
  by eapply list_elem_of_lookup_2.
Qed.

Lemma last_filter_range_1 (P : nat -> Prop) `{!forall x, Decision (P x)} (n a : nat) :
  last (filter P (range n)) = Some a ->
  P a /\ (a < n)%nat /\ forall b, (a < b)%nat -> (b < n)%nat -> ¬ P b.
Proof.
  intros Hlast.
  pose proof (last_Some_elem_of _ _ Hlast) as [HPa Ha%elem_of_range]%list_elem_of_filter.
  split; [done|]. split; [done|].
  apply last_filter_Some in Hlast as (l1 & l2 & Hsplit & Hl2).
  intros b Hab Hb. rewrite Forall_forall in Hl2. apply Hl2.
  assert (range n !! length l1 = Some a) as Hlen.
  { rewrite Hsplit. rewrite lookup_app_r by lia. by rewrite Nat.sub_diag. }
  apply lookup_seq in Hlen as [-> _].
  assert (range n !! b = Some b) as Hlb.
  { apply lookup_seq. lia. }
  simpl in Hab.
  rewrite Hsplit, lookup_app_r in Hlb by lia.
  destruct (b - length l1)%nat as [|k] eqn:Hk; [lia|]. simpl in Hlb.
  by eapply list_elem_of_lookup_2.
Qed.

Lemma filter_range_nonempty (P : nat -> Prop) `{!forall x, Decision (P x)} (n a : nat) :
  P a -> (a < n)%nat -> filter P (range n) ≠ [].
Proof.
  intros HPa Ha Hnil.
  eapply (filter_nil_not_elem_of P); [done..|]. by apply elem_of_range.
Qed.

Lemma head_filter_range (P : nat -> Prop) `{!forall x, Decision (P x)} (n a : nat) :
  P a -> (a < n)%nat -> (forall b, (b < a)%nat -> ¬ P b) ->
  head (filter P (range n)) = Some a.
Proof.
  intros HPa Ha Hmin.
  destruct (head (filter P (range n))) as [a'|] eqn:Hhead.
  - apply head_filter_range_1 in Hhead as (HPa' & _ & Hmin').
    f_equal. destruct (Nat.lt_trichotomy a a') as [?|[?|?]]; [|done|].
    + by destruct (Hmin' a).
    + by destruct (Hmin a').
  - apply head_None in Hhead. by destruct (filter_range_nonempty P n a).
Qed.

Lemma last_filter_range (P : nat -> Prop) `{!forall x, Decision (P x)} (n a : nat) :
  P a -> (a < n)%nat -> (forall b, (a < b)%nat -> (b < n)%nat -> ¬ P b) ->
  last (filter P (range n)) = Some a.
Proof.
  intros HPa Ha Hmax.
  destruct (last (filter P (range n))) as [a'|] eqn:Hlast.
  - apply last_filter_range_1 in Hlast as (HPa' & Ha' & Hmax').
    f_equal. destruct (Nat.lt_trichotomy a a') as [?|[?|?]]; [|done|].
    + by destruct (Hmax a').
    + by destruct (Hmax' a).
  - apply last_None in Hlast. by destruct (filter_range_nonempty P n a).
Qed.

Lemma nonzero_at_alpha (img : image) x y :
  nonzero_at (map pA <$> img) y x = negb (pA (getpixel img x y) =? 0).
Proof.
  unfold nonzero_at, getpixel. rewrite list_lookup_fmap.
  destruct (img !! y) as [row|]; simpl; [|done].
  change (map pA row) with (pA <$> row). rewrite list_lookup_fmap.
  by destruct (row !! x).
Qed.

Lemma getpixel_outside (img : image) x y :
  rectangular img -> pA (getpixel img x y) ≠ 0 ->
  (x < width img)%nat /\ (y < height img)%nat.
Proof.
  intros Hrect Hsolid.
  destruct (decide ((x < width img)%nat /\ (y < height img)%nat)) as [|Hout]; [done|].
  unfold getpixel in Hsolid. rewrite lookup_outside in Hsolid by done.
  done.
Qed.

Lemma column_solid (img : image) x :
  rectangular img ->
  existsb (fun y => nonzero_at (map pA <$> img) y x) (range (height img))
  <-> exists y, pA (getpixel img x y) ≠ 0.
Proof.
  intros Hrect. rewrite existb_True, Exists_exists. split.
  - intros (y & _ & Hy). exists y. rewrite nonzero_at_alpha in Hy.
    apply negb_prop_elim in Hy. rewrite Is_true_true, Z.eqb_eq in Hy. done.
  - intros (y & Hy). exists y. split.
    + apply elem_of_range. by apply (getpixel_outside img x y).
    + rewrite nonzero_at_alpha. apply negb_prop_intro.
      rewrite Is_true_true, Z.eqb_eq. done.
Qed.

Lemma row_solid (img : image) y :
  rectangular img ->
  existsb (nonzero_at (map pA <$> img) y) (range (width img))
  <-> exists x, pA (getpixel img x y) ≠ 0.
Proof.
  intros Hrect. rewrite existb_True, Exists_exists. split.
  - intros (x & _ & Hx). exists x. rewrite nonzero_at_alpha in Hx.
    apply negb_prop_elim in Hx. rewrite Is_true_true, Z.eqb_eq in Hx. done.
  - intros (x & Hx). exists x. split.
    + apply elem_of_range. by apply (getpixel_outside img x y).
    + rewrite nonzero_at_alpha. apply negb_prop_intro.
      rewrite Is_true_true, Z.eqb_eq. done.
Qed.

Lemma getbbox_alpha (img : image) :
  getbbox (map pA <$> img) =
  match head (filter (fun x => existsb (fun y => nonzero_at (map pA <$> img) y x)
                                  (range (height img))) (range (width img))),
        last (filter (fun x => existsb (fun y => nonzero_at (map pA <$> img) y x)
                                  (range (height img))) (range (width img))),
        head (filter (fun y => existsb (nonzero_at (map pA <$> img) y)
                                  (range (width img))) (range (height img))),
        last (filter (fun y => existsb (nonzero_at (map pA <$> img) y)
                                  (range (width img))) (range (height img)))
  with
  | Some x_min, Some x_max, Some y_min, Some y_max =>
      Some (x_min, y_min, S x_max, S y_max)
  | _, _, _, _ => None
  end.
Proof.
  unfold getbbox. rewrite width_fmap_rows. unfold height.
  rewrite length_fmap. done.
Qed.

(** The crop when no pixel has a non-zero alpha. *)
Lemma crop_to_solid_area_empty (img : image) :
  rectangular img ->
  (forall x y, pA (getpixel img x y) = 0) ->
  crop_to_solid_area img = [[transparent_black]].
Proof.
  intros Hrect Hnone. unfold crop_to_solid_area. rewrite getbbox_alpha.
  destruct (head (filter _ (range (width img)))) as [a|] eqn:Hhead; [|done].
  apply head_filter_range_1 in Hhead as (HP & _).
  apply column_solid in HP as (y & Hy); [|done]. destruct Hy. apply Hnone.
Qed.

(** The crop when the non-zero alpha values are bounded by the columns
    [x0], [x1] and the rows [y0], [y1]. *)
Lemma crop_to_solid_area_bounds (img : image) (x0 y0 x1 y1 : nat) :
  rectangular img ->
  (exists y, pA (getpixel img x0 y) ≠ 0) ->
  (exists y, pA (getpixel img x1 y) ≠ 0) ->
  (exists x, pA (getpixel img x y0) ≠ 0) ->
  (exists x, pA (getpixel img x y1) ≠ 0) ->
  (forall x y, pA (getpixel img x y) ≠ 0 ->
     (x0 <= x <= x1)%nat /\ (y0 <= y <= y1)%nat) ->
  crop_to_solid_area img = crop img (x0, y0, S x1, S y1)
  /\ (x1 < width img)%nat /\ (y1 < height img)%nat
  /\ (x0 <= x1)%nat /\ (y0 <= y1)%nat.
Proof.
  intros Hrect Hx0 Hx1 Hy0 Hy1 Hall.
  assert (x1 < width img)%nat as Hx1w.
  { destruct Hx1 as [y Hy]. by apply (getpixel_outside img x1 y). }
  assert (y1 < height img)%nat as Hy1h.
  { destruct Hy1 as [x Hx]. by apply (getpixel_outside img x y1). }
  assert (x0 <= x1)%nat as Hx01 by (destruct Hx0 as [y Hy]; apply (Hall _ _ Hy)).
  assert (y0 <= y1)%nat as Hy01 by (destruct Hy0 as [x Hx]; apply (Hall _ _ Hx)).
  split; [|done].
  unfold crop_to_solid_area. rewrite getbbox_alpha.
  rewrite (head_filter_range _ _ x0), (last_filter_range _ _ x1),
          (head_filter_range _ _ y0), (last_filter_range _ _ y1); try done; try lia.
  - by apply row_solid.
  - intros b Hb _ (x & Hx)%row_solid; [|done]. apply Hall in Hx. lia.
  - by apply row_solid.
  - intros b Hb (x & Hx)%row_solid; [|done]. apply Hall in Hx. lia.
  - by apply column_solid.
  - intros b Hb _ (y & Hy)%column_solid; [|done]. apply Hall in Hy. lia.
  - by apply column_solid.
  - intros b Hb (y & Hy)%column_solid; [|done]. apply Hall in Hy. lia.
Qed.

Lemma crop_lookup (img : image) (x0 y0 x1 y1 x y : nat) :
  (x < x1 - x0)%nat -> (y < y1 - y0)%nat ->
  crop img (x0, y0, x1, y1) !! y ≫= (.!! x)
  = img !! (y0 + y)%nat ≫= (.!! (x0 + x)%nat).
Proof.
  intros Hx Hy. unfold crop. rewrite list_lookup_fmap.
  rewrite lookup_take_lt by done. rewrite lookup_drop.
  destruct (img !! (y0 + y)%nat) as [row|]; simpl; [|done].
  rewrite lookup_take_lt by done. by rewrite lookup_drop.
Qed.

Lemma crop_shape (img : image) (x0 y0 x1 y1 : nat) :
  rectangular img ->
  (x0 < x1)%nat -> (y0 < y1)%nat ->
  (x1 <= width img)%nat -> (y1 <= height img)%nat ->
  width (crop img (x0, y0, x1, y1)) = (x1 - x0)%nat
  /\ height (crop img (x0, y0, x1, y1)) = (y1 - y0)%nat.
Proof.
  intros Hrect Hx Hy Hw Hh. unfold height in *. split.
  - unfold crop, width.
    destruct (lookup_lt_is_Some_2 img y0) as [row Hrow]; [lia|].
    rewrite (drop_S _ _ _ Hrow).
    destruct (y1 - y0)%nat as [|k] eqn:Hk; [lia|]. simpl.
    rewrite length_take, length_drop.
    unfold rectangular in Hrect. rewrite Forall_lookup in Hrect.
    rewrite (Hrect _ _ Hrow). lia.
  - unfold crop, height. rewrite length_fmap, length_take, length_drop. lia.
Qed.

Lemma foldl_invariant {A S} (I : S -> Prop) (l : list A) (f : S -> A -> S) (s : S) :
  I s -> (forall t a, I t -> I (f t a)) -> I (foldl f s l).
Proof.
  intros Hs Hf. revert s Hs. induction l as [|a l IH]; intros s Hs; simpl; [done|].
  apply IH. by apply Hf.
Qed.

Section CroppedHeader.
Context `{External}.



End CroppedHeader.

(** A 3x3 image whose only kept pixel is the centre: the header is that of
    the 1x1 crop, not of the 3x3 input. *)
Example cropped_header_example :
  @process_and_save_image rgb_only
    [[transparent_black; transparent_black; transparent_black];
     [transparent_black; opaque_white; Pixel 1 2 3 191];
     [transparent_black; transparent_black; transparent_black]]
    None "Color Match" false ∅ [entry 0 "ffffff"; entry 1 "000000"]
    false false (constant_rng 0)
  = Ok (["0.1,0.1,img"; "0.0,0.0,0"], constant_rng 0).
Proof. vm_compute. reflexivity. Qed.

(** ** Opacity thresholds *)

(** ** Dynamic threshold of the background remover *)

Local Open Scope Q_scope.

Lemma foldl_Qmax_spec (l : list Q) (v : Q) :
  (foldl Qmax v l = v \/ foldl Qmax v l ∈ l)
  /\ v <= foldl Qmax v l
  /\ forall u, u ∈ l -> u <= foldl Qmax v l.
Proof.
  revert v. induction l as [|a l IH]; intros v; simpl.
  - split; [by left|]. split; [apply Qle_refl|]. by intros u ?%elem_of_nil.
  - destruct (IH (Qmax v a)) as (Hin & Hle & Hall).
    split; [|split].
    + destruct Hin as [Heq|Hin]; [|right; by right].
      rewrite Heq. unfold Qmax, GenericMinMax.gmax.
      destruct (v ?= a); [by left|right; left|by left].
    + eapply Qle_trans; [|exact Hle]. apply Q.le_max_l.
    + intros u [->|Hu]%elem_of_cons; [|by apply Hall].
      eapply Qle_trans; [|exact Hle]. apply Q.le_max_r.
Qed.

Lemma Qdiv_42 (q : Q) : q / 42 == q * (1 # 42).
Proof. unfold Qdiv. reflexivity. Qed.

(** C9, as the code has it. When the threshold is omitted it is
    [max(0.01, c * 0.9 - 0.01) / 42] for
    [c = max(0.01, min(mean * 0.5, max * 0.5))], where [max] is the
    largest value of the mask and [mean] its mean; this is the claimed
    [c * 0.9 / 42] lowered by [0.01 / 42] as long as [c * 0.9] is at
    least [0.02], and [0.01 / 42] below that; the two formulas agree only
    when [c] is [1 / 90]. *)
Theorem dynamic_threshold_formula (mask : list Q) :
  mask ≠ [] ->
  exists t max_value,
    calculate_dynamic_threshold mask = Ok t
    /\ max_value ∈ mask /\ (forall v, v ∈ mask -> v <= max_value)
    /\ np_mean mask * inject_Z (Z.of_nat (length mask)) == foldr Qplus 0 mask
    /\ let c := Qmax (1 # 100)
                  (Qmin (np_mean mask * (1 # 2)) (max_value * (1 # 2))) in
       t == Qmax (1 # 100) (c * (9 # 10) - (1 # 100)) / 42
       /\ (2 # 100 <= c * (9 # 10) ->
           t == claimed_threshold (np_mean mask) max_value - (1 # 100) / 42)
       /\ (c * (9 # 10) <= 2 # 100 -> t == (1 # 100) / 42)
       /\ (t == claimed_threshold (np_mean mask) max_value <-> c == 1 # 90).
Proof.
  destruct mask as [|v mask]; [done|]. intros _.
  destruct (foldl_Qmax_spec mask v) as (Hin & Hle & Hall).
  exists (Qmax (1 # 100)
            (Qmax (1 # 100)
               (Qmin (np_mean (v :: mask) * (1 # 2))
                     (foldl Qmax v mask * (1 # 2))) * (9 # 10) - (1 # 100)) / 42),
         (foldl Qmax v mask).
  split; [done|].
  split; [destruct Hin as [->|Hin]; [left|by right]|].
  split; [intros u [->|Hu]%elem_of_cons; auto|].
  split.
  { unfold np_mean. field. simpl length.
    intros Hz. unfold inject_Z, Qeq in Hz. simpl in Hz. lia. }
  intros c. fold c.
  assert (1 # 100 <= c) as Hc by (subst c; apply Q.le_max_l).
  split; [reflexivity|].
  rewrite !Qdiv_42. unfold claimed_threshold. fold c. rewrite !Qdiv_42.
  destruct (Q.max_spec (1 # 100) (c * (9 # 10) - (1 # 100))) as [[Hlt ->]|[Hge ->]].
  - split; [intros; lra|]. split; [intros; lra|]. split; intros; lra.
  - split; [intros; lra|]. split; [intros; lra|]. split; intros; lra.
Qed.

Lemma dynamic_threshold_formula_witness :
  exists t max_value,
    calculate_dynamic_threshold [1; 1 # 2] = Ok t
    /\ max_value ∈ [1; 1 # 2] /\ (forall v, v ∈ [1; 1 # 2] -> v <= max_value)
    /\ np_mean [1; 1 # 2] * inject_Z (Z.of_nat (length [1; 1 # 2]))
       == foldr Qplus 0 [1; 1 # 2]
    /\ let c := Qmax (1 # 100)
                  (Qmin (np_mean [1; 1 # 2] * (1 # 2)) (max_value * (1 # 2))) in
       t == Qmax (1 # 100) (c * (9 # 10) - (1 # 100)) / 42
       /\ (2 # 100 <= c * (9 # 10) ->
           t == claimed_threshold (np_mean [1; 1 # 2]) max_value - (1 # 100) / 42)
       /\ (c * (9 # 10) <= 2 # 100 -> t == (1 # 100) / 42)
       /\ (t == claimed_threshold (np_mean [1; 1 # 2]) max_value <-> c == 1 # 90).
Proof. apply (dynamic_threshold_formula [1; 1 # 2]). done. Defined.

(** On a mask that is 1 everywhere the code gives [0.44 / 42], the claimed
    formula [0.45 / 42]. *)
Lemma dynamic_threshold_differs_from_claim :
  exists t,
    calculate_dynamic_threshold [1] = Ok t
    /\ t == 11 # 1050
    /\ claimed_threshold (np_mean [1]) 1 == 3 # 280
    /\ ¬ t == claimed_threshold (np_mean [1]) 1.
Proof.
  eexists. split; [reflexivity|]. vm_compute. repeat split; discriminate.
Qed.

Local Close Scope Q_scope.

(** ** Animation encoder: the closing block *)

Lemma iterate_singleton (O : set_order) (xy : nat * nat) :
  iterate O {[xy]} = [xy].
Proof.
  pose proof (iterate_NoDup O {[xy]}) as Hnd.
  pose proof (iterate_elem_of O {[xy]}) as Hel.
  destruct (iterate O {[xy]}) as [|a l].
  - specialize (Hel xy). rewrite elem_of_singleton in Hel.
    destruct Hel as [_ Hel]. specialize (Hel eq_refl). by apply elem_of_nil in Hel.
  - assert (a = xy) as ->.
    { assert (a ∈ ({[xy]} : gset (nat * nat))) by (apply Hel; left).
      set_solver. }
    destruct l as [|b l]; [done|].
    assert (b = xy) as ->.
    { assert (b ∈ ({[xy]} : gset (nat * nat))) by (apply Hel; right; left).
      set_solver. }
    apply NoDup_cons in Hnd as [Hnotin _]. destruct Hnotin. left.
Qed.

(** C4 at a failing input: two 1x1 frames, the first an opaque white
    pixel (number 0), the second a transparent one. The closing block
    holds [0.0,0.0,-1]; replayed on the map of the last frame it leaves
    [-1] at [(0, 0)], where the first frame has colour 0. *)
Theorem closing_delta_loses_first_frame (O : set_order) :
  let first_frame_pixels : pixel_map := {[ (0%nat, 0%nat) := 0 ]} in
  let last_frame_pixels : pixel_map := {[ (0%nat, 0%nat) := -1 ]} in
  @encode_gif rgb_only O false white_black
    [[[opaque_white]]; [[transparent_black]]] 2 [100; 100]
  = Ok {| stamp_txt := ["0.1,0.1,gif,2,100"; "0.0,0.0,0"];
          frames_txt := ["frame,1"; "0.0,0.0,-1"; "frame,2"; "0.0,0.0,-1"] |}
  /\ closing_diffs O first_frame_pixels last_frame_pixels
     = [(0%nat, 0%nat, -1)]
  /\ get_color
       (replay last_frame_pixels
          (closing_diffs O first_frame_pixels last_frame_pixels))
       (0%nat, 0%nat) = -1
  /\ get_color first_frame_pixels (0%nat, 0%nat) = 0.
Proof.
  intros first_frame_pixels last_frame_pixels.
  assert (Hclosing : closing_diffs O first_frame_pixels last_frame_pixels
                     = [(0%nat, 0%nat, -1)]).
  { unfold closing_diffs. subst first_frame_pixels last_frame_pixels.
    rewrite !dom_singleton_L, union_idemp_L, iterate_singleton. done. }
  split; [|split; [done|split; [by rewrite Hclosing|done]]].
  unfold encode_gif.
  change (uniform_delay_of [100; 100]) with (Ok (A:=Z) 100).
  cbn [mbind result_bind lookup list_lookup].
  change (@encode_first_frame rgb_only false white_black [[opaque_white]] 2 100)
    with (Ok (first_frame_pixels, ["0.1,0.1,gif,2,100"; "0.0,0.0,0"])).
  cbn [mbind result_bind].
  change (width [[opaque_white]]) with 1%nat.
  change (height [[opaque_white]]) with 1%nat.
  change (seq 2 (2 - 1)) with [2%nat].
  cbn [for_each]. unfold encode_frame at 1.
  cbn [mbind result_bind lookup list_lookup Nat.sub Frame1Array frames_file header_frame_number].
  change (@collect_pixels rgb_only false white_black 1 1 [[transparent_black]])
    with (Ok last_frame_pixels).
  cbn [mbind result_bind Z.eqb].
  unfold frame_diffs. fold first_frame_pixels.
  subst first_frame_pixels last_frame_pixels.
  rewrite !dom_singleton_L, union_idemp_L, iterate_singleton.
  cbn -[closing_diffs]. unfold encode_closing.
  cbn [Frame1Array frames_file header_frame_number].
  rewrite Hclosing. done.
Qed.

(** ** Animation encoder: frame deltas *)

Lemma write_diffs_lines (f : list string) (d : list (nat * nat * Z)) :
  write_diffs f d = f ++ ((fun '(x, y, c) => point_line x y c) <$> d).
Proof.
  unfold write_diffs.
  rewrite (foldl_ext _ (fun f t => f ++ [(fun '(x, y, c) => point_line x y c) t])).
  - apply foldl_snoc_app.
  - by intros f' [[x y] c].
Qed.

(** The comparison loop keeps the coordinates whose value differs, in the
    order of the iteration, with the value of the current frame. *)
Lemma frame_diffs_filter (O : set_order) (prev cur : pixel_map) :
  frame_diffs O prev cur =
  (fun xy => (xy, get_color cur xy))
  <$> filter (fun xy => get_color cur xy ≠ get_color prev xy)
        (iterate O (dom prev ∪ dom cur)).
Proof.
  unfold frame_diffs.
  rewrite (foldl_ext _ (fun diffs xy =>
     diffs ++ (if bool_decide (get_color cur xy ≠ get_color prev xy)
               then [(xy, get_color cur xy)] else []))).
  - rewrite foldl_app_bind. simpl.
    rewrite (bind_filter_fmap (fun xy => bool_decide (get_color cur xy ≠ get_color prev xy))).
    f_equal. apply list_filter_iff. intros xy. by rewrite bool_decide_spec.
  - intros diffs [x y]. case_decide as Hd.
    + rewrite bool_decide_true by done.
      destruct (get_color cur (x, y) =? -1) eqn:Hc; [|done].
      apply Z.eqb_eq in Hc. by rewrite Hc.
    + rewrite bool_decide_false by (by intros ?). by rewrite app_nil_r.
Qed.

Lemma frame_diffs_spec (O : set_order) (prev cur : pixel_map) :
  NoDup (fst <$> frame_diffs O prev cur)
  /\ forall x y c,
       (x, y, c) ∈ frame_diffs O prev cur <->
       (x, y) ∈ dom prev ∪ dom cur
       /\ c = get_color cur (x, y)
       /\ get_color cur (x, y) ≠ get_color prev (x, y).
Proof.
  rewrite frame_diffs_filter. split.
  - assert (Hid : forall l : list (nat * nat),
               fst <$> ((fun xy => (xy, get_color cur xy)) <$> l) = l).
    { intros l. induction l as [|a l IH]; csimpl; [done|]. by rewrite IH. }
    rewrite Hid. apply NoDup_filter, iterate_NoDup.
  - intros x y c. rewrite list_elem_of_fmap. split.
    + intros (xy & [= <- ->] & [Hne Hin]%list_elem_of_filter).
      by apply iterate_elem_of in Hin.
    + intros (Hin & -> & Hne). exists (x, y). split; [done|].
      apply list_elem_of_filter. split; [done|]. by apply iterate_elem_of.
Qed.

(** A loop whose iterations all succeed is a fold. *)
Lemma for_each_foldl {A S} (l : list A) (body : A -> S -> result S)
    (step : A -> S -> S) (s : S) :
  (forall a t, a ∈ l -> body a t = Ok (step a t)) ->
  for_each l body s = Ok (foldl (fun t a => step a t) s l).
Proof.
  revert s. induction l as [|a l IH]; intros s Hbody; simpl; [done|].
  rewrite Hbody by left. simpl. apply IH. intros; apply Hbody; by right.
Qed.

Lemma for_each_bind {A B S} (l : list A) (g : A -> list B)
    (body : B -> S -> result S) (s : S) :
  for_each (l ≫= g) body s = for_each l (fun a => for_each (g a) body) s.
Proof.
  revert s. induction l as [|a l IH]; intros s; csimpl; [done|].
  rewrite for_each_app. destruct (for_each (g a) body s); simpl; [apply IH|done].
Qed.

Lemma for_each_fmap {A B S} (l : list A) (g : A -> B)
    (body : B -> S -> result S) (s : S) :
  for_each (g <$> l) body s = for_each l (fun a => body (g a)) s.
Proof.
  revert s. induction l as [|a l IH]; intros s; csimpl; [done|].
  destruct (body (g a) s); simpl; [apply IH|done].
Qed.

Lemma for_each_ext {A S} (l : list A) (body body' : A -> S -> result S) (s : S) :
  (forall a t, body a t = body' a t) -> for_each l body s = for_each l body' s.
Proof.
  intros Hb. revert s. induction l as [|a l IH]; intros s; simpl; [done|].
  rewrite Hb. destruct (body' a s); simpl; [apply IH|done].
Qed.

(** Two nested [for] loops over rows and columns visit the coordinates in
    raster order. *)
Lemma for_range_raster {S} (w h : nat) (body : nat -> nat -> S -> result S) (s : S) :
  for_range h (fun y => for_range w (fun x => body y x)) s
  = for_each (raster_coords w h) (fun xy => body xy.2 xy.1) s.
Proof.
  unfold for_range, raster_coords. rewrite for_each_bind.
  apply for_each_ext. intros y t. by rewrite for_each_fmap.
Qed.

(** A map filled by a loop that enters a value for some coordinates. *)
Lemma foldl_insert_lookup (v : nat * nat -> option Z) (coords : list (nat * nat))
    (m : pixel_map) (xy : nat * nat) :
  NoDup coords ->
  foldl (fun m xy => match v xy with Some n => <[xy := n]> m | None => m end)
        m coords !! xy
  = if decide (xy ∈ coords) then
      match v xy with Some n => Some n | None => m !! xy end
    else m !! xy.
Proof.
  intros Hnd. revert m.
  induction Hnd as [|a coords Hnotin Hnd IH]; intros m; cbn [foldl].
  - rewrite decide_False; [done|]. by intros ?%elem_of_nil.
  - rewrite IH. destruct (decide (xy = a)) as [->|Hne].
    + rewrite decide_False by done. rewrite decide_True by left.
      destruct (v a); [by rewrite lookup_insert_eq|done].
    + destruct (decide (xy ∈ coords)).
      * rewrite decide_True by (by right).
        destruct (v xy); [done|].
        destruct (v a); [by rewrite lookup_insert_ne|done].
      * rewrite decide_False by (by intros [?|?]%elem_of_cons).
        destruct (v a); [by rewrite lookup_insert_ne|done].
Qed.

Section FrameMaps.
Context `{External}.
Variable O : set_order.
Variables (use_lab : bool) (key : color_key) (w h : nat).
Hypothesis key_nonempty : key ≠ [].

Lemma find_closest_color_matched (p : pixel) :
  find_closest_color use_lab (pixel_rgb p) key
  = Ok (matched_number use_lab key p).
Proof.
  unfold matched_number.
  by destruct (find_closest_color_nearest use_lab (pixel_rgb p) key
                 key_nonempty) as (n & -> & _).
Qed.

Lemma frame_color_outside (frame : image) (x y : nat) :
  frame_of_size w h frame -> ¬ ((x < w)%nat /\ (y < h)%nat) ->
  frame_color use_lab key frame (x, y) = -1.
Proof.
  intros (Hrect & <- & <-) Hout. unfold frame_color, getpixel. simpl.
  by rewrite lookup_outside.
Qed.

Lemma collect_step_Ok (frame : image) (x y : nat) (m : pixel_map) :
  frame_of_size w h frame -> (x < w)%nat -> (y < h)%nat ->
  collect_step use_lab key frame y x m
  = Ok (<[(x, y) := frame_color use_lab key frame (x, y)]> m).
Proof.
  intros (Hrect & <- & <-) Hx Hy. unfold collect_step, pixel_access, frame_color.
  simpl. unfold getpixel.
  destruct (rectangular_lookup frame x y Hrect Hx Hy) as [p ->]. simpl.
  destruct (pA p <=? 191); [done|].
  fold (pixel_rgb p). by rewrite find_closest_color_matched.
Qed.

(** The map collected from a later frame. *)
Lemma collect_pixels_Ok (frame : image) :
  frame_of_size w h frame ->
  exists m, collect_pixels use_lab key w h frame = Ok m
    /\ holds_frame use_lab key w h frame m /\ covers w h m.
Proof.
  intros Hsize. unfold collect_pixels.
  rewrite (for_range_raster w h (fun y x => collect_step use_lab key frame y x)).
  rewrite (for_each_foldl _ _
             (fun xy m => match Some (frame_color use_lab key frame xy) with
                          | Some n => <[xy := n]> m
                          | None => m
                          end)).
  2:{ intros [x y] m [Hx Hy]%elem_of_raster_coords. simpl.
      by apply collect_step_Ok. }
  eexists. split; [done|].
  pose proof (fun xy => foldl_insert_lookup
                (fun xy => Some (frame_color use_lab key frame xy))
                (raster_coords w h) ∅ xy (NoDup_raster_coords w h)) as Hlook.
  split; [split|].
  - intros [x y]. unfold get_color. rewrite Hlook.
    case_decide as Hin; [done|]. rewrite lookup_empty. simpl.
    rewrite elem_of_raster_coords in Hin. by rewrite frame_color_outside.
  - intros x y. rewrite Hlook. case_decide as Hin.
    + by rewrite elem_of_raster_coords in Hin.
    + rewrite lookup_empty. by intros [? [=]].
  - intros x y Hx Hy. rewrite Hlook.
    rewrite decide_True by (by apply elem_of_raster_coords). done.
Qed.

Lemma first_frame_step_Ok (first_frame : image) (x y : nat)
    (st : pixel_map * list string) :
  first_frame_step use_lab key first_frame y x st
  = Ok (if kept first_frame (x, y)
        then (<[(x, y) := matched_number use_lab key (getpixel first_frame x y)]> st.1,
              st.2 ++ [point_line x y
                         (matched_number use_lab key (getpixel first_frame x y))])
        else st).
Proof.
  destruct st as [m f]. unfold first_frame_step, kept. simpl.
  destruct (pA (getpixel first_frame x y) <=? 191) eqn:Ha.
  - apply Z.leb_le in Ha.
    by replace (191 <? pA (getpixel first_frame x y)) with false
      by (symmetry; apply Z.ltb_ge; lia).
  - apply Z.leb_gt in Ha.
    replace (191 <? pA (getpixel first_frame x y)) with true
      by (symmetry; apply Z.ltb_lt; lia).
    fold (pixel_rgb (getpixel first_frame x y)).
    by rewrite find_closest_color_matched.
Qed.

(** The map and the lines of the first frame. *)
Lemma encode_first_frame_Ok (first_frame : image) (total_frames : nat) (d : Z) :
  frame_of_size w h first_frame ->
  exists m stamp_file,
    encode_first_frame use_lab key first_frame total_frames d = Ok (m, stamp_file)
    /\ holds_frame use_lab key w h first_frame m.
Proof.
  intros Hsize. pose proof Hsize as (Hrect & Hw & Hh).
  unfold encode_first_frame. rewrite Hw, Hh.
  rewrite (for_range_raster w h
             (fun y x => first_frame_step use_lab key first_frame y x)).
  rewrite (for_each_foldl _ _
    (fun xy st =>
       if kept first_frame xy
       then (<[xy := matched_number use_lab key (getpixel first_frame xy.1 xy.2)]> st.1,
             st.2 ++ [point_line xy.1 xy.2
                        (matched_number use_lab key (getpixel first_frame xy.1 xy.2))])
       else st)).
  2:{ intros [x y] st _. simpl. apply first_frame_step_Ok. }
  set (v := fun xy : nat * nat =>
              if kept first_frame xy
              then Some (matched_number use_lab key (getpixel first_frame xy.1 xy.2))
              else None).
  match goal with |- context [foldl ?f0 _ _] =>
    assert (Hfst : forall l s,
      (foldl f0 s l).1 =
      foldl (fun m xy => match v xy with Some n => <[xy := n]> m | None => m end)
            s.1 l)
  end.
  { intros l. induction l as [|a l IH]; intros s; simpl; [done|].
    rewrite IH. f_equal. unfold v. by destruct (kept first_frame a). }
  match goal with |- context [foldl ?f0 ?s0 ?l0] =>
    specialize (Hfst l0 s0); destruct (foldl f0 s0 l0) as [m stamp_file]
  end.
  simpl in Hfst. exists m, stamp_file. split; [done|].
  pose proof (fun xy => foldl_insert_lookup v (raster_coords w h) ∅ xy
                          (NoDup_raster_coords w h)) as Hlook.
  rewrite <- Hfst in Hlook. split.
  - intros [x y]. unfold get_color. rewrite Hlook.
    case_decide as Hin.
    + unfold v, frame_color, kept. simpl.
      destruct (pA (getpixel first_frame x y) <=? 191) eqn:Ha.
      * apply Z.leb_le in Ha.
        replace (191 <? pA (getpixel first_frame x y)) with false
          by (symmetry; apply Z.ltb_ge; lia).
        by rewrite lookup_empty.
      * apply Z.leb_gt in Ha.
        by replace (191 <? pA (getpixel first_frame x y)) with true
          by (symmetry; apply Z.ltb_lt; lia).
    + rewrite lookup_empty. simpl.
      rewrite elem_of_raster_coords in Hin. by rewrite frame_color_outside.
  - intros x y. rewrite Hlook. case_decide as Hin.
    + by rewrite elem_of_raster_coords in Hin.
    + rewrite lookup_empty. by intros [? [=]].
Qed.

(** The comparison of two maps that stand for frames is the delta
    between the frames. *)
Lemma frame_diffs_delta (prev cur : image) (m_prev m_cur : pixel_map) :
  holds_frame use_lab key w h prev m_prev ->
  holds_frame use_lab key w h cur m_cur -> covers w h m_cur ->
  delta_between use_lab key w h prev cur (frame_diffs O m_prev m_cur).
Proof.
  intros [Hprev Hprev_in] [Hcur Hcur_in] Hcov.
  destruct (frame_diffs_spec O m_prev m_cur) as [Hnd Hel].
  split; [done|]. intros x y c. rewrite Hel, Hprev, Hcur.
  rewrite elem_of_union, !elem_of_dom. split.
  - intros ([Hin|Hin] & -> & Hne); [apply Hprev_in in Hin|apply Hcur_in in Hin];
      destruct Hin; done.
  - intros (Hx & Hy & -> & Hne). split; [|done]. right. by apply Hcov.
Qed.

Variables (saved : list image) (delays : list Z) (uniform_delay : Z).

(** One iteration of the loop over the later frames. *)
Lemma encode_frame_Ok (frame_number : nat) (st : encoder_state)
    (prev cur : image) :
  saved !! (frame_number - 1)%nat = Some cur ->
  frame_of_size w h cur ->
  (frame_number - 1 < length delays)%nat ->
  holds_frame use_lab key w h prev (Frame1Array st) ->
  exists st' d,
    encode_frame O use_lab key w h saved delays uniform_delay frame_number st
    = Ok st'
    /\ holds_frame use_lab key w h cur (Frame1Array st')
    /\ header_frame_number st' = S (header_frame_number st)
    /\ frames_file st' =
       frames_file st
       ++ block_lines
            (frame_header (header_frame_number st)
               (delay_field uniform_delay delays (frame_number - 1))) d
    /\ delta_between use_lab key w h prev cur d.
Proof.
  intros Hcur Hsize Hdelay Hprev. unfold encode_frame. rewrite Hcur.
  cbn [mbind result_bind].
  destruct (collect_pixels_Ok cur Hsize) as (m & -> & Hm & Hcov).
  cbn [mbind result_bind].
  destruct (lookup_lt_is_Some_2 delays (frame_number - 1) Hdelay) as [dl Hdl].
  assert (Hheader :
    (if uniform_delay =? -1
     then frame_delay ← index delays (frame_number - 1)%nat;
          Ok (frame_header (header_frame_number st) (Some frame_delay))
     else Ok (frame_header (header_frame_number st) None))
    = Ok (frame_header (header_frame_number st)
            (delay_field uniform_delay delays (frame_number - 1)))).
  { unfold delay_field, index. destruct (uniform_delay =? -1); [|done].
    by rewrite Hdl. }
  rewrite Hheader. cbn [mbind result_bind].
  eexists _, (frame_diffs O (Frame1Array st) m). split; [done|].
  cbn [Frame1Array frames_file header_frame_number].
  split; [done|]. split; [done|]. split.
  - rewrite write_diffs_lines. unfold block_lines.
    rewrite <- app_assoc. done.
  - by apply frame_diffs_delta.
Qed.

(** The loop over the later frames, from any frame on. *)
Lemma encode_frames_Ok (todo : list image) :
  forall (processed : list image) (prev : image) (st : encoder_state),
    saved = processed ++ todo ->
    last processed = Some prev ->
    Forall (frame_of_size w h) todo ->
    (length saved <= length delays)%nat ->
    holds_frame use_lab key w h prev (Frame1Array st) ->
    header_frame_number st = length processed ->
    exists st' blocks,
      for_each (seq (S (length processed)) (length todo))
        (encode_frame O use_lab key w h saved delays uniform_delay) st
      = Ok st'
      /\ header_frame_number st' = (length processed + length todo)%nat
      /\ length blocks = length todo
      /\ frames_file st' =
         frames_file st
         ++ concat (imap (fun i d =>
              block_lines
                (frame_header (length processed + i)
                   (delay_field uniform_delay delays (length processed + i)))
                d) blocks)
      /\ (forall i p c,
            (prev :: todo) !! i = Some p -> todo !! i = Some c ->
            exists d, blocks !! i = Some d
                      /\ delta_between use_lab key w h p c d)
      /\ exists last_frame,
           last (prev :: todo) = Some last_frame
           /\ holds_frame use_lab key w h last_frame (Frame1Array st').
Proof.
  induction todo as [|cur todo IH];
    intros processed prev st Hsaved Hlast Hsizes Hdelays Hprev Hnum.
  - exists st, []. simpl. rewrite app_nil_r, Nat.add_0_r.
    repeat split; try done. eauto.
  - apply Forall_cons in Hsizes as [Hsize Hsizes].
    cbn [length seq for_each].
    destruct (encode_frame_Ok (S (length processed)) st prev cur)
      as (st1 & d & -> & Hcur & Hnum1 & Hfile1 & Hdelta); try done.
    { rewrite Hsaved. simpl. rewrite Nat.sub_0_r.
      rewrite lookup_app_r by lia. by rewrite Nat.sub_diag. }
    { rewrite Hsaved, length_app in Hdelays. simpl in *. lia. }
    cbn [mbind result_bind].
    destruct (IH (processed ++ [cur]) cur st1)
      as (st' & blocks & Hrun & Hnum' & Hlen & Hfile & Hblocks & Hlastf);
      try done.
    { by rewrite <- app_assoc. }
    { apply last_snoc. }
    { rewrite Hnum1, Hnum, length_app. simpl. lia. }
    rewrite length_app in Hrun, Hnum', Hfile. simpl in Hrun, Hnum', Hfile.
    replace (length processed + 1)%nat with (S (length processed)) in * by lia.
    exists st', (d :: blocks). split; [done|].
    split; [lia|]. split; [simpl; lia|]. split.
    + rewrite Hfile, Hfile1, Hnum. cbn [imap concat].
      replace (S (length processed) - 1)%nat with (length processed) by lia.
      rewrite Nat.add_0_r, <- app_assoc. do 3 f_equal.
      apply imap_ext. intros i b _. unfold compose.
      by rewrite Nat.add_succ_r.
    + split.
      * intros [|i] p c Hp Hc; simpl in *.
        -- injection Hp as <-. injection Hc as <-. eauto.
        -- by apply Hblocks.
      * destruct Hlastf as (lf & Hlf & Hholds). exists lf. split; [|done].
        by rewrite last_cons, Hlf.
Qed.

End FrameMaps.

Lemma NoDup_singleton_only {A} (l : list A) (t : A) :
  NoDup l -> (forall e, e ∈ l <-> e = t) -> l = [t].
Proof.
  intros Hnd Hel. destruct l as [|a l].
  - destruct (Hel t) as [_ Ht]. specialize (Ht eq_refl). by apply elem_of_nil in Ht.
  - assert (a = t) as -> by (apply Hel; left).
    destruct l as [|b l]; [done|].
    assert (b = t) as -> by (apply Hel; right; left).
    apply NoDup_cons in Hnd as [Hnotin _]. destruct Hnotin. left.
Qed.

Section FrameDeltas.
Context `{External}.

Lemma delta_between_identical use_lab (key : color_key) w h (prev cur : image) d :
  delta_between use_lab key w h prev cur d ->
  (forall xy, frame_color use_lab key cur xy = frame_color use_lab key prev xy) ->
  d = [].
Proof.
  intros [_ Hel] Hsame. destruct d as [|[[x y] c] d]; [done|].
  destruct (Hel x y c) as [Hin _].
  destruct Hin as (_ & _ & _ & Hne); [left|]. by destruct Hne.
Qed.

Lemma delta_between_single use_lab (key : color_key) w h (prev cur : image) d
    (x0 y0 : nat) :
  delta_between use_lab key w h prev cur d ->
  (x0 < w)%nat -> (y0 < h)%nat ->
  (forall x y, (x < w)%nat -> (y < h)%nat ->
     frame_color use_lab key cur (x, y) ≠ frame_color use_lab key prev (x, y)
     <-> (x, y) = (x0, y0)) ->
  d = [(x0, y0, frame_color use_lab key cur (x0, y0))].
Proof.
  intros [Hnd Hel] Hx0 Hy0 Hone.
  apply NoDup_singleton_only; [by apply NoDup_fmap_1 in Hnd|].
  intros [[x y] c]. rewrite Hel. split.
  - intros (Hx & Hy & -> & Hne). apply Hone in Hne; [|done..].
    by injection Hne as -> ->.
  - intros [= -> -> ->]. repeat split; [done..|]. by apply Hone.
Qed.

(** C3. For a sequence of frames of one size and a non-empty palette
    the encoder succeeds and [frames.txt] is one block per frame after
    the first, numbered from 1, followed by the closing block. The
    block of a frame has no coordinate twice and holds a line for
    exactly the coordinates whose value (colour number, or -1 for a
    pixel that is not kept) differs from the value in the frame just
    before it, with the new value. So two equal consecutive frames give
    a header only, and frames that differ at one coordinate give one
    line. *)
Theorem frame_deltas (O : set_order) (use_lab : bool) (key : color_key)
    (first : image) (rest : list image) (delays : list Z) :
  key ≠ [] ->
  Forall (frame_of_size (width first) (height first)) (first :: rest) ->
  length delays = S (length rest) ->
  exists out uniform_delay blocks closing,
    encode_gif O use_lab key (first :: rest) (S (length rest)) delays = Ok out
    /\ uniform_delay_of delays = Ok uniform_delay
    /\ length blocks = length rest
    /\ frames_txt out =
       concat (imap (fun k d =>
                 block_lines
                   (frame_header (S k) (delay_field uniform_delay delays (S k)))
                   d) blocks)
       ++ block_lines
            (frame_header (S (length rest)) (delay_field uniform_delay delays 0))
            closing
    /\ forall k prev cur,
         (first :: rest) !! k = Some prev -> rest !! k = Some cur ->
         exists d,
           blocks !! k = Some d
           /\ delta_between use_lab key (width first) (height first) prev cur d
           /\ ((forall xy, frame_color use_lab key cur xy
                           = frame_color use_lab key prev xy) ->
               forall header, block_lines header d = [header])
           /\ (forall x0 y0,
                 (x0 < width first)%nat -> (y0 < height first)%nat ->
                 (forall x y, (x < width first)%nat -> (y < height first)%nat ->
                    frame_color use_lab key cur (x, y)
                    ≠ frame_color use_lab key prev (x, y)
                    <-> (x, y) = (x0, y0)) ->
                 forall header,
                   block_lines header d =
                   [header;
                    point_line x0 y0 (frame_color use_lab key cur (x0, y0))]).
Proof.
  intros Hkey Hsizes Hdelays.
  pose proof Hsizes as [Hfirst Hrest]%Forall_cons.
  destruct delays as [|d0 delays']; [done|].
  unfold encode_gif.
  assert (Hud : exists ud, uniform_delay_of (d0 :: delays') = Ok ud)
    by (unfold uniform_delay_of; simpl; eauto).
  destruct Hud as [ud Hud]. rewrite Hud. cbn [mbind result_bind lookup list_lookup].
  destruct (encode_first_frame_Ok use_lab key (width first) (height first)
              Hkey first (S (length rest)) ud Hfirst)
    as (m1 & stamp_file & -> & Hm1).
  cbn [mbind result_bind]. rewrite Nat.sub_succ, Nat.sub_0_r.
  destruct (encode_frames_Ok O use_lab key (width first) (height first) Hkey
              (first :: rest) (d0 :: delays') ud rest [first] first
              {| Frame1Array := m1; frames_file := []; header_frame_number := 1 |})
    as (st' & blocks & Hrun & Hnum & Hlen & Hfile & Hblocks & _); try done.
  { simpl in *. lia. }
  simpl length in Hrun. rewrite Hrun. cbn [mbind result_bind].
  unfold encode_closing.
  assert (Hheader :
    (if ud =? -1
     then frame_delay ← index (d0 :: delays') 0;
          Ok (frame_header (header_frame_number st') (Some frame_delay))
     else Ok (frame_header (header_frame_number st') None))
    = Ok (frame_header (header_frame_number st')
            (delay_field ud (d0 :: delays') 0))).
  { unfold delay_field. by destruct (ud =? -1). }
  rewrite Hheader. cbn [mbind result_bind].
  eexists _, ud, blocks, (closing_diffs O m1 (Frame1Array st')).
  split; [done|]. split; [done|]. split; [done|]. split.
  - cbn [frames_txt]. rewrite write_diffs_lines, Hfile, Hnum.
    cbn [frames_file length Nat.add app]. unfold block_lines.
    rewrite <- app_assoc. done.
  - intros k prev cur Hprev Hcur.
    destruct (Hblocks k prev cur Hprev Hcur) as (d & Hd & Hdelta).
    exists d. split; [done|]. split; [done|]. split.
    + intros Hsame header.
      by rewrite (delta_between_identical _ _ _ _ _ _ _ Hdelta Hsame).
    + intros x0 y0 Hx0 Hy0 Hone header.
      by rewrite (delta_between_single _ _ _ _ _ _ _ _ _ Hdelta Hx0 Hy0 Hone).
Qed.

End FrameDeltas.

Lemma frame_deltas_witness :
  exists out uniform_delay blocks closing,
    @encode_gif rgb_only elements_order false white_black
      ([[opaque_white; opaque_black]] :: [[[opaque_white; opaque_white]]])
      2 [100; 40] = Ok out
    /\ uniform_delay_of [100; 40] = Ok uniform_delay
    /\ length blocks = 1%nat
    /\ frames_txt out =
       concat (imap (fun k d =>
                 block_lines
                   (frame_header (S k) (delay_field uniform_delay [100; 40] (S k)))
                   d) blocks)
       ++ block_lines
            (frame_header 2 (delay_field uniform_delay [100; 40] 0))
            closing
    /\ forall k prev cur,
         ([[opaque_white; opaque_black]] :: [[[opaque_white; opaque_white]]]) !! k
           = Some prev ->
         [[[opaque_white; opaque_white]]] !! k = Some cur ->
         exists d,
           blocks !! k = Some d
           /\ @delta_between rgb_only false white_black 2 1 prev cur d
           /\ ((forall xy, @frame_color rgb_only false white_black cur xy
                           = @frame_color rgb_only false white_black prev xy) ->
               forall header, block_lines header d = [header])
           /\ (forall x0 y0,
                 (x0 < 2)%nat -> (y0 < 1)%nat ->
                 (forall x y, (x < 2)%nat -> (y < 1)%nat ->
                    @frame_color rgb_only false white_black cur (x, y)
                    ≠ @frame_color rgb_only false white_black prev (x, y)
                    <-> (x, y) = (x0, y0)) ->
                 forall header,
                   block_lines header d =
                   [header;
                    point_line x0 y0
                      (@frame_color rgb_only false white_black cur (x0, y0))]).
Proof.
  apply (@frame_deltas rgb_only elements_order false white_black
           [[opaque_white; opaque_black]] [[[opaque_white; opaque_white]]]
           [100; 40]).
  - done.
  - repeat constructor.
  - done.
Defined.

(** Three 2x1 frames: the second equals the first, the third changes the
    right pixel from black to white; delays differ. *)
Example frame_deltas_example :
  @encode_gif rgb_only elements_order false white_black
    [[[opaque_white; opaque_black]]; [[opaque_white; opaque_black]];
     [[opaque_white; opaque_white]]] 3 [100; 40; 40]
  = Ok {| stamp_txt := ["0.2,0.1,gif,3,-1"; "0.0,0.0,0"; "0.1,0.0,1"];
          frames_txt := ["frame,1,40"; "frame,2,40"; "0.1,0.0,0";
                         "frame,3,100"; "0.1,0.0,1"] |}.
Proof. vm_compute. reflexivity. Qed.

(** ** Dithering: alpha and frozen pixels *)

Lemma getpixel_putpixel_cases (t : image) (x y : nat) (p : pixel) (x' y' : nat) :
  (getpixel (putpixel t x y p) x' y' = p /\ x = x' /\ y = y')
  \/ getpixel (putpixel t x y p) x' y' = getpixel t x' y'.
Proof.
  unfold getpixel. rewrite lookup_putpixel. case_decide as Hd.
  - left. by destruct Hd as (-> & -> & _).
  - by right.
Qed.

Lemma frozen_kept_refl (img : image) : frozen_kept img img.
Proof. by intros x y. Qed.

(** Writing a pixel that keeps its alpha, at a place that is not frozen. *)
Lemma frozen_kept_putpixel (img t : image) (x y : nat) (p : pixel) :
  frozen_kept img t ->
  pA p = pA (getpixel t x y) ->
  pA (getpixel img x y) ≠ 0 ->
  frozen_kept img (putpixel t x y p).
Proof.
  intros Ht Hp Hsolid x' y'.
  destruct (getpixel_putpixel_cases t x y p x' y') as [(-> & <- & <-) | ->].
  - rewrite Hp. destruct (Ht x y) as [-> _]. split; [done|]. by intros ?.
  - apply Ht.
Qed.

Lemma alpha_mask_solid (img : image) (x y : nat) :
  alpha_mask img y x = true -> pA (getpixel img x y) ≠ 0.
Proof. unfold alpha_mask. rewrite Z.gtb_lt. lia. Qed.

Lemma pA_with_rgb (c : rgb) (p : pixel) : pA (with_rgb c p) = pA p.
Proof. by destruct c as [[r g] b]. Qed.

Lemma pA_add_error (p : pixel) (e : Q * Q * Q) (c : Q) : pA (add_error p e c) = pA p.
Proof. by destruct e as [[e0 e1] e2]. Qed.

Lemma clip_uint8_byte (v : Z) : is_byte v -> clip_uint8 v = v.
Proof.
  intros Hv. unfold clip_uint8. rewrite to_uint8_byte; unfold is_byte in *; lia.
Qed.

Lemma clip_pixel_byte (p : pixel) : byte_pixel p -> clip_pixel p = p.
Proof.
  intros (Hr & Hg & Hb & Ha). destruct p as [r g b a]. unfold clip_pixel. simpl in *.
  by rewrite !clip_uint8_byte.
Qed.

Lemma getpixel_clip_image (t : image) (x y : nat) :
  getpixel (clip_image t) x y = clip_pixel (getpixel t x y).
Proof.
  unfold clip_image, getpixel. rewrite list_lookup_fmap.
  destruct (t !! y) as [row|]; simpl; [|done].
  change (map clip_pixel row) with (clip_pixel <$> row). rewrite list_lookup_fmap.
  by destruct (row !! x).
Qed.

(** The final [np.clip(...).astype(np.uint8)] changes nothing of what is
    kept. *)
Lemma frozen_kept_clip_image (img t : image) :
  byte_image img -> frozen_kept img t -> frozen_kept img (clip_image t).
Proof.
  intros Hbyte Ht x y. rewrite getpixel_clip_image.
  destruct (Ht x y) as [Ha Hfrozen].
  pose proof (byte_getpixel img x y Hbyte) as Hb.
  split.
  - simpl. rewrite Ha. apply clip_uint8_byte. apply Hb.
  - intros H0. rewrite (Hfrozen H0). by apply clip_pixel_byte.
Qed.

Section FrozenPixels.
Context `{External}.

(** The inner loop of the array-based dithering never writes where the
    mask is off and keeps every alpha value. *)
Lemma frozen_kept_diffuse (img t : image) (w h x y : nat)
    (quant_error : Q * Q * Q) (diffusion_matrix : kernel) :
  frozen_kept img t ->
  frozen_kept img
    (diffuse (alpha_mask img) w h x y quant_error diffusion_matrix t).
Proof.
  intros Ht. unfold diffuse. apply foldl_invariant; [done|].
  intros arr [[dx dy] coeff] Harr.
  destruct (in_bounds w h _ _ && alpha_mask img _ _) eqn:Hc; [|done].
  apply andb_true_iff in Hc as [_ Hmask].
  apply frozen_kept_putpixel; [done|apply pA_add_error|].
  by apply alpha_mask_solid.
Qed.

Lemma frozen_kept_diffusion_step (img t t' : image) use_lab values_rgb values_lab
    strength matrix_at (w h y x : nat) :
  frozen_kept img t ->
  diffusion_step use_lab values_rgb values_lab strength matrix_at
    (alpha_mask img) w h y x t = Ok t' ->
  frozen_kept img t'.
Proof.
  intros Ht. unfold diffusion_step.
  destruct (alpha_mask img y x) eqn:Hmask; simpl; [|by intros [= <-]].
  intros (idx & _ & (new_pixel & _ & [= <-])%bind_Ok)%bind_Ok.
  apply frozen_kept_diffuse. apply frozen_kept_putpixel; [done|apply pA_with_rgb|].
  by apply alpha_mask_solid.
Qed.

Lemma for_range_invariant {S} (I : S -> Prop) (n : nat)
    (body : nat -> S -> result S) (s s' : S) :
  I s -> (forall i t t', I t -> body i t = Ok t' -> I t') ->
  for_range n body s = Ok s' -> I s'.
Proof.
  intros Hs Hbody. unfold for_range. apply for_each_invariant; [done|].
  intros; by eapply Hbody.
Qed.

Lemma frozen_kept_diffusion_loop (img out : image) use_lab values_rgb values_lab
    strength matrix_at (w h : nat) :
  diffusion_loop use_lab values_rgb values_lab strength matrix_at
    (alpha_mask img) w h img = Ok out ->
  frozen_kept img out.
Proof.
  unfold diffusion_loop.
  apply (for_range_invariant (frozen_kept img)); [apply frozen_kept_refl|].
  intros y t t' Ht.
  apply (for_range_invariant (frozen_kept img)); [done|].
  intros x u u' Hu. by apply frozen_kept_diffusion_step.
Qed.

Lemma frozen_kept_optimized (img out : image) use_lab (key : color_key)
    strength diffusion_matrix :
  byte_image img ->
  optimized_error_diffusion_dithering use_lab img key strength diffusion_matrix
  = Ok out ->
  frozen_kept img out.
Proof.
  intros Hbyte. unfold optimized_error_diffusion_dithering.
  intros (values_lab & _ & (arr & Hloop & [= <-])%bind_Ok)%bind_Ok.
  apply frozen_kept_clip_image; [done|].
  by apply frozen_kept_diffusion_loop in Hloop.
Qed.

Lemma frozen_kept_hybrid (img out : image) use_lab (key : color_key) p :
  byte_image img ->
  hybrid_dithering use_lab img key p = Ok out -> frozen_kept img out.
Proof.
  intros Hbyte. unfold hybrid_dithering.
  intros (values_lab & _ & (arr & Hloop & [= <-])%bind_Ok)%bind_Ok.
  apply frozen_kept_clip_image; [done|].
  by apply frozen_kept_diffusion_loop in Hloop.
Qed.

Lemma frozen_kept_ordered (img out : image) use_lab (key : color_key) p :
  byte_image img ->
  ordered_dithering use_lab img key p = Ok out -> frozen_kept img out.
Proof.
  intros Hbyte. unfold ordered_dithering.
  intros (values_lab & _ & (arr & Hloop & [= <-])%bind_Ok)%bind_Ok.
  apply frozen_kept_clip_image; [done|].
  revert Hloop.
  apply (for_range_invariant (frozen_kept img)); [apply frozen_kept_refl|].
  intros y t t' Ht.
  apply (for_range_invariant (frozen_kept img)); [done|].
  intros x u u' Hu. unfold ordered_step.
  destruct (alpha_mask img y x) eqn:Hmask; simpl; [|by intros [= <-]].
  intros (idx & _ & (new_pixel & _ & [= <-])%bind_Ok)%bind_Ok.
  apply frozen_kept_putpixel; [done|apply pA_with_rgb|].
  by apply alpha_mask_solid.
Qed.

(** [distribute_error] never writes a pixel whose alpha is 0 and keeps
    every alpha value. *)
Lemma frozen_kept_distribute_error (img pixels : image) (x y w h : nat)
    (quant_error : Q * Q * Q) (diffusion_matrix : kernel) :
  frozen_kept img pixels ->
  frozen_kept img (distribute_error pixels x y w h quant_error diffusion_matrix).
Proof.
  intros Ht. unfold distribute_error. apply foldl_invariant; [done|].
  intros arr [[dx dy] coeff] Harr.
  destruct (in_bounds w h _ _); [|done].
  destruct (pA (getpixel arr _ _) =? 0) eqn:Ha; [done|].
  apply Z.eqb_neq in Ha.
  apply frozen_kept_putpixel; [done|apply pA_add_error|].
  by destruct (Harr (Z.to_nat (Z.of_nat x + dx)) (Z.to_nat (Z.of_nat y + dy)))
    as [<- _].
Qed.

Lemma frozen_kept_error_diffusion (img out : image) use_lab (key : color_key)
    strength diffusion_matrix :
  error_diffusion_dithering use_lab img key strength diffusion_matrix = Ok out ->
  frozen_kept img out.
Proof.
  unfold error_diffusion_dithering.
  apply (for_range_invariant (frozen_kept img)); [apply frozen_kept_refl|].
  intros y t t' Ht.
  apply (for_range_invariant (frozen_kept img)); [done|].
  intros x u u' Hu. unfold error_diffusion_step.
  destruct (pA (getpixel u x y) =? 0) eqn:Ha; [by intros [= <-]|].
  apply Z.eqb_neq in Ha.
  intros (n & _ & (new_pixel & _ & [= <-])%bind_Ok)%bind_Ok.
  apply frozen_kept_distribute_error.
  apply frozen_kept_putpixel; [done|apply pA_with_rgb|].
  by destruct (Hu x y) as [<- _].
Qed.

Lemma frozen_kept_random (img out : image) use_lab (key : color_key) p g g' :
  random_dithering use_lab img key p g = Ok (out, g') -> frozen_kept img out.
Proof.
  unfold random_dithering. intros Hloop.
  change out with (out, g').1. revert Hloop.
  apply (for_range_invariant (fun st : image * rng => frozen_kept img st.1));
    [apply frozen_kept_refl|].
  intros y t t' Ht.
  apply (for_range_invariant (fun st : image * rng => frozen_kept img st.1));
    [done|].
  intros x [u gu] u' Hu. unfold random_step. simpl in Hu.
  destruct (pA (getpixel u x y) =? 0) eqn:Ha; [by intros [= <-]|].
  apply Z.eqb_neq in Ha.
  intros ([noisy g1] & _ & (n & _ & (new_pixel & _ & [= <-])%bind_Ok)%bind_Ok)%bind_Ok.
  simpl. apply frozen_kept_putpixel; [done|apply pA_with_rgb|].
  by destruct (Hu x y) as [<- _].
Qed.

End FrozenPixels.

(** ** Dithering: the functions return *)

Lemma for_range_total {S} (n : nat) (body : nat -> S -> result S) (s : S) :
  (forall i t, exists t', body i t = Ok t') ->
  exists s', for_range n body s = Ok s'.
Proof.
  intros Hbody. unfold for_range.
  destruct (for_each_total (fun _ => True) (range n) body s) as (s' & Hs' & _);
    [done| |eauto].
  intros i t _ _. destruct (Hbody i t) as [t' Ht']. eauto.
Qed.

Lemma argmin_lt (l : list Z) :
  l ≠ [] -> exists i, argmin l = Ok i /\ (i < length l)%nat.
Proof.
  intros Hl. destruct (argmin_first_min l Hl) as (i & Hi & d & Hd & _).
  exists i. split; [done|]. by eapply lookup_lt_Some.
Qed.

Lemma dict_get_Ok (key : color_key) (n : Z) (i : nat) :
  key.*1 !! i = Some n -> exists c, dict_get key n = Ok c.
Proof.
  revert i. induction key as [|[k c] key IH]; intros i Hi; [done|]. simpl.
  case_decide as Hk; [eauto|].
  destruct i as [|i]; simpl in Hi; [by injection Hi|]. eauto.
Qed.

Lemma random_normal_Ok (loc scale : Q) (g : rng) :
  (0 <= scale)%Q -> exists v g', random_normal loc scale g = Ok (v, g').
Proof.
  intros Hscale. unfold random_normal, Qlt_bool.
  apply Qle_bool_iff in Hscale. rewrite Hscale. simpl. eauto.
Qed.

Section DitheringReturns.
Context `{External}.
Variables (use_lab : bool) (key : color_key).
Hypothesis key_nonempty : key ≠ [].

Lemma palette_lab_Ok :
  exists values_lab,
    palette_lab use_lab key = Ok values_lab
    /\ (use_lab = true -> length values_lab = length (color_values_rgb key)).
Proof.
  unfold palette_lab. destruct use_lab.
  - rewrite rgb_palette_to_lab_Ok by done. eexists. split; [done|].
    intros _. by rewrite length_fmap.
  - eexists. split; [done|]. done.
Qed.

Lemma closest_color_func_Ok (values_lab : list rgb) (p : rgb) :
  (use_lab = true -> length values_lab = length (color_values_rgb key)) ->
  exists idx c,
    closest_color_func use_lab (color_values_rgb key) values_lab p = Ok idx
    /\ index (color_values_rgb key) idx = Ok c.
Proof.
  intros Hlab.
  pose proof (color_values_rgb_nonempty key key_nonempty) as Hne.
  assert (exists idx, closest_color_func use_lab (color_values_rgb key) values_lab p
                      = Ok idx /\ (idx < length (color_values_rgb key))%nat)
    as (idx & Hidx & Hlt).
  { unfold closest_color_func. destruct use_lab.
    - destruct (argmin_lt ((fun c => dist_sq c
                    (cvtColor_RGB2LAB (rgb_to_uint8 p))) <$> values_lab))
        as (i & Hi & Hlt).
      + specialize (Hlab eq_refl). destruct values_lab; [|done].
        destruct (color_values_rgb key); done.
      + exists i. split; [done|]. rewrite length_fmap in Hlt. by rewrite <- Hlab.
    - destruct (argmin_lt ((fun c => dist_sq c p) <$> color_values_rgb key))
        as (i & Hi & Hlt).
      + by destruct (color_values_rgb key).
      + exists i. split; [done|]. by rewrite length_fmap in Hlt. }
  destruct (lookup_lt_is_Some_2 _ _ Hlt) as [c Hc].
  exists idx, c. split; [done|]. unfold index. unfold rgb in *. by rewrite Hc.
Qed.

Lemma diffusion_loop_Ok (values_lab : list rgb) strength matrix_at mask w h img :
  (use_lab = true -> length values_lab = length (color_values_rgb key)) ->
  exists out,
    diffusion_loop use_lab (color_values_rgb key) values_lab strength matrix_at
      mask w h img = Ok out.
Proof.
  intros Hlab. unfold diffusion_loop. apply for_range_total. intros y t.
  apply for_range_total. intros x u. unfold diffusion_step.
  destruct (mask y x); simpl; [|eauto].
  destruct (closest_color_func_Ok values_lab (pixel_rgb (getpixel u x y)) Hlab)
    as (idx & c & -> & Hc).
  simpl. unfold rgb in *. rewrite Hc. simpl. eauto.
Qed.

Lemma optimized_error_diffusion_dithering_Ok img strength diffusion_matrix :
  exists out,
    optimized_error_diffusion_dithering use_lab img key strength diffusion_matrix
    = Ok out.
Proof.
  unfold optimized_error_diffusion_dithering.
  destruct palette_lab_Ok as (values_lab & -> & Hlab). simpl.
  destruct (diffusion_loop_Ok values_lab strength (fun _ _ => diffusion_matrix)
              (alpha_mask img) (width img) (height img) img Hlab) as [out ->].
  simpl. eauto.
Qed.

Lemma hybrid_dithering_Ok img p :
  exists out, hybrid_dithering use_lab img key p = Ok out.
Proof.
  unfold hybrid_dithering.
  destruct palette_lab_Ok as (values_lab & -> & Hlab). simpl.
  destruct (diffusion_loop_Ok values_lab (get_strength p) (hybrid_matrix_at img)
              (alpha_mask img) (width img) (height img) img Hlab) as [out ->].
  simpl. eauto.
Qed.

Lemma ordered_dithering_Ok img p :
  exists out, ordered_dithering use_lab img key p = Ok out.
Proof.
  unfold ordered_dithering.
  destruct palette_lab_Ok as (values_lab & -> & Hlab). simpl.
  match goal with |- context [for_range ?n ?b ?s] =>
    destruct (for_range_total n b s) as [out ->]
  end; [|simpl; eauto].
  intros y t. apply for_range_total. intros x u. unfold ordered_step.
  destruct (alpha_mask img y x); simpl; [|eauto].
  match goal with |- context [closest_color_func _ _ _ ?q] =>
    destruct (closest_color_func_Ok values_lab q Hlab) as (idx & c & -> & Hc)
  end.
  simpl. unfold rgb in *. rewrite Hc. simpl. eauto.
Qed.

Lemma find_closest_color_dict (p : rgb) :
  exists n c, find_closest_color use_lab p key = Ok n /\ dict_get key n = Ok c.
Proof.
  destruct (find_closest_color_nearest use_lab p key key_nonempty)
    as (n & Hn & Hi & _).
  destruct (dict_get_Ok key n _ Hi) as [c Hc]. eauto.
Qed.

Lemma error_diffusion_dithering_Ok img strength diffusion_matrix :
  exists out,
    error_diffusion_dithering use_lab img key strength diffusion_matrix = Ok out.
Proof.
  unfold error_diffusion_dithering. apply for_range_total. intros y t.
  apply for_range_total. intros x u. unfold error_diffusion_step.
  destruct (pA (getpixel u x y) =? 0); [eauto|].
  destruct (find_closest_color_dict (pixel_rgb (getpixel u x y)))
    as (n & c & -> & Hc).
  simpl. rewrite Hc. simpl. eauto.
Qed.

Lemma noisy_pixel_of_Ok (noise_std : Q) (old_pixel_rgb : rgb) (g : rng) :
  (0 <= noise_std)%Q ->
  exists noisy g', noisy_pixel_of use_lab noise_std old_pixel_rgb g = Ok (noisy, g').
Proof.
  intros Hstd. unfold noisy_pixel_of.
  assert (0 <= noise_std * (1 # 2))%Q as Hhalf by lra.
  assert (0 <= noise_std * (1 # 4))%Q as Hquarter by lra.
  destruct use_lab.
  - destruct (rgb_to_lab_single old_pixel_rgb) as [[l0 a0] b0].
    destruct (random_normal_Ok 0 _ g Hhalf) as (n0 & g0 & ->). simpl.
    destruct (random_normal_Ok 0 _ g0 Hquarter) as (n1 & g1 & ->). simpl.
    destruct (random_normal_Ok 0 _ g1 Hquarter) as (n2 & g2 & ->). simpl.
    eauto.
  - destruct old_pixel_rgb as [[r0 g0'] b0].
    destruct (random_normal_Ok 0 _ g Hstd) as (n0 & g0 & ->). simpl.
    destruct (random_normal_Ok 0 _ g0 Hstd) as (n1 & g1 & ->). simpl.
    destruct (random_normal_Ok 0 _ g1 Hstd) as (n2 & g2 & ->). simpl.
    eauto.
Qed.

Lemma random_dithering_Ok img p g :
  (0 <= get_strength p)%Q ->
  exists out g', random_dithering use_lab img key p g = Ok (out, g').
Proof.
  intros Hstrength. unfold random_dithering.
  assert (0 <= 32 * get_strength p)%Q as Hstd by lra.
  match goal with |- context [for_range ?n ?b ?s] =>
    destruct (for_range_total n b s) as [[out g'] ->]
  end; [|eauto].
  intros y t. apply for_range_total. intros x [u gu]. unfold random_step.
  destruct (pA (getpixel u x y) =? 0); [eauto|].
  destruct (noisy_pixel_of_Ok _ (pixel_rgb (getpixel u x y)) gu Hstd)
    as (noisy & g1 & ->). simpl.
  destruct (find_closest_color_dict noisy) as (n & c & -> & Hc).
  simpl. rewrite Hc. simpl. eauto.
Qed.

End DitheringReturns.

Section DitheringVariants.
Context `{External}.

(** What [process_image] runs for a registered dithering name. *)
Lemma process_image_dithering use_lab (img : image) (key : color_key)
    (mode : string) (p : params) (g : rng) :
  mode ∈ dithering_methods ->
  process_image use_lab img key mode p g
  = random_dithering use_lab img key p g
  \/ exists f,
       process_image use_lab img key mode p g
       = (out ← f; Ok (out, g))
       /\ (f = hybrid_dithering use_lab img key p
           \/ f = ordered_dithering use_lab img key p
           \/ exists diffusion_matrix,
                f = optimized_error_diffusion_dithering use_lab img key
                      (get_strength p) diffusion_matrix).
Proof.
  unfold dithering_methods. intros Hmode.
  repeat (apply elem_of_cons in Hmode as [->|Hmode]);
    [..|by apply elem_of_nil in Hmode].
  - right. eexists. split; [reflexivity|]. by left.
  - right. eexists. split; [reflexivity|]. right. by left.
  - right. eexists. split; [reflexivity|]. right. right. by eexists.
  - right. eexists. split; [reflexivity|]. right. right. by eexists.
  - right. eexists. split; [reflexivity|]. right. right. by eexists.
  - right. eexists. split; [reflexivity|]. right. right. by eexists.
  - right. eexists. split; [reflexivity|]. right. right. by eexists.
  - by left.
Qed.

(** C5. Every dithering variant keeps the alpha value of every pixel
    and leaves a pixel whose alpha is 0 as it was; the loops that
    spread the quantization error never write such a pixel; and with a
    non-empty palette (and a strength that is not negative) every
    variant returns an image. *)
Theorem dithering_keeps_alpha_and_frozen_pixels (use_lab : bool)
    (img : image) (key : color_key) :
  byte_image img ->
  (forall mode p g out g',
     mode ∈ dithering_methods ->
     process_image use_lab img key mode p g = Ok (out, g') ->
     frozen_kept img out)
  /\ (forall strength diffusion_matrix out,
        optimized_error_diffusion_dithering use_lab img key strength
          diffusion_matrix = Ok out ->
        frozen_kept img out)
  /\ (forall strength diffusion_matrix out,
        error_diffusion_dithering use_lab img key strength diffusion_matrix
        = Ok out ->
        frozen_kept img out)
  /\ (forall t w h x y quant_error diffusion_matrix,
        frozen_kept img t ->
        frozen_kept img
          (diffuse (alpha_mask img) w h x y quant_error diffusion_matrix t)
        /\ frozen_kept img
             (distribute_error t x y w h quant_error diffusion_matrix))
  /\ (key ≠ [] ->
      forall mode p g,
        mode ∈ dithering_methods -> (0 <= get_strength p)%Q ->
        exists out g', process_image use_lab img key mode p g = Ok (out, g')).
Proof.
  intros Hbyte. split; [|split; [|split; [|split]]].
  - intros mode p g out g' Hmode.
    destruct (process_image_dithering use_lab img key mode p g Hmode)
      as [->|(f & -> & Hf)].
    + apply frozen_kept_random.
    + intros (out' & Hout & [= <- <-])%bind_Ok.
      destruct Hf as [->|[->|[diffusion_matrix ->]]].
      * by eapply frozen_kept_hybrid.
      * by eapply frozen_kept_ordered.
      * by eapply frozen_kept_optimized.
  - intros strength diffusion_matrix out. by apply frozen_kept_optimized.
  - intros strength diffusion_matrix out. apply frozen_kept_error_diffusion.
  - intros t w h x y quant_error diffusion_matrix Ht. split.
    + by apply frozen_kept_diffuse.
    + by apply frozen_kept_distribute_error.
  - intros Hkey mode p g Hmode Hstrength.
    destruct (process_image_dithering use_lab img key mode p g Hmode)
      as [->|(f & -> & Hf)].
    + by apply random_dithering_Ok.
    + assert (exists out, f = Ok out) as [out ->]; [|simpl; eauto].
      destruct Hf as [->|[->|[diffusion_matrix ->]]].
      * by apply hybrid_dithering_Ok.
      * by apply ordered_dithering_Ok.
      * by apply optimized_error_diffusion_dithering_Ok.
Qed.

End DitheringVariants.

Lemma dithering_keeps_alpha_and_frozen_pixels_witness :
  let img := [[Pixel 100 100 100 255; Pixel 10 20 30 0];
              [Pixel 200 100 50 128; Pixel 100 100 100 255]] in
  (forall mode p g out g',
     mode ∈ dithering_methods ->
     @process_image rgb_only false img white_black mode p g = Ok (out, g') ->
     frozen_kept img out)
  /\ (forall strength diffusion_matrix out,
        @optimized_error_diffusion_dithering rgb_only false img white_black
          strength diffusion_matrix = Ok out ->
        frozen_kept img out)
  /\ (forall strength diffusion_matrix out,
        @error_diffusion_dithering rgb_only false img white_black strength
          diffusion_matrix = Ok out ->
        frozen_kept img out)
  /\ (forall t w h x y quant_error diffusion_matrix,
        frozen_kept img t ->
        frozen_kept img
          (diffuse (alpha_mask img) w h x y quant_error diffusion_matrix t)
        /\ frozen_kept img
             (distribute_error t x y w h quant_error diffusion_matrix))
  /\ (white_black ≠ [] ->
      forall mode p g,
        mode ∈ dithering_methods -> (0 <= get_strength p)%Q ->
        exists out g',
          @process_image rgb_only false img white_black mode p g = Ok (out, g')).
Proof.
  apply (@dithering_keeps_alpha_and_frozen_pixels rgb_only false
           [[Pixel 100 100 100 255; Pixel 10 20 30 0];
            [Pixel 200 100 50 128; Pixel 100 100 100 255]] white_black).
  repeat constructor; simpl; lia.
Defined.

(** Atkinson dithering of a 2x2 image with one fully transparent pixel:
    the transparent pixel keeps its RGB values. *)
Example atkinson_example :
  @process_image rgb_only false
    [[Pixel 100 100 100 255; Pixel 10 20 30 0];
     [Pixel 200 100 50 128; Pixel 100 100 100 255]]
    white_black "Atkinson Dither" ∅ (constant_rng 0)
  = Ok ([[Pixel 0 0 0 255; Pixel 10 20 30 0];
         [Pixel 255 255 255 128; Pixel 0 0 0 255]], constant_rng 0).
Proof. vm_compute. reflexivity. Qed.

(** ** Empty palette *)





Section EmptyPalette.
Context `{External}.






End EmptyPalette.


(** ** Determinism and the generator *)

Lemma result_rel_bind {A B} (RA : A -> A -> Prop) (RB : B -> B -> Prop)
    (m1 m2 : result A) (f1 f2 : A -> result B) :
  result_rel RA m1 m2 ->
  (forall a1 a2, RA a1 a2 -> result_rel RB (f1 a1) (f2 a2)) ->
  result_rel RB (m1 ≫= f1) (m2 ≫= f2).
Proof.
  intros Hm Hf. destruct m1 as [a1|e1], m2 as [a2|e2]; simpl in *; try done.
  by apply Hf.
Qed.

Lemma for_each_rel {A S} (R : S -> S -> Prop) (l : list A)
    (body : A -> S -> result S) (s1 s2 : S) :
  R s1 s2 ->
  (forall a t1 t2, R t1 t2 -> result_rel R (body a t1) (body a t2)) ->
  result_rel R (for_each l body s1) (for_each l body s2).
Proof.
  intros Hs Hbody. revert s1 s2 Hs.
  induction l as [|a l IH]; intros s1 s2 Hs; simpl; [done|].
  eapply result_rel_bind; [by apply Hbody|]. intros t1 t2 Ht. by apply IH.
Qed.

Lemma random_normal_same_stream (loc scale : Q) (g1 g2 : rng) :
  same_stream g1 g2 ->
  result_rel (fun r1 r2 => r1.1 = r2.1 /\ same_stream r1.2 r2.2)
    (random_normal loc scale g1) (random_normal loc scale g2).
Proof.
  intros Hg. unfold random_normal. destruct (Qlt_bool scale 0); simpl; [done|].
  split.
  - pose proof (Hg 0%nat) as H0. rewrite !Nat.add_0_r in H0. by rewrite H0.
  - intros i. simpl. pose proof (Hg (S i)) as Hi.
    by rewrite !Nat.add_succ_r in Hi.
Qed.

Section Determinism.
Context `{External}.

Lemma noisy_pixel_of_same_stream use_lab (noise_std : Q) (c : rgb) (g1 g2 : rng) :
  same_stream g1 g2 ->
  result_rel (fun r1 r2 => r1.1 = r2.1 /\ same_stream r1.2 r2.2)
    (noisy_pixel_of use_lab noise_std c g1)
    (noisy_pixel_of use_lab noise_std c g2).
Proof.
  intros Hg. unfold noisy_pixel_of. destruct use_lab.
  - destruct (rgb_to_lab_single c) as [[l0 a0] b0].
    eapply result_rel_bind; [by apply random_normal_same_stream|].
    intros [n0 h1] [n0' h2] [Hn0 Hh]. simpl in Hn0, Hh. subst n0'.
    eapply result_rel_bind; [by apply random_normal_same_stream|].
    intros [n1 k1] [n1' k2] [Hn1 Hk]. simpl in Hn1, Hk. subst n1'.
    eapply result_rel_bind; [by apply random_normal_same_stream|].
    intros [n2 j1] [n2' j2] [Hn2 Hj]. simpl in Hn2, Hj. subst n2'.
    by split.
  - destruct c as [[r0 g0] b0].
    eapply result_rel_bind; [by apply random_normal_same_stream|].
    intros [n0 h1] [n0' h2] [Hn0 Hh]. simpl in Hn0, Hh. subst n0'.
    eapply result_rel_bind; [by apply random_normal_same_stream|].
    intros [n1 k1] [n1' k2] [Hn1 Hk]. simpl in Hn1, Hk. subst n1'.
    eapply result_rel_bind; [by apply random_normal_same_stream|].
    intros [n2 j1] [n2' j2] [Hn2 Hj]. simpl in Hn2, Hj. subst n2'.
    by split.
Qed.

Lemma result_rel_eq {A} (r : result A) : result_rel eq r r.
Proof. by destruct r. Qed.

Lemma random_dithering_same_stream use_lab (img : image) (key : color_key)
    (p : params) (g1 g2 : rng) :
  same_stream g1 g2 ->
  result_rel (fun r1 r2 : image * rng => r1.1 = r2.1 /\ same_stream r1.2 r2.2)
    (random_dithering use_lab img key p g1)
    (random_dithering use_lab img key p g2).
Proof.
  intros Hg. unfold random_dithering, for_range.
  apply for_each_rel; [done|]. intros y t1 t2 Ht.
  apply for_each_rel; [done|]. intros x [u1 h1] [u2 h2] [Hu Hh].
  simpl in Hu, Hh. subst u2. unfold random_step.
  destruct (pA (getpixel u1 x y) =? 0); [done|].
  eapply result_rel_bind; [by apply noisy_pixel_of_same_stream|].
  intros [noisy k1] [noisy' k2] [Hn Hk]. simpl in Hn, Hk. subst noisy'.
  eapply result_rel_bind; [apply result_rel_eq|]. intros n ? <-.
  eapply result_rel_bind; [apply result_rel_eq|]. intros c ? <-.
  by split.
Qed.

(** Every method but ['Random Dither'] leaves the generator alone. *)
Lemma process_image_no_rng use_lab (img : image) (key : color_key)
    (mode : string) (p : params) :
  mode ≠ "Random Dither" ->
  exists f : result image,
    forall g, process_image use_lab img key mode p g = (out ← f; Ok (out, g)).
Proof.
  intros Hmode. unfold process_image, processing_method_registry.
  cbn [registry_get].
  repeat match goal with
         | |- context [String.eqb ?n mode] =>
             let Heq := fresh "Heq" in
             destruct (String.eqb n mode) eqn:Heq;
             [first [ by (eexists; intros g; reflexivity)
                    | apply String.eqb_eq in Heq; by destruct Hmode ]|]
         end.
  eexists; intros g; reflexivity.
Qed.

(** C8, as the code has it. [random_dithering] has no seed parameter: of
    its [params] it reads ['strength'] only, and its noise comes from the
    process-wide generator, so two runs give the same image when the
    generator is going to produce the same deviates. Every other method
    never consults the generator: its result is the same whatever the
    state of the generator, which it leaves as it was. *)
Theorem dithering_determinism (use_lab : bool) (img : image) (key : color_key) :
  (forall p1 p2 g,
     p1 !! "strength" = p2 !! "strength" ->
     random_dithering use_lab img key p1 g = random_dithering use_lab img key p2 g)
  /\ (forall p g1 g2,
        same_stream g1 g2 ->
        fst <$> random_dithering use_lab img key p g1
        = fst <$> random_dithering use_lab img key p g2)
  /\ (forall mode p g1 g2,
        mode ≠ "Random Dither" ->
        fst <$> process_image use_lab img key mode p g1
        = fst <$> process_image use_lab img key mode p g2
        /\ forall out g',
             process_image use_lab img key mode p g1 = Ok (out, g') -> g' = g1).
Proof.
  split; [|split].
  - intros p1 p2 g Hp. unfold random_dithering, get_strength. by rewrite Hp.
  - intros p g1 g2 Hg.
    pose proof (random_dithering_same_stream use_lab img key p g1 g2 Hg) as Hrel.
    destruct (random_dithering use_lab img key p g1) as [[o1 h1]|e1],
             (random_dithering use_lab img key p g2) as [[o2 h2]|e2];
      simpl in *; try done.
    + destruct Hrel as [-> _]. done.
    + by subst.
  - intros mode p g1 g2 Hmode.
    destruct (process_image_no_rng use_lab img key mode p Hmode) as [f Hf].
    rewrite !Hf. destruct f as [out|e]; simpl; [|done].
    split; [done|]. by intros ? ? [= _ <-].
Qed.

End Determinism.

Lemma dithering_determinism_witness :
  let img := [[Pixel 100 100 100 255]] in
  (forall p1 p2 g,
     p1 !! "strength" = p2 !! "strength" ->
     @random_dithering rgb_only false img white_black p1 g
     = @random_dithering rgb_only false img white_black p2 g)
  /\ (forall p g1 g2,
        same_stream g1 g2 ->
        fst <$> @random_dithering rgb_only false img white_black p g1
        = fst <$> @random_dithering rgb_only false img white_black p g2)
  /\ (forall mode p g1 g2,
        mode ≠ "Random Dither" ->
        fst <$> @process_image rgb_only false img white_black mode p g1
        = fst <$> @process_image rgb_only false img white_black mode p g2
        /\ forall out g',
             @process_image rgb_only false img white_black mode p g1
             = Ok (out, g') -> g' = g1).
Proof.
  apply (@dithering_determinism rgb_only false [[Pixel 100 100 100 255]]
           white_black).
Defined.

(** Two runs of the random dither on the same image, palette and
    parameters, a ['seed'] entry included, give different images when the
    generator is in different states. *)
Lemma random_dithering_has_no_seed :
  let img := [[Pixel 100 100 100 255]] in
  let p : params := {[ "seed" := 42%Q ]} in
  fst <$> @random_dithering rgb_only false img white_black p (constant_rng 0)
  = Ok [[Pixel 0 0 0 255]]
  /\ fst <$> @random_dithering rgb_only false img white_black p (constant_rng 2)
     = Ok [[Pixel 255 255 255 255]]
  /\ ¬ (forall (img : image) (key : color_key) (p : params) (g1 g2 : rng),
          is_Some (p !! "seed") ->
          fst <$> @random_dithering rgb_only false img key p g1
          = fst <$> @random_dithering rgb_only false img key p g2).
Proof.
  intros img p.
  assert (H0 : fst <$> @random_dithering rgb_only false img white_black p
                 (constant_rng 0) = Ok [[Pixel 0 0 0 255]]) by (by vm_compute).
  assert (H2 : fst <$> @random_dithering rgb_only false img white_black p
                 (constant_rng 2) = Ok [[Pixel 255 255 255 255]]) by (by vm_compute).
  split; [done|]. split; [done|].
  intros Hall.
  specialize (Hall img white_black p (constant_rng 0) (constant_rng 2)).
  rewrite H0, H2 in Hall.
  assert (is_Some (p !! "seed")) as Hseed by (by vm_compute; eexists).
  specialize (Hall Hseed). discriminate Hall.
Qed.

(** ** The closing block, in general *)

(** The closing loop keeps the coordinates whose value differs; the value
    it writes is that of the first frame, except where the last frame is
    transparent, where it writes [-1]. *)
Lemma closing_diffs_filter (O : set_order) (first last : pixel_map) :
  closing_diffs O first last =
  (fun xy => (xy, if decide (get_color last xy = -1) then -1
                  else get_color first xy))
  <$> filter (fun xy => get_color first xy ≠ get_color last xy)
        (iterate O (dom first ∪ dom last)).
Proof.
  unfold closing_diffs.
  rewrite (foldl_ext _ (fun diffs xy =>
     diffs ++ (if bool_decide (get_color first xy ≠ get_color last xy)
               then [(xy, if decide (get_color last xy = -1) then -1
                          else get_color first xy)]
               else []))).
  - rewrite foldl_app_bind. simpl.
    rewrite (bind_filter_fmap
               (fun xy => bool_decide (get_color first xy ≠ get_color last xy))).
    f_equal. apply list_filter_iff. intros xy. by rewrite bool_decide_spec.
  - intros diffs [x y]. case_decide as Hd.
    + rewrite bool_decide_true by done.
      destruct (get_color first (x, y) =? -1) eqn:Hf.
      * apply Z.eqb_eq in Hf. rewrite Hf. by case_decide.
      * destruct (get_color last (x, y) =? -1) eqn:Hl.
        -- apply Z.eqb_eq in Hl. by rewrite decide_True.
        -- apply Z.eqb_neq in Hl. by rewrite decide_False.
    + rewrite bool_decide_false by (by intros ?). by rewrite app_nil_r.
Qed.

Lemma replay_lookup (v : nat * nat -> Z) (l : list (nat * nat)) (m : pixel_map)
    (xy : nat * nat) :
  NoDup l ->
  replay m ((fun xy => (xy, v xy)) <$> l) !! xy
  = if decide (xy ∈ l) then Some (v xy) else m !! xy.
Proof.
  intros Hnd. unfold replay. rewrite foldl_fmap.
  rewrite (foldl_ext _ (fun m xy => match Some (v xy) with
                                    | Some n => <[xy := n]> m
                                    | None => m
                                    end)).
  - by rewrite (foldl_insert_lookup (fun xy => Some (v xy))).
  - by intros m' [x y].
Qed.

(** Replaying the closing block on the map of the last frame gives the
    value of the first frame wherever the last frame is not transparent,
    and leaves [-1] wherever it is. *)
Lemma closing_replay_result (O : set_order) (first last : pixel_map)
    (xy : nat * nat) :
  get_color (replay last (closing_diffs O first last)) xy
  = if decide (get_color last xy = -1) then -1 else get_color first xy.
Proof.
  rewrite closing_diffs_filter. unfold get_color at 1.
  rewrite (replay_lookup
             (fun xy => if decide (get_color last xy = -1) then -1
                        else get_color first xy))
    by apply NoDup_filter, iterate_NoDup.
  case_decide as Hin; [done|].
  fold (get_color last xy). case_decide as Hl; [done|].
  rewrite list_elem_of_filter, iterate_elem_of in Hin.
  destruct (decide (get_color first xy = get_color last xy)) as [|Hne]; [done|].
  destruct Hin. split; [done|].
  rewrite elem_of_union, !elem_of_dom. unfold get_color in Hl.
  destruct (last !! xy) eqn:Hlast; [right; eauto|done].
Qed.

(* ================================================================= *)
(** ** The palette dictionary *)

Lemma hex_digit_range (c : ascii) (d : Z) : hex_digit c = Some d -> 0 <= d <= 15.
Proof.
  unfold hex_digit.
  repeat (case_match; [intros [= <-]; lia|]).
  done.
Qed.

Lemma parse_hex_six (s : string) :
  six_hex_digits s -> exists c, parse_hex s = Ok c /\ byte_rgb c.
Proof.
  intros [Hlen Hall].
  destruct s as [|c0 [|c1 [|c2 [|c3 [|c4 [|c5 [|]]]]]]]; try discriminate.
  cbn [list_ascii_of_string] in Hall.
  repeat match goal with
         | H : Forall _ (_ :: _) |- _ => apply Forall_cons in H as [[? ?] H]
         end.
  unfold parse_hex. cbn [substring int_base16 hex_digits].
  repeat match goal with
         | H : hex_digit _ = Some _ |- _ =>
             rewrite H; apply hex_digit_range in H
         end.
  cbn [mbind result_bind]. eexists; split; [done|].
  unfold byte_rgb, is_byte. lia.
Qed.

Lemma dict_set_keys (k : Z) (v : rgb) (d : color_key) :
  (dict_set k v d).*1 = if decide (k ∈ d.*1) then d.*1 else d.*1 ++ [k].
Proof.
  induction d as [|[k' v'] d IH]; cbn [dict_set fmap list_fmap fst].
  - destruct (decide (k ∈ [])) as [Hin|]; [|done]. by apply elem_of_nil in Hin.
  - destruct (decide (k' = k)) as [->|Hne]; cbn [fmap list_fmap fst].
    + rewrite decide_True by apply list_elem_of_here. done.
    + fold (fmap (M:=list) (@fst Z rgb)). rewrite IH.
      destruct (decide (k ∈ d.*1)).
      * rewrite decide_True by (by apply list_elem_of_further). done.
      * rewrite decide_False; [done|].
        intros [->|Hin]%elem_of_cons; done.
Qed.

Lemma dict_get_set (k k' : Z) (v : rgb) (d : color_key) :
  dict_get (dict_set k v d) k' = if decide (k = k') then Ok v else dict_get d k'.
Proof.
  induction d as [|[k0 v0] d IH]; cbn [dict_set dict_get].
  - done.
  - destruct (decide (k0 = k)) as [->|Hne]; cbn [dict_get].
    + destruct (decide (k = k')); done.
    + rewrite IH. destruct (decide (k0 = k')) as [->|]; [|done].
      rewrite decide_False by done. done.
Qed.

Lemma dict_set_values (P : rgb -> Prop) (k : Z) (v : rgb) (d : color_key) :
  P v -> Forall P d.*2 -> Forall P (dict_set k v d).*2.
Proof.
  intros Hv. induction d as [|[k0 v0] d IH]; csimpl; intros Hd.
  - by constructor.
  - apply Forall_cons in Hd as [H0 Hd].
    destruct (decide (k0 = k)); csimpl; constructor; auto.
Qed.

Lemma dict_set_NoDup (k : Z) (v : rgb) (d : color_key) :
  is_dict d -> is_dict (dict_set k v d).
Proof.
  unfold is_dict. intros Hd. rewrite dict_set_keys.
  destruct (decide (k ∈ d.*1)); [done|].
  apply NoDup_app. split_and!; [done| |apply NoDup_singleton].
  intros x Hx Hx'. apply list_elem_of_singleton in Hx'. by subst.
Qed.

Lemma first_occurrences_snoc (l : list Z) (a : Z) :
  first_occurrences (l ++ [a]) =
  if decide (a ∈ first_occurrences l) then first_occurrences l
  else first_occurrences l ++ [a].
Proof.
  unfold first_occurrences. rewrite reverse_snoc. cbn [remove_dups].
  destruct (decide_rel elem_of a (reverse l)) as [Hin|Hin].
  - rewrite decide_True; [done|].
    by apply elem_of_reverse, elem_of_remove_dups.
  - rewrite decide_False; [by rewrite reverse_cons|].
    by rewrite elem_of_reverse, elem_of_remove_dups.
Qed.

Lemma filter_snoc_last {A} (P : A -> Prop) `{!forall x, Decision (P x)}
    (l : list A) (a : A) :
  last (filter P (l ++ [a])) = if decide (P a) then Some a else last (filter P l).
Proof.
  rewrite filter_app. rewrite filter_cons, filter_nil.
  destruct (decide (P a)).
  - by rewrite last_snoc.
  - by rewrite app_nil_r.
Qed.

(** X1. [build_color_key] on an array of six-digit codes returns a dict
    whose numbers are those of the array in the order of their first
    occurrence, whose value at a number is the colour of the last entry
    with that number, and whose colours are byte triples. *)
Theorem build_color_key_dict (color_key_array : list PaletteEntry) :
  Forall (fun item => six_hex_digits (lstrip_hash (hex item))) color_key_array ->
  exists key,
    build_color_key color_key_array = Ok key
    /\ is_dict key
    /\ color_nums key = first_occurrences (number <$> color_key_array)
    /\ (forall n,
          dict_get key n =
          match last (filter (fun item => number item = n) color_key_array) with
          | Some item => parse_hex (lstrip_hash (hex item))
          | None => Raise KeyError
          end)
    /\ Forall byte_rgb key.*2
    /\ color_values_rgb key = key.*2.
Proof.
  intros Hall.
  set (col := fun item : PaletteEntry =>
                match parse_hex (lstrip_hash (hex item)) with
                | Ok c => c
                | Raise _ => (0, 0, 0)
                end).
  assert (Hcol : forall item, item ∈ color_key_array ->
            parse_hex (lstrip_hash (hex item)) = Ok (col item) /\ byte_rgb (col item)).
  { intros item Hin. rewrite Forall_forall in Hall.
    destruct (parse_hex_six _ (Hall item Hin)) as (c & Hc & Hb).
    unfold col. rewrite Hc. done. }
  assert (Hbuild : build_color_key color_key_array
            = Ok (foldl (fun key item => dict_set (number item) (col item) key)
                    [] color_key_array)).
  { unfold build_color_key. apply for_each_foldl.
    intros item key Hin. destruct (Hcol item Hin) as [-> _]. done. }
  rewrite Hbuild. eexists; split; [done|]. clear Hbuild Hall.
  assert (Hmain :
    is_dict (foldl (fun key item => dict_set (number item) (col item) key)
               [] color_key_array)
    /\ color_nums (foldl (fun key item => dict_set (number item) (col item) key)
                     [] color_key_array)
       = first_occurrences (number <$> color_key_array)
    /\ (forall n,
          dict_get (foldl (fun key item => dict_set (number item) (col item) key)
                      [] color_key_array) n =
          match last (filter (fun item => number item = n) color_key_array) with
          | Some item => parse_hex (lstrip_hash (hex item))
          | None => Raise KeyError
          end)
    /\ Forall byte_rgb
         (foldl (fun key item => dict_set (number item) (col item) key)
            [] color_key_array).*2).
  { induction color_key_array as [|a l IH] using rev_ind.
    - split_and!; try done. apply NoDup_nil_2.
    - rewrite foldl_app. cbn [foldl].
      destruct IH as (Hd & Hn & Hg & Hb).
      { intros item Hin. apply Hcol, elem_of_app. by left. }
      split_and!.
      + by apply dict_set_NoDup.
      + unfold color_nums in *. rewrite dict_set_keys, Hn.
        rewrite fmap_app. csimpl. by rewrite first_occurrences_snoc.
      + intros n. rewrite dict_get_set, filter_snoc_last.
        destruct (decide (number a = n)); [|apply Hg].
        symmetry. apply Hcol, elem_of_app. right. apply list_elem_of_here.
      + apply dict_set_values; [|done].
        apply Hcol, elem_of_app. right. apply list_elem_of_here. }
  destruct Hmain as (Hd & Hn & Hg & Hb). split_and!; try done.
  unfold color_values_rgb.
  induction Hb as [|[[r g] b] cs (Hr & Hg' & Hb') _ IH]; csimpl; [done|].
  rewrite IH. unfold to_uint8, is_byte in *.
  rewrite !Z.mod_small by lia. done.
Qed.

Lemma build_color_key_dict_witness :
  exists key,
    build_color_key [entry 3 "#ffe7c5"; entry 1 "2a3844"; entry 3 "d70b5d"] = Ok key
    /\ is_dict key
    /\ color_nums key = first_occurrences (number <$> [entry 3 "#ffe7c5"; entry 1 "2a3844"; entry 3 "d70b5d"])
    /\ (forall n,
          dict_get key n =
          match last (filter (fun item => number item = n) [entry 3 "#ffe7c5"; entry 1 "2a3844"; entry 3 "d70b5d"]) with
          | Some item => parse_hex (lstrip_hash (hex item))
          | None => Raise KeyError
          end)
    /\ Forall byte_rgb key.*2
    /\ color_values_rgb key = key.*2.
Proof.
  apply build_color_key_dict.
  repeat constructor; vm_compute; eauto.
Defined.

Lemma hex_digits_ValueError (s : string) (acc : Z) (e : exn) :
  hex_digits s acc = Raise e -> e = ValueError.
Proof.
  revert acc. induction s as [|c s IH]; intros acc; cbn [hex_digits]; [done|].
  destruct (hex_digit c); [apply IH|]. by intros [= <-].
Qed.

Lemma int_base16_ValueError (s : string) (e : exn) :
  int_base16 s = Raise e -> e = ValueError.
Proof.
  destruct s; cbn [int_base16]; [by intros [= <-]|apply hex_digits_ValueError].
Qed.

Lemma parse_hex_ValueError (s : string) (e : exn) :
  parse_hex s = Raise e -> e = ValueError.
Proof.
  unfold parse_hex.
  destruct (int_base16 (substring 0 2 s)) eqn:H0; cbn [mbind result_bind];
    [|intros [= <-]; by apply int_base16_ValueError in H0].
  destruct (int_base16 (substring 2 2 s)) eqn:H1; cbn [mbind result_bind];
    [|intros [= <-]; by apply int_base16_ValueError in H1].
  destruct (int_base16 (substring 4 2 s)) eqn:H2; cbn [mbind result_bind];
    [done|intros [= <-]; by apply int_base16_ValueError in H2].
Qed.

Lemma parse_hex_short (s : string) :
  (String.length s < 5)%nat -> parse_hex s = Raise ValueError.
Proof.
  intros Hlen.
  assert (Hsub : substring 4 2 s = EmptyString).
  { destruct s as [|c0 [|c1 [|c2 [|c3 [|c4 s]]]]]; try done.
    cbn [String.length] in Hlen. lia. }
  destruct (parse_hex s) as [c|e] eqn:Hp; [|by rewrite (parse_hex_ValueError _ _ Hp)].
  unfold parse_hex in Hp. rewrite Hsub in Hp.
  destruct (int_base16 (substring 0 2 s)); cbn [mbind result_bind] in Hp; [|done].
  destruct (int_base16 (substring 2 2 s)); cbn [mbind result_bind] in Hp; done.
Qed.

(** X2. a colour code of fewer than five characters (after the leading
    [#] characters are stripped) makes [build_color_key] raise
    [ValueError], wherever the entry stands in the array. *)
Theorem build_color_key_short_code (color_key_array : list PaletteEntry)
    (item : PaletteEntry) :
  item ∈ color_key_array ->
  (String.length (lstrip_hash (hex item)) < 5)%nat ->
  build_color_key color_key_array = Raise ValueError.
Proof.
  intros Hin Hlen. unfold build_color_key. generalize ([] : color_key).
  induction color_key_array as [|a l IH]; intros key; [by apply elem_of_nil in Hin|].
  cbn [for_each].
  destruct (parse_hex (lstrip_hash (hex a))) as [c|e] eqn:Hp; cbn [mbind result_bind].
  - apply elem_of_cons in Hin as [->|Hin]; [|by apply IH].
    by rewrite parse_hex_short in Hp.
  - by rewrite (parse_hex_ValueError _ _ Hp).
Qed.

Lemma build_color_key_short_code_witness :
  build_color_key [entry 0 "ffe7c5"; entry 1 "#fff"] = Raise ValueError.
Proof.
  apply (build_color_key_short_code _ (entry 1 "#fff")).
  - apply list_elem_of_further, list_elem_of_here.
  - vm_compute. lia.
Defined.

(* ================================================================= *)
(** ** Nearest colours and the dictionary *)

Lemma dist_sq_nonneg (a b : rgb) : 0 <= dist_sq a b.
Proof.
  destruct a as [[a0 a1] a2], b as [[b0 b1] b2]. cbn [dist_sq].
  pose proof (Z.square_nonneg (a0 - b0)).
  pose proof (Z.square_nonneg (a1 - b1)).
  pose proof (Z.square_nonneg (a2 - b2)). lia.
Qed.

Lemma dist_sq_zero (a b : rgb) : dist_sq a b = 0 <-> a = b.
Proof.
  destruct a as [[a0 a1] a2], b as [[b0 b1] b2]. cbn [dist_sq]. split.
  - intros Hd.
    pose proof (Z.square_nonneg (a0 - b0)) as H0.
    pose proof (Z.square_nonneg (a1 - b1)) as H1.
    pose proof (Z.square_nonneg (a2 - b2)) as H2.
    assert (E0 : (a0 - b0) * (a0 - b0) = 0) by lia.
    assert (E1 : (a1 - b1) * (a1 - b1) = 0) by lia.
    assert (E2 : (a2 - b2) * (a2 - b2) = 0) by lia.
    apply Z.mul_eq_0 in E0, E1, E2.
    repeat f_equal; lia.
  - intros [= -> -> ->]. lia.
Qed.

Lemma dict_get_lookup (key : color_key) (i : nat) (n : Z) (c : rgb) :
  is_dict key -> key !! i = Some (n, c) -> dict_get key n = Ok c.
Proof.
  unfold is_dict. revert i. induction key as [|[k v] key IH]; intros i Hd Hi; [done|].
  cbn [dict_get]. csimpl in Hd. apply NoDup_cons in Hd as [Hk Hd].
  destruct i as [|i]; cbn in Hi.
  - injection Hi as -> ->. by rewrite decide_True.
  - rewrite decide_False; [by apply (IH i)|].
    intros ->. apply Hk. apply list_elem_of_fmap. exists (n, c).
    split; [done|]. by apply list_elem_of_lookup_2 in Hi.
Qed.

Section NearestLookup.
Context `{External}.

Lemma nearest_color_first_min use_lab (key : color_key) (c : rgb) :
  key ≠ [] ->
  exists i, first_min (distances use_lab key c) i
    /\ color_values_rgb key !! i = Some (nearest_color use_lab key c).
Proof.
  intros Hkey. exists (closest_index use_lab key c).
  split; [by apply closest_index_spec|].
  unfold nearest_color.
  destruct (lookup_lt_is_Some_2 (color_values_rgb key)
              (closest_index use_lab key c)) as [v Hv].
  { unfold color_values_rgb. rewrite !length_fmap. by apply closest_index_lt. }
  unfold rgb in *. by rewrite Hv.
Qed.

Lemma nearest_color_elem_of use_lab (key : color_key) (c : rgb) :
  key ≠ [] -> nearest_color use_lab key c ∈ color_values_rgb key.
Proof.
  intros Hkey. destruct (nearest_color_first_min use_lab key c Hkey) as (i & _ & Hi).
  by apply list_elem_of_lookup_2 in Hi.
Qed.

(** In RGB mode a palette colour is its own nearest colour. *)
Lemma nearest_color_exact (key : color_key) (c : rgb) :
  c ∈ color_values_rgb key -> nearest_color false key c = c.
Proof.
  intros Hin.
  assert (Hkey : key ≠ []) by (intros ->; by apply elem_of_nil in Hin).
  destruct (nearest_color_first_min false key c Hkey) as (i & (d & Hd & Hmin & _) & Hi).
  apply list_elem_of_lookup_1 in Hin as [j Hj].
  unfold distances in Hd, Hmin. rewrite list_lookup_fmap in Hd.
  unfold rgb in *. rewrite Hi in Hd. cbn in Hd. injection Hd as Hd.
  specialize (Hmin j (dist_sq c c)).
  rewrite list_lookup_fmap in Hmin. unfold rgb in *. rewrite Hj in Hmin.
  specialize (Hmin eq_refl).
  assert (dist_sq c c = 0) as H0 by (by apply dist_sq_zero).
  pose proof (dist_sq_nonneg (nearest_color false key c) c).
  apply dist_sq_zero. unfold metric_point in *. lia.
Qed.

(** X3. for a non-empty dict the number [find_closest_color] returns is a
    key of the dict (the lookup [color_key[n]] that follows it in the
    pixel loops cannot raise [KeyError]), the colour found under it is
    nearest to the pixel among all palette colours, in the metric of the
    mode, and in RGB mode a pixel that has a palette colour gets that
    colour back. *)
Theorem find_closest_color_lookup (use_lab : bool) (p : rgb) (key : color_key) :
  key ≠ [] -> is_dict key ->
  exists n c,
    find_closest_color use_lab p key = Ok n
    /\ dict_get key n = Ok c
    /\ (forall c', c' ∈ key.*2 ->
          dist_sq (metric_point use_lab (rgb_to_uint8 c))
                  (metric_point use_lab (rgb_to_uint8 p))
          <= dist_sq (metric_point use_lab (rgb_to_uint8 c'))
                     (metric_point use_lab (rgb_to_uint8 p)))
    /\ (use_lab = false -> rgb_to_uint8 p ∈ color_values_rgb key ->
        rgb_to_uint8 c = rgb_to_uint8 p).
Proof.
  intros Hkey Hdict.
  destruct (find_closest_color_nearest use_lab p key Hkey)
    as (n & Hn & Hnum & (d & Hd & Hmin & _)).
  set (i := closest_index use_lab key (rgb_to_uint8 p)) in *.
  unfold color_nums in Hnum. rewrite list_lookup_fmap in Hnum.
  destruct (key !! i) as [[n' c]|] eqn:Hi; [|done].
  cbn in Hnum. injection Hnum as ->.
  exists n, c. split; [done|]. split; [by apply (dict_get_lookup key i)|].
  unfold distances, color_values_rgb in Hd, Hmin.
  rewrite !list_lookup_fmap, Hi in Hd. cbn in Hd. injection Hd as Hd.
  split.
  - intros c' Hc'. apply list_elem_of_lookup_1 in Hc' as [j Hj].
    rewrite Hd. apply (Hmin j). unfold rgb in *.
    rewrite 2!list_lookup_fmap, Hj. done.
  - intros -> Hin. unfold color_values_rgb in Hin.
    apply list_elem_of_lookup_1 in Hin as [j Hj].
    specialize (Hmin j (dist_sq (rgb_to_uint8 p) (rgb_to_uint8 p))).
    unfold rgb in *. rewrite list_lookup_fmap, Hj in Hmin.
    specialize (Hmin eq_refl). unfold metric_point in *.
    assert (dist_sq (rgb_to_uint8 p) (rgb_to_uint8 p) = 0) as H0
      by (by apply dist_sq_zero).
    pose proof (dist_sq_nonneg (rgb_to_uint8 c) (rgb_to_uint8 p)).
    apply dist_sq_zero. lia.
Qed.

End NearestLookup.

Lemma find_closest_color_lookup_witness :
  exists n c,
    @find_closest_color rgb_only false (250, 250, 250) white_black = Ok n
    /\ dict_get white_black n = Ok c
    /\ (forall c', c' ∈ white_black.*2 ->
          dist_sq (@metric_point rgb_only false (rgb_to_uint8 c))
                  (@metric_point rgb_only false (rgb_to_uint8 (250, 250, 250)))
          <= dist_sq (@metric_point rgb_only false (rgb_to_uint8 c'))
                     (@metric_point rgb_only false (rgb_to_uint8 (250, 250, 250))))
    /\ (false = false ->
        rgb_to_uint8 (250, 250, 250) ∈ color_values_rgb white_black ->
        rgb_to_uint8 c = rgb_to_uint8 (250, 250, 250)).
Proof.
  apply (@find_closest_color_lookup rgb_only false (250, 250, 250) white_black).
  - done.
  - unfold is_dict. apply (bool_decide_unpack _). vm_compute. exact I.
Defined.

(* ================================================================= *)
(** ** ['Color Match'] *)

Lemma rectangular_fmap (f : pixel -> pixel) (img : image) :
  rectangular img ->
  rectangular (map f <$> img) /\ width (map f <$> img) = width img
  /\ height (map f <$> img) = height img.
Proof.
  intros Hrect.
  assert (Hw : width (map f <$> img) = width img).
  { destruct img as [|row img]; [done|]. cbn. by rewrite length_map. }
  split; [|split; [done|]].
  - unfold rectangular in *. rewrite Hw. apply Forall_fmap.
    eapply Forall_impl; [exact Hrect|]. intros row Hrow. cbn.
    by rewrite length_map.
  - unfold height. by rewrite length_fmap.
Qed.

Lemma getpixel_fmap_total (f : pixel -> pixel) (img : image) (x y : nat) :
  f transparent_black = transparent_black ->
  getpixel (map f <$> img) x y = f (getpixel img x y).
Proof.
  intros Hf. apply getpixel_fmap_lookup; [done|].
  rewrite list_lookup_fmap. destruct (img !! y) as [row|]; [|done]. cbn.
  change (map f row) with (f <$> row). by rewrite list_lookup_fmap.
Qed.

Section ColorMatch.
Context `{External}.

Lemma match_pixel_transparent use_lab (key : color_key) :
  match_pixel use_lab key transparent_black = transparent_black.
Proof. done. Qed.

Lemma color_matching_map use_lab (img : image) (key : color_key) :
  key ≠ [] -> rectangular img -> (0 < width img)%nat ->
  color_matching use_lab img key = Ok (map (match_pixel use_lab key) <$> img).
Proof.
  intros Hkey Hrect Hw. unfold color_matching.
  rewrite find_closest_colors_image_Ok by done. cbn [mbind result_bind].
  f_equal. apply list_eq. intros y.
  rewrite list_lookup_imap, !list_lookup_fmap.
  destruct (img !! y) as [row|] eqn:Hy; [|done]. cbn. f_equal.
  apply list_eq. intros x.
  rewrite list_lookup_imap.
  change (map ?f row) with (f <$> row). rewrite !list_lookup_fmap.
  destruct (row !! x) as [p|] eqn:Hx; [|done]. cbn. f_equal.
  assert (Hp : getpixel img x y = p).
  { apply getpixel_lookup. rewrite Hy. done. }
  unfold color_matching_opaque_mask, match_pixel, nearest_color.
  rewrite Hp, Z.gtb_ltb. destruct (191 <? pA p); [|done].
  destruct (default _ _) as [[r g] b]. done.
Qed.

(** X4. ['Color Match'] on a decoded image with a non-empty palette keeps
    the size and every alpha value, leaves a pixel whose alpha is at most
    191 as it is, and gives every other pixel the palette colour at the
    first position of the least distance. *)
Theorem color_matching_pixels (use_lab : bool) (img : image) (key : color_key) :
  key ≠ [] -> rectangular img -> (0 < width img)%nat ->
  exists out,
    color_matching use_lab img key = Ok out
    /\ frame_of_size (width img) (height img) out
    /\ forall x y,
         pA (getpixel out x y) = pA (getpixel img x y)
         /\ (pA (getpixel img x y) <= 191 -> getpixel out x y = getpixel img x y)
         /\ (191 < pA (getpixel img x y) ->
             exists i,
               first_min (distances use_lab key (pixel_rgb (getpixel img x y))) i
               /\ color_values_rgb key !! i
                  = Some (pixel_rgb (getpixel out x y))).
Proof.
  intros Hkey Hrect Hw. eexists. split; [by apply color_matching_map|].
  split; [by apply rectangular_fmap|].
  intros x y. rewrite getpixel_fmap_total by apply match_pixel_transparent.
  unfold match_pixel. split_and!.
  - destruct (191 <? _); [apply pA_with_rgb|done].
  - intros Ha. destruct (Z.ltb_spec 191 (pA (getpixel img x y))); [lia|done].
  - intros Ha. destruct (Z.ltb_spec 191 (pA (getpixel img x y))); [|lia].
    destruct (nearest_color_first_min use_lab key
                (pixel_rgb (getpixel img x y)) Hkey) as (i & Hi & Hv).
    exists i. split; [done|]. rewrite Hv. f_equal.
    destruct (nearest_color _ _ _) as [[r g] b]. done.
Qed.

(** X5. in RGB mode ['Color Match'] is idempotent: applied to its own
    result it changes nothing. *)
Theorem color_matching_idempotent (img out : image) (key : color_key) :
  key ≠ [] -> rectangular img -> (0 < width img)%nat ->
  color_matching false img key = Ok out ->
  color_matching false out key = Ok out.
Proof.
  intros Hkey Hrect Hw. rewrite color_matching_map by done. intros [= <-].
  destruct (rectangular_fmap (match_pixel false key) img Hrect) as (Hr' & Hw' & _).
  rewrite color_matching_map by (done || by rewrite Hw').
  f_equal. rewrite <- list_fmap_compose. apply list_fmap_ext. intros _ row _.
  cbn. rewrite map_map. apply map_ext. intros p.
  unfold match_pixel at 2 3. destruct (191 <? pA p) eqn:Ha.
  - unfold match_pixel. rewrite pA_with_rgb, Ha.
    assert (Hrgb : forall c q, pixel_rgb (with_rgb c q) = c).
    { intros [[r g] b] q. done. }
    rewrite Hrgb, nearest_color_exact by (by apply nearest_color_elem_of).
    destruct (nearest_color _ _ _) as [[r g] b]. done.
  - unfold match_pixel. by rewrite Ha.
Qed.

End ColorMatch.

Lemma color_matching_pixels_witness :
  let img := [[Pixel 250 250 250 255; Pixel 10 20 30 191]] in
  exists out,
    @color_matching rgb_only false img white_black = Ok out
    /\ frame_of_size (width img) (height img) out
    /\ forall x y,
         pA (getpixel out x y) = pA (getpixel img x y)
         /\ (pA (getpixel img x y) <= 191 -> getpixel out x y = getpixel img x y)
         /\ (191 < pA (getpixel img x y) ->
             exists i,
               first_min (@distances rgb_only false white_black
                            (pixel_rgb (getpixel img x y))) i
               /\ color_values_rgb white_black !! i
                  = Some (pixel_rgb (getpixel out x y))).
Proof.
  apply (@color_matching_pixels rgb_only false
           [[Pixel 250 250 250 255; Pixel 10 20 30 191]] white_black).
  - done.
  - repeat constructor.
  - cbn. lia.
Defined.

Lemma color_matching_idempotent_witness :
  @color_matching rgb_only false
    [[Pixel 255 255 255 255; Pixel 10 20 30 191]] white_black
  = Ok [[Pixel 255 255 255 255; Pixel 10 20 30 191]].
Proof.
  apply (@color_matching_idempotent rgb_only
           [[Pixel 250 250 250 255; Pixel 10 20 30 191]]).
  - done.
  - repeat constructor.
  - cbn. lia.
  - vm_compute. reflexivity.
Defined.

(* ================================================================= *)
(** ** Dithering writes palette colours *)

Lemma for_each_seq_invariant {St} (I : nat -> St -> Prop) (n a : nat)
    (body : nat -> St -> result St) (s s' : St) :
  I a s ->
  (forall i t t', (a <= i < a + n)%nat -> I i t -> body i t = Ok t' -> I (S i) t') ->
  for_each (seq a n) body s = Ok s' -> I (a + n)%nat s'.
Proof.
  revert a s. induction n as [|n IH]; intros a s Hs Hbody; cbn [seq for_each].
  - intros [= <-]. by rewrite Nat.add_0_r.
  - intros (t & Ht & Hrest)%bind_Ok.
    replace (a + S n)%nat with (S a + n)%nat by lia.
    apply (IH (S a) t); [|intros i u u' Hi; apply Hbody; lia|done].
    apply (Hbody a s); [lia|done|done].
Qed.

Lemma for_range_indexed {St} (I : nat -> St -> Prop) (n : nat)
    (body : nat -> St -> result St) (s s' : St) :
  I 0%nat s ->
  (forall i t t', (i < n)%nat -> I i t -> body i t = Ok t' -> I (S i) t') ->
  for_range n body s = Ok s' -> I n s'.
Proof.
  intros Hs Hbody. unfold for_range, range.
  apply (for_each_seq_invariant I n 0%nat); [done|].
  intros i t t' Hi. apply Hbody. lia.
Qed.

(** An invariant of a raster scan that knows the position it reached. *)
Lemma raster_loop_invariant {St} (I : nat -> nat -> St -> Prop) (w h : nat)
    (body : nat -> nat -> St -> result St) (s s' : St) :
  I 0%nat 0%nat s ->
  (forall x y t t', (x < w)%nat -> (y < h)%nat ->
     I x y t -> body y x t = Ok t' -> I (S x) y t') ->
  (forall y t, I w y t -> I 0%nat (S y) t) ->
  for_range h (fun y => for_range w (fun x => body y x)) s = Ok s' ->
  I 0%nat h s'.
Proof.
  intros Hs Hstep Hrow.
  apply (for_range_indexed (fun y t => I 0%nat y t)); [done|].
  intros y t t' Hy Ht Hinner. apply Hrow.
  revert Hinner. apply (for_range_indexed (fun x u => I x y u)); [done|].
  intros x u u' Hx Hu. by apply Hstep.
Qed.

Lemma frame_of_size_putpixel (w h : nat) (t : image) (x y : nat) (p : pixel) :
  frame_of_size w h t -> frame_of_size w h (putpixel t x y p).
Proof.
  intros (Hr & Hw & Hh). split_and!.
  - by apply rectangular_putpixel.
  - by rewrite width_putpixel.
  - by rewrite height_putpixel.
Qed.

Lemma index_elem_of {A} (l : list A) (i : nat) (a : A) :
  index l i = Ok a -> a ∈ l.
Proof.
  unfold index. destruct (l !! i) as [b|] eqn:Hi; [|done].
  intros [= <-]. by apply list_elem_of_lookup_2 in Hi.
Qed.

Lemma pixel_rgb_with_rgb (c : rgb) (p : pixel) : pixel_rgb (with_rgb c p) = c.
Proof. by destruct c as [[r g] b]. Qed.

Lemma quantized_before_next_row (palette : list rgb) (mask : nat -> nat -> bool)
    (w y : nat) (t : image) :
  quantized_before palette mask w w y t ->
  quantized_before palette mask w 0 (S y) t.
Proof.
  intros Hq x' y' Hx' Hb Hm. apply Hq; [done| |done].
  unfold raster_before in *. lia.
Qed.

(** A step that leaves the earlier pixels alone and handles its own. *)
Lemma quantized_before_step (palette : list rgb) (mask : nat -> nat -> bool)
    (w x y : nat) (t t' : image) :
  quantized_before palette mask w x y t ->
  (forall x' y', raster_before x y x' y' ->
     getpixel t' x' y' = getpixel t x' y') ->
  (mask y x = true -> pixel_rgb (getpixel t' x y) ∈ palette) ->
  quantized_before palette mask w (S x) y t'.
Proof.
  intros Hq Hold Hnew x' y' Hx' Hb Hm.
  destruct (decide (x' = x /\ y' = y)) as [[-> ->]|Hne].
  - by apply Hnew.
  - assert (raster_before x y x' y') as Hb' by (unfold raster_before in *; lia).
    rewrite Hold by done. by apply Hq.
Qed.

Lemma diffuse_frame_of_size (mask : nat -> nat -> bool) (w h x y : nat)
    (quant_error : Q * Q * Q) (diffusion_matrix : kernel) (w' h' : nat) (t : image) :
  frame_of_size w' h' t ->
  frame_of_size w' h' (diffuse mask w h x y quant_error diffusion_matrix t).
Proof.
  intros Ht. unfold diffuse. apply foldl_invariant; [done|].
  intros arr [[dx dy] coeff] Harr.
  destruct (in_bounds w h _ _ && mask _ _); [|done].
  by apply frame_of_size_putpixel.
Qed.

(** A forward matrix never reaches the pixel itself or a pixel before it. *)
Lemma diffuse_before (mask : nat -> nat -> bool) (w h x y : nat)
    (quant_error : Q * Q * Q) (diffusion_matrix : kernel) (t : image)
    (x' y' : nat) :
  forward_kernel diffusion_matrix ->
  raster_before (S x) y x' y' ->
  getpixel (diffuse mask w h x y quant_error diffusion_matrix t) x' y'
  = getpixel t x' y'.
Proof.
  intros Hk Hb. unfold diffuse. revert t.
  induction Hk as [|[[dx dy] coeff] k Hfw _ IH]; intros t; cbn [foldl]; [done|].
  rewrite IH.
  destruct (in_bounds w h _ _ && mask _ _) eqn:Hc; [|done].
  apply andb_true_iff in Hc as [Hin _]. unfold in_bounds in Hin.
  apply getpixel_putpixel_ne. intros [= <- <-].
  unfold raster_before in Hb. lia.
Qed.

Lemma distribute_error_frame_of_size (w h x y : nat)
    (quant_error : Q * Q * Q) (diffusion_matrix : kernel) (w' h' : nat) (t : image) :
  frame_of_size w' h' t ->
  frame_of_size w' h' (distribute_error t x y w h quant_error diffusion_matrix).
Proof.
  intros Ht. unfold distribute_error. apply foldl_invariant; [done|].
  intros arr [[dx dy] coeff] Harr.
  destruct (in_bounds w h _ _); [|done].
  destruct (pA _ =? 0); [done|].
  by apply frame_of_size_putpixel.
Qed.

Lemma distribute_error_before (w h x y : nat)
    (quant_error : Q * Q * Q) (diffusion_matrix : kernel) (t : image)
    (x' y' : nat) :
  forward_kernel diffusion_matrix ->
  raster_before (S x) y x' y' ->
  getpixel (distribute_error t x y w h quant_error diffusion_matrix) x' y'
  = getpixel t x' y'.
Proof.
  intros Hk Hb. unfold distribute_error. revert t.
  induction Hk as [|[[dx dy] coeff] k Hfw _ IH]; intros t; cbn [foldl]; [done|].
  rewrite IH.
  destruct (in_bounds w h _ _) eqn:Hin; [|done].
  destruct (pA _ =? 0); [done|]. unfold in_bounds in Hin.
  apply getpixel_putpixel_ne. intros [= <- <-].
  unfold raster_before in Hb. lia.
Qed.

Lemma raster_before_weaken (x y x' y' : nat) :
  raster_before x y x' y' -> raster_before (S x) y x' y'.
Proof. unfold raster_before. lia. Qed.

Lemma raster_before_ne (x y x' y' : nat) :
  raster_before x y x' y' -> (x, y) ≠ (x', y').
Proof. unfold raster_before. intros Hb [= <- <-]. lia. Qed.

Lemma raster_before_end (w h x y : nat) :
  (x < w)%nat -> (y < h)%nat -> raster_before 0 h x y.
Proof. unfold raster_before. lia. Qed.

Lemma getpixel_putpixel_frame (w h : nat) (t : image) (x y : nat) (p : pixel) :
  frame_of_size w h t -> (x < w)%nat -> (y < h)%nat ->
  getpixel (putpixel t x y p) x y = p.
Proof.
  intros (Hr & <- & <-) Hx Hy. by apply getpixel_putpixel_eq.
Qed.

Lemma color_values_rgb_byte (key : color_key) (c : rgb) :
  c ∈ color_values_rgb key -> byte_rgb c.
Proof.
  unfold color_values_rgb. intros ([[r g] b] & -> & _)%list_elem_of_fmap.
  unfold byte_rgb, rgb_to_uint8, to_uint8, is_byte.
  pose proof (Z.mod_pos_bound r 256). pose proof (Z.mod_pos_bound g 256).
  pose proof (Z.mod_pos_bound b 256). lia.
Qed.

Lemma pixel_rgb_clip_pixel (p : pixel) :
  byte_rgb (pixel_rgb p) -> pixel_rgb (clip_pixel p) = pixel_rgb p.
Proof.
  destruct p as [r g b a]. unfold byte_rgb, pixel_rgb, clip_pixel. cbn.
  intros (Hr & Hg & Hb). by rewrite !clip_uint8_byte.
Qed.

Section DitheringPalette.
Context `{External}.

Lemma diffusion_step_quantized use_lab (values_rgb values_lab : list rgb)
    strength matrix_at (mask : nat -> nat -> bool) (w h x y : nat) (t t' : image) :
  forward_kernel (matrix_at y x) ->
  (x < w)%nat -> (y < h)%nat ->
  frame_of_size w h t /\ quantized_before values_rgb mask w x y t ->
  diffusion_step use_lab values_rgb values_lab strength matrix_at mask w h y x t
  = Ok t' ->
  frame_of_size w h t' /\ quantized_before values_rgb mask w (S x) y t'.
Proof.
  intros Hk Hx Hy [Hshape Hq]. unfold diffusion_step.
  destruct (mask y x) eqn:Hmask; cbn [negb].
  - intros (idx & _ & (new_pixel & Hnew%index_elem_of & [= <-])%bind_Ok)%bind_Ok.
    split; [by apply diffuse_frame_of_size, frame_of_size_putpixel|].
    apply (quantized_before_step _ _ _ _ _ t); [done| |].
    + intros x' y' Hb. rewrite diffuse_before by (done || by apply raster_before_weaken).
      apply getpixel_putpixel_ne. by apply raster_before_ne.
    + intros _. rewrite diffuse_before by (done || (unfold raster_before; lia)).
      rewrite (getpixel_putpixel_frame w h) by done.
      by rewrite pixel_rgb_with_rgb.
  - intros [= <-]. split; [done|].
    apply (quantized_before_step _ _ _ _ _ t); [done|done|]. by rewrite Hmask.
Qed.

Lemma diffusion_loop_quantized use_lab (values_rgb values_lab : list rgb)
    strength matrix_at (mask : nat -> nat -> bool) (w h : nat) (img out : image) :
  (forall y x, forward_kernel (matrix_at y x)) ->
  frame_of_size w h img ->
  diffusion_loop use_lab values_rgb values_lab strength matrix_at mask w h img
  = Ok out ->
  frame_of_size w h out
  /\ forall x y, (x < w)%nat -> (y < h)%nat -> mask y x = true ->
       pixel_rgb (getpixel out x y) ∈ values_rgb.
Proof.
  intros Hk Hshape Hloop. unfold diffusion_loop in Hloop.
  apply (raster_loop_invariant
           (fun x y t => frame_of_size w h t
                         /\ quantized_before values_rgb mask w x y t))
    in Hloop as [Hout Hq].
  - split; [done|]. intros x y Hx Hy Hm. apply Hq; [done| |done].
    by apply raster_before_end with w.
  - split; [done|]. intros x' y' _ Hb. unfold raster_before in Hb. lia.
  - intros x y t t' Hx Hy Ht. by apply diffusion_step_quantized.
  - intros y t [Ht Hq]. split; [done|]. by apply quantized_before_next_row.
Qed.

Lemma clip_image_quantized (palette : color_key) (t : image) (x y : nat) :
  pixel_rgb (getpixel t x y) ∈ color_values_rgb palette ->
  pixel_rgb (getpixel (clip_image t) x y) ∈ color_values_rgb palette.
Proof.
  intros Hin. rewrite getpixel_clip_image, pixel_rgb_clip_pixel; [done|].
  by apply color_values_rgb_byte with palette.
Qed.

Lemma optimized_error_diffusion_quantized use_lab (img out : image)
    (key : color_key) (strength : Q) (diffusion_matrix : kernel) :
  rectangular img -> forward_kernel diffusion_matrix ->
  optimized_error_diffusion_dithering use_lab img key strength diffusion_matrix
  = Ok out ->
  frame_of_size (width img) (height img) out
  /\ forall x y, (x < width img)%nat -> (y < height img)%nat ->
       0 < pA (getpixel img x y) ->
       pixel_rgb (getpixel out x y) ∈ color_values_rgb key.
Proof.
  intros Hrect Hk. unfold optimized_error_diffusion_dithering.
  intros (values_lab & _ & (arr & Hloop & [= <-])%bind_Ok)%bind_Ok.
  apply diffusion_loop_quantized in Hloop as [(Hr & Hw & Hh) Hq]; [|done..].
  split.
  - destruct (rectangular_fmap clip_pixel arr Hr) as (Hr' & Hw' & Hh').
    unfold clip_image. split_and!; [done|by rewrite Hw'|by rewrite Hh'].
  - intros x y Hx Hy Ha. apply clip_image_quantized, Hq; [done..|].
    unfold alpha_mask. by apply Z.gtb_lt.
Qed.

Lemma hybrid_dithering_quantized use_lab (img out : image) (key : color_key) p :
  rectangular img ->
  hybrid_dithering use_lab img key p = Ok out ->
  forall x y, (x < width img)%nat -> (y < height img)%nat ->
    0 < pA (getpixel img x y) ->
    pixel_rgb (getpixel out x y) ∈ color_values_rgb key.
Proof.
  intros Hrect. unfold hybrid_dithering.
  intros (values_lab & _ & (arr & Hloop & [= <-])%bind_Ok)%bind_Ok x y Hx Hy Ha.
  apply diffusion_loop_quantized in Hloop as [_ Hq]; [| |done].
  - apply clip_image_quantized, Hq; [done..|].
    unfold alpha_mask. by apply Z.gtb_lt.
  - intros y' x'. unfold hybrid_matrix_at.
    destruct (Qlt_bool _ _); unfold forward_kernel;
      repeat (apply Forall_cons; split; [cbn; lia|]); by apply Forall_nil.
Qed.

Lemma ordered_dithering_quantized use_lab (img out : image) (key : color_key) p :
  rectangular img ->
  ordered_dithering use_lab img key p = Ok out ->
  forall x y, (x < width img)%nat -> (y < height img)%nat ->
    0 < pA (getpixel img x y) ->
    pixel_rgb (getpixel out x y) ∈ color_values_rgb key.
Proof.
  intros Hrect. unfold ordered_dithering.
  intros (values_lab & _ & (arr & Hloop & [= <-])%bind_Ok)%bind_Ok x y Hx Hy Ha.
  apply (raster_loop_invariant
           (fun x y t => frame_of_size (width img) (height img) t
                         /\ quantized_before (color_values_rgb key)
                              (alpha_mask img) (width img) x y t))
    in Hloop as [_ Hq].
  - apply clip_image_quantized, Hq; [done| |].
    + by apply raster_before_end with (width img).
    + unfold alpha_mask. by apply Z.gtb_lt.
  - split; [done|]. intros x' y' _ Hb. unfold raster_before in Hb. lia.
  - intros x0 y0 t t' Hx0 Hy0 [Hshape Hq]. unfold ordered_step.
    destruct (alpha_mask img y0 x0) eqn:Hmask; cbn [negb].
    + intros (idx & _ & (new_pixel & Hnew%index_elem_of & [= <-])%bind_Ok)%bind_Ok.
      split; [by apply frame_of_size_putpixel|].
      apply (quantized_before_step _ _ _ _ _ t); [done| |].
      * intros x' y' Hb. apply getpixel_putpixel_ne. by apply raster_before_ne.
      * intros _. rewrite (getpixel_putpixel_frame (width img) (height img)) by done.
        by rewrite pixel_rgb_with_rgb.
    + intros [= <-]. split; [done|].
      apply (quantized_before_step _ _ _ _ _ t); [done|done|]. by rewrite Hmask.
  - intros y0 t [Ht Hq]. split; [done|]. by apply quantized_before_next_row.
Qed.

Lemma dict_get_elem_of (key : color_key) (n : Z) (c : rgb) :
  dict_get key n = Ok c -> c ∈ key.*2.
Proof.
  induction key as [|[k v] key IH]; cbn [dict_get]; [done|].
  destruct (decide (k = n)).
  - intros [= ->]. apply list_elem_of_here.
  - intros Hc. apply list_elem_of_further. by apply IH.
Qed.

Lemma color_values_rgb_bytes (key : color_key) :
  Forall byte_rgb key.*2 -> color_values_rgb key = key.*2.
Proof.
  unfold color_values_rgb.
  induction 1 as [|[[r g] b] cs (Hr & Hg & Hb) _ IH]; csimpl; [done|].
  rewrite IH. unfold to_uint8, is_byte in *.
  rewrite !Z.mod_small by lia. done.
Qed.

Lemma random_dithering_quantized use_lab (img out : image) (key : color_key)
    p (g g' : rng) :
  rectangular img ->
  random_dithering use_lab img key p g = Ok (out, g') ->
  forall x y, (x < width img)%nat -> (y < height img)%nat ->
    pA (getpixel img x y) ≠ 0 ->
    pixel_rgb (getpixel out x y) ∈ key.*2.
Proof.
  intros Hrect Hloop x y Hx Hy Ha. unfold random_dithering in Hloop.
  apply (raster_loop_invariant
           (fun x y (st : image * rng) =>
              frame_of_size (width img) (height img) st.1
              /\ frozen_kept img st.1
              /\ quantized_before key.*2
                   (fun y x => negb (pA (getpixel img x y) =? 0))
                   (width img) x y st.1))
    in Hloop as (_ & _ & Hq).
  - apply Hq; [done| |].
    + by apply raster_before_end with (width img).
    + apply negb_true_iff. by apply Z.eqb_neq.
  - split; [done|]. split; [apply frozen_kept_refl|].
    intros x' y' _ Hb. unfold raster_before in Hb. lia.
  - intros x0 y0 [t g0] [t' g1] Hx0 Hy0 (Hshape & Hfr & Hq). cbn [fst] in *.
    unfold random_step.
    destruct (Hfr x0 y0) as [Halpha _].
    destruct (pA (getpixel t x0 y0) =? 0) eqn:Hz.
    + intros [= <- <-]. split; [done|]. split; [done|].
      apply (quantized_before_step _ _ _ _ _ t); [done|done|].
      rewrite <- Halpha, Hz. done.
    + intros ([noisy g2] & _ & (n & _ & (new_pixel & Hnew%dict_get_elem_of
                & [= <- <-])%bind_Ok)%bind_Ok)%bind_Ok.
      apply Z.eqb_neq in Hz.
      split; [by apply frame_of_size_putpixel|]. split.
      * apply frozen_kept_putpixel; [done|apply pA_with_rgb|by rewrite <- Halpha].
      * apply (quantized_before_step _ _ _ _ _ t); [done| |].
        -- intros x' y' Hb. apply getpixel_putpixel_ne. by apply raster_before_ne.
        -- intros _.
           rewrite (getpixel_putpixel_frame (width img) (height img)) by done.
           by rewrite pixel_rgb_with_rgb.
  - intros y0 [t g0] (Ht & Hfr & Hq). split; [done|]. split; [done|].
    by apply quantized_before_next_row.
Qed.

(** X6. the Pillow-based [error_diffusion_dithering] with a matrix that
    only reaches pixels later in raster order returns an image in which
    every pixel of non-zero alpha holds a colour of the dict. *)
Theorem pillow_error_diffusion_writes_palette_colours (use_lab : bool)
    (img out : image) (key : color_key) (strength : Q) (diffusion_matrix : kernel) :
  rectangular img -> forward_kernel diffusion_matrix ->
  error_diffusion_dithering use_lab img key strength diffusion_matrix = Ok out ->
  forall x y, (x < width img)%nat -> (y < height img)%nat ->
    pA (getpixel img x y) ≠ 0 ->
    pixel_rgb (getpixel out x y) ∈ key.*2.
Proof.
  intros Hrect Hk Hloop x y Hx Hy Ha. unfold error_diffusion_dithering in Hloop.
  apply (raster_loop_invariant
           (fun x y (t : image) =>
              frame_of_size (width img) (height img) t
              /\ frozen_kept img t
              /\ quantized_before key.*2
                   (fun y x => negb (pA (getpixel img x y) =? 0))
                   (width img) x y t))
    in Hloop as (_ & _ & Hq).
  - apply Hq; [done| |].
    + by apply raster_before_end with (width img).
    + apply negb_true_iff. by apply Z.eqb_neq.
  - split; [done|]. split; [apply frozen_kept_refl|].
    intros x' y' _ Hb. unfold raster_before in Hb. lia.
  - intros x0 y0 t t' Hx0 Hy0 (Hshape & Hfr & Hq).
    unfold error_diffusion_step.
    destruct (Hfr x0 y0) as [Halpha _].
    destruct (pA (getpixel t x0 y0) =? 0) eqn:Hz.
    + intros [= <-]. split; [done|]. split; [done|].
      apply (quantized_before_step _ _ _ _ _ t); [done|done|].
      rewrite <- Halpha, Hz. done.
    + intros (n & _ & (new_pixel & Hnew%dict_get_elem_of & [= <-])%bind_Ok)%bind_Ok.
      apply Z.eqb_neq in Hz.
      split; [by apply distribute_error_frame_of_size, frame_of_size_putpixel|].
      split.
      * apply frozen_kept_distribute_error.
        apply frozen_kept_putpixel; [done|apply pA_with_rgb|by rewrite <- Halpha].
      * apply (quantized_before_step _ _ _ _ _ t); [done| |].
        -- intros x' y' Hb.
           rewrite distribute_error_before
             by (done || by apply raster_before_weaken).
           apply getpixel_putpixel_ne. by apply raster_before_ne.
        -- intros _.
           rewrite distribute_error_before by (done || (unfold raster_before; lia)).
           rewrite (getpixel_putpixel_frame (width img) (height img)) by done.
           by rewrite pixel_rgb_with_rgb.
  - intros y0 t (Ht & Hfr & Hq). split; [done|]. split; [done|].
    by apply quantized_before_next_row.
Qed.

Lemma source_matrices_forward :
  Forall forward_kernel
    [atkinson_matrix; stucki_matrix; floyd_steinberg_matrix;
     jarvis_judice_ninke_matrix; sierra2_matrix].
Proof.
  repeat (apply Forall_cons; split;
    [unfold forward_kernel;
     repeat (apply Forall_cons; split; [cbn; lia|]); by apply Forall_nil|]).
  by apply Forall_nil.
Qed.

(** X7. whichever dithering method [process_image] runs, on a decoded
    image with a palette of byte colours, every pixel of positive alpha
    of the result holds a palette colour. *)
Theorem dithering_output_in_palette (use_lab : bool) (img out : image)
    (key : color_key) (mode : string) (p : params) (g g' : rng) :
  rectangular img -> Forall byte_rgb key.*2 ->
  mode ∈ dithering_methods ->
  process_image use_lab img key mode p g = Ok (out, g') ->
  forall x y, (x < width img)%nat -> (y < height img)%nat ->
    0 < pA (getpixel img x y) ->
    pixel_rgb (getpixel out x y) ∈ key.*2.
Proof.
  intros Hrect Hbytes Hmode Hrun x y Hx Hy Ha.
  rewrite <- (color_values_rgb_bytes key Hbytes).
  unfold dithering_methods in Hmode.
  repeat (apply elem_of_cons in Hmode as [->|Hmode]);
    [..|by apply elem_of_nil in Hmode];
    unfold process_image in Hrun; cbn [registry_get processing_method_registry
      String.eqb Ascii.eqb Bool.eqb] in Hrun;
    try (unfold no_rng in Hrun;
         apply bind_Ok in Hrun as (out' & Hout & [= <- <-])).
  - by apply (hybrid_dithering_quantized use_lab img out' key p).
  - by apply (ordered_dithering_quantized use_lab img out' key p).
  - destruct (optimized_error_diffusion_quantized use_lab img out' key
                (get_strength p) atkinson_matrix Hrect
                (Forall_lookup_1 _ _ 0 _ source_matrices_forward eq_refl) Hout)
      as [_ Hq].
    by apply Hq.
  - destruct (optimized_error_diffusion_quantized use_lab img out' key
                (get_strength p) stucki_matrix Hrect
                (Forall_lookup_1 _ _ 1 _ source_matrices_forward eq_refl) Hout)
      as [_ Hq].
    by apply Hq.
  - destruct (optimized_error_diffusion_quantized use_lab img out' key
                (get_strength p) floyd_steinberg_matrix Hrect
                (Forall_lookup_1 _ _ 2 _ source_matrices_forward eq_refl) Hout)
      as [_ Hq].
    by apply Hq.
  - destruct (optimized_error_diffusion_quantized use_lab img out' key
                (get_strength p) jarvis_judice_ninke_matrix Hrect
                (Forall_lookup_1 _ _ 3 _ source_matrices_forward eq_refl) Hout)
      as [_ Hq].
    by apply Hq.
  - destruct (optimized_error_diffusion_quantized use_lab img out' key
                (get_strength p) sierra2_matrix Hrect
                (Forall_lookup_1 _ _ 4 _ source_matrices_forward eq_refl) Hout)
      as [_ Hq].
    by apply Hq.
  - rewrite (color_values_rgb_bytes key Hbytes).
    apply (random_dithering_quantized use_lab img out key p g g'); try done. lia.
Qed.

(** X8. error diffusion with a matrix that only reaches pixels later in
    raster order (as the five matrices of the source do) returns an
    image of the same size in which every pixel of positive alpha holds
    a palette colour: the error spread into a pixel is absorbed when the
    scan reaches it and nothing is written to it afterwards. *)
Theorem error_diffusion_writes_palette_colours (use_lab : bool) (img out : image)
    (key : color_key) (strength : Q) (diffusion_matrix : kernel) :
  rectangular img -> forward_kernel diffusion_matrix ->
  optimized_error_diffusion_dithering use_lab img key strength diffusion_matrix
  = Ok out ->
  frame_of_size (width img) (height img) out
  /\ (forall x y, (x < width img)%nat -> (y < height img)%nat ->
        0 < pA (getpixel img x y) ->
        pixel_rgb (getpixel out x y) ∈ color_values_rgb key)
  /\ Forall forward_kernel
       [atkinson_matrix; stucki_matrix; floyd_steinberg_matrix;
        jarvis_judice_ninke_matrix; sierra2_matrix].
Proof.
  intros Hrect Hk Hrun.
  destruct (optimized_error_diffusion_quantized use_lab img out key strength
              diffusion_matrix Hrect Hk Hrun) as [Hshape Hq].
  split; [done|]. split; [done|].
  apply source_matrices_forward.
Qed.

End DitheringPalette.

Lemma error_diffusion_writes_palette_colours_witness :
  let img := [[Pixel 100 100 100 255; Pixel 10 20 30 0];
              [Pixel 200 100 50 128; Pixel 100 100 100 255]] in
  let out := [[Pixel 0 0 0 255; Pixel 10 20 30 0];
              [Pixel 255 255 255 128; Pixel 0 0 0 255]] in
  frame_of_size (width img) (height img) out
  /\ (forall x y, (x < width img)%nat -> (y < height img)%nat ->
        0 < pA (getpixel img x y) ->
        pixel_rgb (getpixel out x y) ∈ color_values_rgb white_black)
  /\ Forall forward_kernel
       [atkinson_matrix; stucki_matrix; floyd_steinberg_matrix;
        jarvis_judice_ninke_matrix; sierra2_matrix].
Proof.
  apply (@error_diffusion_writes_palette_colours rgb_only false
           [[Pixel 100 100 100 255; Pixel 10 20 30 0];
            [Pixel 200 100 50 128; Pixel 100 100 100 255]]
           [[Pixel 0 0 0 255; Pixel 10 20 30 0];
            [Pixel 255 255 255 128; Pixel 0 0 0 255]]
           white_black 1%Q atkinson_matrix).
  - repeat constructor.
  - unfold forward_kernel.
    repeat (apply Forall_cons; split; [cbn; lia|]). by apply Forall_nil.
  - vm_compute. reflexivity.
Defined.

Lemma pillow_error_diffusion_writes_palette_colours_witness :
  let img := [[Pixel 100 100 100 255; Pixel 10 20 30 0];
              [Pixel 200 100 50 128; Pixel 100 100 100 255]] in
  let out := [[Pixel 0 0 0 255; Pixel 10 20 30 0];
              [Pixel 255 255 255 128; Pixel 0 0 0 255]] in
  @error_diffusion_dithering rgb_only false img white_black 1%Q atkinson_matrix
  = Ok out
  /\ forall x y, (x < width img)%nat -> (y < height img)%nat ->
       pA (getpixel img x y) ≠ 0 ->
       pixel_rgb (getpixel out x y) ∈ white_black.*2.
Proof.
  split; [vm_compute; reflexivity|].
  apply (@pillow_error_diffusion_writes_palette_colours rgb_only false
           [[Pixel 100 100 100 255; Pixel 10 20 30 0];
            [Pixel 200 100 50 128; Pixel 100 100 100 255]]
           [[Pixel 0 0 0 255; Pixel 10 20 30 0];
            [Pixel 255 255 255 128; Pixel 0 0 0 255]]
           white_black 1%Q atkinson_matrix).
  - repeat constructor.
  - unfold forward_kernel.
    repeat (apply Forall_cons; split; [cbn; lia|]). by apply Forall_nil.
  - vm_compute. reflexivity.
Defined.

Lemma dithering_output_in_palette_witness :
  let img := [[Pixel 100 100 100 255; Pixel 10 20 30 0];
              [Pixel 200 100 50 128; Pixel 100 100 100 255]] in
  let out := [[Pixel 0 0 0 255; Pixel 10 20 30 0];
              [Pixel 255 255 255 128; Pixel 0 0 0 255]] in
  @process_image rgb_only false img white_black "Atkinson Dither" ∅
    (constant_rng 0) = Ok (out, constant_rng 0)
  /\ forall x y, (x < width img)%nat -> (y < height img)%nat ->
       0 < pA (getpixel img x y) ->
       pixel_rgb (getpixel out x y) ∈ white_black.*2.
Proof.
  split; [vm_compute; reflexivity|].
  apply (@dithering_output_in_palette rgb_only false
           [[Pixel 100 100 100 255; Pixel 10 20 30 0];
            [Pixel 200 100 50 128; Pixel 100 100 100 255]]
           [[Pixel 0 0 0 255; Pixel 10 20 30 0];
            [Pixel 255 255 255 128; Pixel 0 0 0 255]]
           white_black "Atkinson Dither" ∅ (constant_rng 0) (constant_rng 0)).
  - repeat constructor.
  - repeat constructor; unfold is_byte; lia.
  - unfold dithering_methods. apply (bool_decide_unpack _). vm_compute. exact I.
  - vm_compute. reflexivity.
Defined.

(* ================================================================= *)
(** ** The animation encoder: first frame, replay and missing frames *)

Lemma foldl_pair_lines {A} (P : A -> bool) (ins : A -> pixel_map -> pixel_map)
    (line : A -> string) (l : list A) (m : pixel_map) (f : list string) :
  (foldl (fun (st : pixel_map * list string) a =>
            if P a then (ins a st.1, st.2 ++ [line a]) else st) (m, f) l).2
  = f ++ (line <$> filter (fun a => P a) l).
Proof.
  revert m f. induction l as [|a l IH]; intros m f; cbn [foldl].
  - by rewrite filter_nil, app_nil_r.
  - rewrite filter_cons. destruct (P a) eqn:Ha.
    + rewrite IH. cbn [fst snd]. rewrite decide_True by done.
      by rewrite <- app_assoc.
    + rewrite IH. rewrite decide_False by (by intros ?). done.
Qed.

Lemma foldl_pair_map {A} (P : A -> bool) (ins : A -> pixel_map -> pixel_map)
    (line : A -> string) (l : list A) (m : pixel_map) (f : list string) :
  (foldl (fun (st : pixel_map * list string) a =>
            if P a then (ins a st.1, st.2 ++ [line a]) else st) (m, f) l).1
  = foldl (fun m a => if P a then ins a m else m) m l.
Proof.
  revert m f. induction l as [|a l IH]; intros m f; cbn [foldl]; [done|].
  destruct (P a); by rewrite IH.
Qed.

Section FirstFrame.
Context `{External}.

(** X9. the first frame of an animation is written to [stamp.txt] as the
    header followed by one line per pixel of alpha above 191, rows from
    top to bottom and each row from left to right, with the Y coordinate
    as it is in the image (the static encoder counts it from the bottom);
    the pixel map holds the number of exactly these pixels. *)
Theorem first_frame_stamp_lines (use_lab : bool) (key : color_key)
    (first_frame : image) (total_frames : nat) (uniform_delay : Z) :
  key ≠ [] -> rectangular first_frame ->
  exists m,
    encode_first_frame use_lab key first_frame total_frames uniform_delay
    = Ok (m,
          gif_header (width first_frame) (height first_frame) total_frames
            uniform_delay
          :: ((fun xy => point_line xy.1 xy.2
                           (matched_number use_lab key
                              (getpixel first_frame xy.1 xy.2)))
              <$> filter (fun xy => kept first_frame xy)
                    (raster_coords (width first_frame) (height first_frame))))
    /\ forall xy,
         m !! xy = if kept first_frame xy
                   then Some (matched_number use_lab key
                                (getpixel first_frame xy.1 xy.2))
                   else None.
Proof.
  intros Hkey Hrect. unfold encode_first_frame.
  rewrite (for_range_raster (width first_frame) (height first_frame)
             (fun y x => first_frame_step use_lab key first_frame y x)).
  rewrite (for_each_foldl _ _
    (fun xy (st : pixel_map * list string) =>
       if kept first_frame xy
       then (<[xy := matched_number use_lab key (getpixel first_frame xy.1 xy.2)]> st.1,
             st.2 ++ [point_line xy.1 xy.2
                        (matched_number use_lab key (getpixel first_frame xy.1 xy.2))])
       else st)).
  2:{ intros [x y] st _. cbn [fst snd]. by apply first_frame_step_Ok. }
  pose proof (foldl_pair_lines (fun xy => kept first_frame xy)
    (fun xy m => <[xy := matched_number use_lab key (getpixel first_frame xy.1 xy.2)]> m)
    (fun xy => point_line xy.1 xy.2
                 (matched_number use_lab key (getpixel first_frame xy.1 xy.2)))
    (raster_coords (width first_frame) (height first_frame)) ∅
    [gif_header (width first_frame) (height first_frame) total_frames uniform_delay])
    as Hlines.
  pose proof (foldl_pair_map (fun xy => kept first_frame xy)
    (fun xy m => <[xy := matched_number use_lab key (getpixel first_frame xy.1 xy.2)]> m)
    (fun xy => point_line xy.1 xy.2
                 (matched_number use_lab key (getpixel first_frame xy.1 xy.2)))
    (raster_coords (width first_frame) (height first_frame)) ∅
    [gif_header (width first_frame) (height first_frame) total_frames uniform_delay])
    as Hmap.
  cbv beta in Hlines, Hmap.
  destruct (foldl _ _ _) as [m stamp_file]. cbn [fst snd] in Hlines, Hmap.
  exists m. split; [by rewrite Hlines|].
  intros xy. rewrite Hmap.
  pose proof (foldl_insert_lookup
    (fun xy => if kept first_frame xy
               then Some (matched_number use_lab key (getpixel first_frame xy.1 xy.2))
               else None)
    (raster_coords (width first_frame) (height first_frame)) ∅ xy
    (NoDup_raster_coords _ _)) as Hlook.
  cbv beta in Hlook.
  rewrite (foldl_ext _
    (fun m xy => if kept first_frame xy
                 then <[xy := matched_number use_lab key (getpixel first_frame xy.1 xy.2)]> m
                 else m)) in Hlook
    by (intros a b; by destruct (kept first_frame b)).
  rewrite Hlook. case_decide as Hin.
  - destruct (kept first_frame xy); [done|apply lookup_empty].
  - rewrite lookup_empty. destruct xy as [x y].
    rewrite elem_of_raster_coords in Hin.
    unfold kept, getpixel. cbn [fst snd]. by rewrite lookup_outside.
Qed.

End FirstFrame.

Lemma first_frame_stamp_lines_witness :
  exists m,
    @encode_first_frame rgb_only false white_black
      [[opaque_white; Pixel 9 9 9 191]; [opaque_black; opaque_white]] 3 100
    = Ok (m,
          gif_header 2 2 3 100
          :: ((fun xy => point_line xy.1 xy.2
                           (@matched_number rgb_only false white_black
                              (getpixel [[opaque_white; Pixel 9 9 9 191];
                                         [opaque_black; opaque_white]] xy.1 xy.2)))
              <$> filter (fun xy => kept [[opaque_white; Pixel 9 9 9 191];
                                          [opaque_black; opaque_white]] xy)
                    (raster_coords 2 2)))
    /\ forall xy,
         m !! xy = if kept [[opaque_white; Pixel 9 9 9 191];
                            [opaque_black; opaque_white]] xy
                   then Some (@matched_number rgb_only false white_black
                                (getpixel [[opaque_white; Pixel 9 9 9 191];
                                           [opaque_black; opaque_white]] xy.1 xy.2))
                   else None.
Proof.
  apply (@first_frame_stamp_lines rgb_only false white_black
           [[opaque_white; Pixel 9 9 9 191]; [opaque_black; opaque_white]] 3 100).
  - done.
  - repeat constructor.
Defined.

(** X10. replaying the delta block of a frame on the pixel map of the
    frame before it gives, at every coordinate, the value of the frame's
    own map: the block holds all that changed. *)
Theorem frame_diffs_replay (O : set_order) (prev cur : pixel_map)
    (xy : nat * nat) :
  get_color (replay prev (frame_diffs O prev cur)) xy = get_color cur xy.
Proof.
  rewrite frame_diffs_filter. unfold get_color at 1.
  rewrite replay_lookup
    by (apply NoDup_filter, iterate_NoDup).
  case_decide as Hin; [done|].
  rewrite list_elem_of_filter, iterate_elem_of in Hin.
  fold (get_color prev xy).
  destruct (decide (get_color cur xy = get_color prev xy)) as [->|Hne]; [done|].
  destruct (decide (xy ∈ dom prev ∪ dom cur)) as [Hd|Hd]; [by destruct Hin|].
  apply not_elem_of_union in Hd as [Hp Hc].
  apply not_elem_of_dom in Hp, Hc. unfold get_color. by rewrite Hp, Hc.
Qed.

(** X11. replaying the closing block on the map of the last frame gives
    back the value of the first frame at a coordinate exactly when it is
    not the case that the last frame is transparent there while the first
    frame is not. *)
Theorem closing_block_replay (O : set_order) (first last : pixel_map)
    (xy : nat * nat) :
  get_color (replay last (closing_diffs O first last)) xy = get_color first xy
  <-> ¬ (get_color last xy = -1 /\ get_color first xy ≠ -1).
Proof.
  rewrite closing_replay_result. case_decide as Hl.
  - split.
    + intros Hf [_ Hne]. by apply Hne.
    + intros Hn. destruct (decide (get_color first xy = -1)) as [->|Hne]; [done|].
      by destruct Hn.
  - split; [|done]. intros _ [Hl' _]. done.
Qed.

Section SavedFrames.
Context `{External}.

(** X12. a frame saved by [save_frames] is the processed frame with every
    pixel of alpha below 204 cleared to transparent black; so its alpha
    values are 0 or at least 204, and the encoder's test [a <= 191] keeps
    exactly the pixels whose processed alpha is at least 204. *)
Theorem save_frame_opacity (target_size : option Q) (process_mode : string)
    (use_lab : bool) (process_params : params)
    (color_key_array : list PaletteEntry) (remove_bg preprocess_flag : bool)
    (key : color_key) (frame out : image) (g g' : rng) :
  save_frame target_size process_mode use_lab process_params color_key_array
    remove_bg preprocess_flag key frame g = Ok (out, g') ->
  exists prepared processed,
    process_image use_lab prepared key process_mode process_params g
    = Ok (processed, g')
    /\ (rectangular processed ->
        frame_of_size (width processed) (height processed) out
        /\ forall x y,
             getpixel out x y
             = (if pA (getpixel processed x y) <? 204 then transparent_black
                else getpixel processed x y)
             /\ kept out (x, y) = (204 <=? pA (getpixel processed x y))
             /\ (pA (getpixel out x y) = 0 \/ 204 <= pA (getpixel out x y))).
Proof.
  unfold save_frame.
  intros (f1 & _ & (f2 & _ & ([processed g2] & Hproc & [= <- <-])%bind_Ok)%bind_Ok)%bind_Ok.
  exists f2, processed. split; [done|]. intros Hrect.
  pose proof (clearing_loop_shape (fun p => pA p <? 204) processed Hrect) as Hshape.
  cbv beta zeta in Hshape. split; [done|].
  intros x y.
  pose proof (clearing_loop_lookup (fun p => pA p <? 204) processed x y Hrect) as Hl.
  cbv beta in Hl.
  apply getpixel_fmap_lookup in Hl; [|done].
  unfold kept. cbn [fst snd].
  change (fold_range (height processed)
            (fun y0 => fold_range (width processed)
               (fun x0 pixels =>
                  let a := pA (getpixel pixels x0 y0) in
                  if a <? 204 then putpixel pixels x0 y0 transparent_black
                  else pixels)) processed)
    with (fold_range (height processed)
            (fun y0 => fold_range (width processed)
               (fun x0 pixels =>
                  if pA (getpixel pixels x0 y0) <? 204
                  then putpixel pixels x0 y0 transparent_black
                  else pixels)) processed).
  rewrite Hl. unfold clear_if.
  destruct (Z.ltb_spec (pA (getpixel processed x y)) 204) as [Hlt|Hge].
  - split_and!; [done| |by left].
    cbn. symmetry. apply Z.leb_gt. lia.
  - split_and!; [done| |by right].
    transitivity true; [apply Z.ltb_lt; lia|symmetry; apply Z.leb_le; lia].
Qed.

End SavedFrames.

Lemma save_frame_opacity_witness :
  exists prepared processed,
    @process_image rgb_only false prepared white_black "Color Match" ∅
      (constant_rng 0)
    = Ok (processed, constant_rng 0)
    /\ (rectangular processed ->
        frame_of_size (width processed) (height processed)
          [[transparent_black; opaque_white]]
        /\ forall x y,
             getpixel [[transparent_black; opaque_white]] x y
             = (if pA (getpixel processed x y) <? 204 then transparent_black
                else getpixel processed x y)
             /\ kept [[transparent_black; opaque_white]] (x, y)
                = (204 <=? pA (getpixel processed x y))
             /\ (pA (getpixel [[transparent_black; opaque_white]] x y) = 0
                 \/ 204 <= pA (getpixel [[transparent_black; opaque_white]] x y))).
Proof.
  apply (@save_frame_opacity rgb_only None "Color Match" false ∅ [] false false
           white_black [[Pixel 1 2 3 200; opaque_white]]
           [[transparent_black; opaque_white]] (constant_rng 0) (constant_rng 0)).
  vm_compute. reflexivity.
Defined.

Section MissingFrames.
Context `{External}.
Variable O : set_order.

Lemma uniform_delay_of_Ok (delays : list Z) :
  delays ≠ [] -> exists u, uniform_delay_of delays = Ok u.
Proof.
  destruct delays as [|d0 delays]; [done|]. intros _. unfold uniform_delay_of.
  cbn [index lookup list_lookup mbind result_bind]. by eexists.
Qed.

Lemma encode_frame_missing use_lab (key : color_key) (w h : nat)
    (saved : list image) (delays : list Z) (u : Z) (frame_number : nat)
    (st : encoder_state) :
  saved !! (frame_number - 1)%nat = None ->
  encode_frame O use_lab key w h saved delays u frame_number st
  = Raise FileNotFoundError.
Proof. intros Hnone. unfold encode_frame. by rewrite Hnone. Qed.

(** X13. when fewer frame files were saved than the animation has frames,
    the encoder ends with [FileNotFoundError], raised where the first
    missing frame is opened (the test [frame_path.exists] of the source
    names the method without calling it and never stops the loop). *)
Theorem encode_gif_missing_frame (use_lab : bool) (key : color_key)
    (first : image) (rest : list image) (total_frames : nat) (delays : list Z) :
  key ≠ [] ->
  Forall (frame_of_size (width first) (height first)) (first :: rest) ->
  (S (length rest) < total_frames)%nat ->
  (S (length rest) <= length delays)%nat ->
  encode_gif O use_lab key (first :: rest) total_frames delays
  = Raise FileNotFoundError
  /\ encode_gif O use_lab key [] total_frames delays = Raise FileNotFoundError.
Proof.
  intros Hkey Hsize Hlt Hdel.
  destruct (uniform_delay_of_Ok delays) as [u Hu].
  { intros ->. cbn in Hdel. lia. }
  unfold encode_gif. rewrite Hu. cbn [mbind result_bind lookup list_lookup].
  split; [|done].
  apply Forall_cons in Hsize as [Hfirst Hrest].
  destruct (encode_first_frame_Ok use_lab key (width first) (height first) Hkey
              first total_frames u Hfirst) as (m & stamp_file & -> & Hm).
  cbn [mbind result_bind].
  replace (total_frames - 1)%nat
    with (length rest + (total_frames - 1 - length rest))%nat by lia.
  rewrite seq_app, for_each_app.
  destruct (encode_frames_Ok O use_lab key (width first) (height first) Hkey
              (first :: rest) delays u rest [first] first
              {| Frame1Array := m; frames_file := []; header_frame_number := 1 |})
    as (st' & blocks & Hloop & _); try done.
  cbn [length] in Hloop. rewrite Hloop. cbn [mbind result_bind].
  destruct (total_frames - 1 - length rest)%nat as [|k] eqn:Hk; [lia|].
  cbn [seq for_each]. rewrite encode_frame_missing; [done|].
  apply lookup_ge_None_2. cbn [length]. lia.
Qed.

End MissingFrames.

Lemma encode_gif_missing_frame_witness :
  @encode_gif rgb_only elements_order false white_black
    ([[opaque_white]] :: [[[opaque_black]]]) 3 [100; 100; 100]
  = Raise FileNotFoundError
  /\ @encode_gif rgb_only elements_order false white_black [] 3 [100; 100; 100]
     = Raise FileNotFoundError.
Proof.
  apply (@encode_gif_missing_frame rgb_only elements_order false white_black
           [[opaque_white]] [[[opaque_black]]] 3 [100; 100; 100]).
  - done.
  - repeat constructor.
  - cbn. lia.
  - cbn. lia.
Defined.

(* ================================================================= *)
(** ** The dynamic threshold: bounds *)

Local Open Scope Q_scope.





Local Close Scope Q_scope.

(* ================================================================= *)
(** ** The tone preprocessor: what it keeps and what it rejects *)

Lemma mapR_raises {A B} (f : A -> result B) (l : list A) (a : A) (e : exn) :
  a ∈ l -> f a = Raise e -> (forall b e', f b = Raise e' -> e' = e) ->
  mapR f l = Raise e.
Proof.
  intros Hin Ha Hall. induction l as [|b l IH]; [by apply elem_of_nil in Hin|].
  cbn [mapR]. destruct (f b) as [v|e'] eqn:Hb; cbn [mbind result_bind].
  - apply elem_of_cons in Hin as [->|Hin]; [congruence|].
    by rewrite IH.
  - by rewrite (Hall _ _ Hb).
Qed.

Lemma parse_hex_hash (code : string) :
  parse_hex (String "#" code) = Raise ValueError.
Proof.
  unfold parse_hex.
  assert (int_base16 (substring 0 2 (String "#" code)) = Raise ValueError) as ->; [|done].
  destruct code as [|c code]; cbn [substring]; [done|].
  destruct code; done.
Qed.

Lemma lookup_imap2 (f : nat -> nat -> pixel -> pixel) (img : image) (x y : nat) :
  imap (fun y row => imap (fun x p => f y x p) row) img !! y ≫= (.!! x)
  = f y x <$> (img !! y ≫= (.!! x)).
Proof.
  rewrite list_lookup_imap. destruct (img !! y) as [row|]; [|done]. cbn.
  by rewrite list_lookup_imap.
Qed.

Section PreprocessFrame.
Context `{External}.

Lemma preprocess_image_pixel (use_lab : bool) (image_array out : image)
    (color_key_array : list PaletteEntry) (x y : nat) :
  preprocess_image use_lab image_array color_key_array = Ok out ->
  getpixel out x y
  = if 191 <=? pA (getpixel image_array x y)
    then with_rgb
           (default (pixel_rgb (getpixel image_array x y))
              (preprocess_passes use_lab (map pixel_rgb <$> image_array)
                 (preprocess_opaque_mask image_array) color_key_array
               !! y ≫= (.!! x)))
           (getpixel image_array x y)
    else getpixel image_array x y.
Proof.
  unfold preprocess_image. intros (parsed & _ & Hout)%bind_Ok.
  destruct color_key_array as [|ck cks]; [done|]. injection Hout as <-.
  pose proof (lookup_imap2
    (fun y x p =>
       if preprocess_opaque_mask image_array y x
       then with_rgb (default (pixel_rgb p)
              (preprocess_passes use_lab (map pixel_rgb <$> image_array)
                 (preprocess_opaque_mask image_array) (ck :: cks)
               !! y ≫= (.!! x))) p
       else p) image_array x y) as Hlook.
  cbv beta in Hlook. unfold getpixel at 1. rewrite Hlook.
  unfold preprocess_opaque_mask at 1. rewrite Z.geb_leb.
  unfold getpixel.
  destruct (image_array !! y ≫= (.!! x)) as [p|]; [done|].
  cbn [fmap option_fmap option_map default]. done.
Qed.

(** X15. when [preprocess_image] returns, the image has the size and the
    alpha values of its input, and every pixel whose alpha is below 191
    is exactly as it was: the passes only show in pixels of alpha 191 and
    above. *)
Theorem preprocess_image_keeps_translucent (use_lab : bool)
    (image_array out : image) (color_key_array : list PaletteEntry) :
  preprocess_image use_lab image_array color_key_array = Ok out ->
  height out = height image_array /\ width out = width image_array
  /\ forall x y,
       pA (getpixel out x y) = pA (getpixel image_array x y)
       /\ (pA (getpixel image_array x y) < 191 ->
           getpixel out x y = getpixel image_array x y)
       /\ (191 <= pA (getpixel image_array x y) ->
           pixel_rgb (getpixel out x y)
           = default (pixel_rgb (getpixel image_array x y))
               (preprocess_passes use_lab (map pixel_rgb <$> image_array)
                  (preprocess_opaque_mask image_array) color_key_array
                !! y ≫= (.!! x))).
Proof.
  intros Hrun. split; [|split].
  - unfold preprocess_image in Hrun. apply bind_Ok in Hrun as (parsed & _ & Hout).
    destruct color_key_array as [|ck cks]; [done|]. injection Hout as <-.
    unfold height. by rewrite length_imap.
  - unfold preprocess_image in Hrun. apply bind_Ok in Hrun as (parsed & _ & Hout).
    destruct color_key_array as [|ck cks]; [done|]. injection Hout as <-.
    destruct image_array as [|row rows]; [done|]. cbn. by rewrite length_imap.
  - intros x y. rewrite (preprocess_image_pixel _ _ _ _ x y Hrun).
    destruct (Z.leb_spec 191 (pA (getpixel image_array x y))) as [Hge|Hlt].
    + split; [apply pA_with_rgb|]. split; [lia|]. intros _.
      apply pixel_rgb_with_rgb.
    + split; [done|]. split; [done|lia].
Qed.

(** X16. [preprocess_image] raises [ValueError] for an empty palette array
    and for an array with an entry whose code starts with [#] (it reads
    the code without stripping the sign), although [build_color_key]
    accepts such an entry. *)
Theorem preprocess_image_rejects (use_lab : bool) (image_array : image) :
  preprocess_image use_lab image_array [] = Raise ValueError
  /\ (forall color_key_array item code,
        item ∈ color_key_array -> hex item = String "#" code ->
        preprocess_image use_lab image_array color_key_array = Raise ValueError)
  /\ (forall n code,
        six_hex_digits code ->
        exists c, build_color_key [entry n (String "#" code)] = Ok [(n, c)]).
Proof.
  split; [done|]. split.
  - intros color_key_array item code Hin Hhex. unfold preprocess_image.
    rewrite (mapR_raises _ _ item ValueError); [done|done| |].
    + rewrite Hhex. apply parse_hex_hash.
    + intros b e'. apply parse_hex_ValueError.
  - intros n code Hsix.
    assert (Hstrip : lstrip_hash (String "#" code) = code).
    { cbn [lstrip_hash]. change (Ascii.eqb "#" "#") with true. cbn iota.
      destruct Hsix as [Hlen Hall]. destruct code as [|c code]; [done|].
      cbn [list_ascii_of_string] in Hall. apply Forall_cons in Hall as [[d Hd] _].
      cbn [lstrip_hash]. destruct (Ascii.eqb_spec c "#") as [->|]; [|done].
      by vm_compute in Hd. }
    destruct (parse_hex_six code Hsix) as (c & Hc & _).
    exists c. unfold build_color_key. cbn [for_each entry hex number].
    rewrite Hstrip, Hc. done.
Qed.

End PreprocessFrame.

Lemma preprocess_image_keeps_translucent_witness :
  let img := [[Pixel 1 2 3 190; opaque_white]] in
  height img = height img /\ width img = width img
  /\ forall x y,
       pA (getpixel img x y) = pA (getpixel img x y)
       /\ (pA (getpixel img x y) < 191 -> getpixel img x y = getpixel img x y)
       /\ (191 <= pA (getpixel img x y) ->
           pixel_rgb (getpixel img x y)
           = default (pixel_rgb (getpixel img x y))
               (@preprocess_passes rgb_only false (map pixel_rgb <$> img)
                  (preprocess_opaque_mask img) [entry 0 "ffffff"]
                !! y ≫= (.!! x))).
Proof.
  apply (@preprocess_image_keeps_translucent rgb_only false
           [[Pixel 1 2 3 190; opaque_white]] [[Pixel 1 2 3 190; opaque_white]]
           [entry 0 "ffffff"]).
  vm_compute. reflexivity.
Defined.

(* ================================================================= *)
(** ** The stamp of a quantized image *)

Section StampDecodes.
Context `{External}.

(** In RGB mode the number matched for a palette colour is a key under
    which the dict holds that colour. *)
Lemma matched_number_exact (key : color_key) (p : pixel) :
  key ≠ [] -> is_dict key -> Forall byte_rgb key.*2 ->
  pixel_rgb p ∈ key.*2 ->
  dict_get key (matched_number false key p) = Ok (pixel_rgb p).
Proof.
  intros Hkey Hdict Hbytes Hin.
  assert (Hu8 : rgb_to_uint8 (pixel_rgb p) = pixel_rgb p).
  { rewrite Forall_forall in Hbytes. specialize (Hbytes _ Hin).
    destruct (pixel_rgb p) as [[r g] b]. destruct Hbytes as (Hr & Hg & Hb).
    unfold rgb_to_uint8, to_uint8, is_byte in *.
    rewrite !Z.mod_small by lia. done. }
  unfold matched_number.
  destruct (find_closest_color_nearest false (pixel_rgb p) key Hkey)
    as (n & -> & Hnum & (d & Hd & Hmin & _)).
  rewrite Hu8 in *.
  set (i := closest_index false key (pixel_rgb p)) in *.
  unfold color_nums in Hnum. rewrite list_lookup_fmap in Hnum.
  destruct (key !! i) as [[n' c]|] eqn:Hi; [|done].
  cbn in Hnum. injection Hnum as ->.
  rewrite (dict_get_lookup key i n c Hdict Hi). f_equal.
  unfold distances in Hd, Hmin. rewrite (color_values_rgb_bytes key Hbytes) in Hd, Hmin.
  rewrite !list_lookup_fmap, Hi in Hd. cbn in Hd. injection Hd as Hd.
  apply list_elem_of_lookup_1 in Hin as [j Hj].
  specialize (Hmin j (dist_sq (pixel_rgb p) (pixel_rgb p))).
  unfold rgb in *. rewrite list_lookup_fmap, Hj in Hmin.
  specialize (Hmin eq_refl). unfold metric_point in *.
  assert (dist_sq (pixel_rgb p) (pixel_rgb p) = 0) as H0 by (by apply dist_sq_zero).
  pose proof (dist_sq_nonneg c (pixel_rgb p)).
  apply dist_sq_zero. lia.
Qed.

(** X17. in RGB mode the stamp of an image whose kept pixels hold palette
    colours (as an image has after dithering or colour matching) loses
    nothing: the colour number on each point line is a key of the dict,
    and the colour stored under it is exactly the colour of the pixel. *)
Theorem static_stamp_decodes (img : image) (key : color_key) :
  key ≠ [] -> is_dict key -> Forall byte_rgb key.*2 ->
  (forall x y, kept img (x, y) -> pixel_rgb (getpixel img x y) ∈ key.*2) ->
  exists num : nat * nat -> Z,
    write_stamp false img key =
    img_header (width img) (height img)
    :: ((fun xy => point_line xy.1 (height img - 1 - xy.2) (num xy))
        <$> filter (fun xy => kept img xy)
              (bottom_up_coords (width img) (height img)))
    /\ forall x y, kept img (x, y) ->
         dict_get key (num (x, y)) = Ok (pixel_rgb (getpixel img x y)).
Proof.
  intros Hkey Hdict Hbytes Hq.
  exists (fun xy => matched_number false key (getpixel img xy.1 xy.2)).
  split; [by apply write_stamp_lines|].
  intros x y Hk. cbn [fst snd]. apply matched_number_exact; auto.
Qed.

End StampDecodes.

Lemma static_stamp_decodes_witness :
  exists num : nat * nat -> Z,
    @write_stamp rgb_only false [[opaque_white; Pixel 0 0 0 200]] white_black =
    img_header 2 1
    :: ((fun xy => point_line xy.1 (1 - 1 - xy.2) (num xy))
        <$> filter (fun xy => kept [[opaque_white; Pixel 0 0 0 200]] xy)
              (bottom_up_coords 2 1))
    /\ forall x y, kept [[opaque_white; Pixel 0 0 0 200]] (x, y) ->
         dict_get white_black (num (x, y))
         = Ok (pixel_rgb (getpixel [[opaque_white; Pixel 0 0 0 200]] x y)).
Proof.
  apply (@static_stamp_decodes rgb_only [[opaque_white; Pixel 0 0 0 200]]
           white_black).
  - done.
  - unfold is_dict. apply (bool_decide_unpack _). vm_compute. exact I.
  - repeat constructor; unfold is_byte; lia.
  - intros [|[|x]] [|y] Hk; try (by vm_compute in Hk).
    + apply list_elem_of_here.
    + apply list_elem_of_further, list_elem_of_here.
Defined.

(* ================================================================= *)
(** ** Cropping twice *)

Lemma rectangular_crop (img : image) (bbox : nat * nat * nat * nat) :
  rectangular img -> rectangular (crop img bbox).
Proof.
  destruct bbox as [[[l u] r] d]. intros Hrect. unfold crop.
  assert (Hrows : Forall (fun row : list pixel => length row = width img)
                    (take (d - u) (drop u img))).
  { by apply Forall_take, Forall_drop. }
  unfold rectangular.
  destruct (take (d - u) (drop u img)) as [|row0 rows]; [by apply Forall_nil|].
  cbn [fmap list_fmap width]. apply Forall_cons in Hrows as [H0 Hrows].
  apply Forall_cons. split; [done|].
  apply Forall_fmap. eapply Forall_impl; [exact Hrows|].
  intros row Hrow. cbn in Hrow |- *. rewrite !length_take, !length_drop.
  rewrite Hrow, H0. reflexivity.
Qed.

Lemma crop_full (img : image) :
  rectangular img -> crop img (0, 0, width img, height img)%nat = img.
Proof.
  intros Hrect. unfold crop. rewrite !Nat.sub_0_r, drop_0.
  rewrite take_ge by (unfold height; lia).
  rewrite <- (list_fmap_id img) at 2. apply Forall_fmap_ext_1.
  eapply Forall_impl; [exact Hrect|]. intros row Hrow. cbn in Hrow |- *.
  rewrite drop_0. apply take_ge. lia.
Qed.

(** Either no pixel has a non-zero alpha, or the non-zero alpha values
    have a first and a last column and a first and a last row. *)
Lemma solid_bounds (img : image) :
  rectangular img ->
  (forall x y, pA (getpixel img x y) = 0)
  \/ exists x0 y0 x1 y1,
       (exists y, pA (getpixel img x0 y) ≠ 0)
       /\ (exists y, pA (getpixel img x1 y) ≠ 0)
       /\ (exists x, pA (getpixel img x y0) ≠ 0)
       /\ (exists x, pA (getpixel img x y1) ≠ 0)
       /\ forall x y, pA (getpixel img x y) ≠ 0 ->
            (x0 <= x <= x1)%nat /\ (y0 <= y <= y1)%nat.
Proof.
  intros Hrect.
  set (Pc := fun x : nat =>
         Is_true (existsb (fun y => nonzero_at (map pA <$> img) y x)
                    (range (height img)))).
  set (Pr := fun y : nat =>
         Is_true (existsb (nonzero_at (map pA <$> img) y) (range (width img)))).
  destruct (head (filter Pc (range (width img)))) as [x0|] eqn:Hx0.
  - right.
    apply head_filter_range_1 in Hx0 as (Hc0 & Hlt0 & Hmin0).
    pose proof Hc0 as (y' & Hy')%column_solid; [|done].
    destruct (getpixel_outside img x0 y' Hrect Hy') as [Hx0w Hy'h].
    assert (Hr' : Pr y') by (apply row_solid; [done|]; by exists x0).
    destruct (last (filter Pc (range (width img)))) as [x1|] eqn:Hx1.
    2:{ apply last_None in Hx1.
        by destruct (filter_range_nonempty Pc (width img) x0 Hc0 Hlt0). }
    destruct (head (filter Pr (range (height img)))) as [y0|] eqn:Hy0.
    2:{ apply head_None in Hy0.
        by destruct (filter_range_nonempty Pr (height img) y' Hr' Hy'h). }
    destruct (last (filter Pr (range (height img)))) as [y1|] eqn:Hy1.
    2:{ apply last_None in Hy1.
        by destruct (filter_range_nonempty Pr (height img) y' Hr' Hy'h). }
    apply last_filter_range_1 in Hx1 as (Hc1 & Hlt1 & Hmax1).
    apply head_filter_range_1 in Hy0 as (Hr0 & Hlty0 & Hminy).
    apply last_filter_range_1 in Hy1 as (Hr1 & Hlty1 & Hmaxy).
    exists x0, y0, x1, y1.
    split; [by apply column_solid|]. split; [by apply column_solid|].
    split; [by apply row_solid|]. split; [by apply row_solid|].
    intros x y Hxy.
    destruct (getpixel_outside img x y Hrect Hxy) as [Hxw Hyh].
    assert (Pc x) as Hcx by (apply column_solid; [done|]; by exists y).
    assert (Pr y) as Hry by (apply row_solid; [done|]; by exists x).
    split; split.
    + destruct (decide (x0 <= x)%nat); [done|]. destruct (Hmin0 x); [lia|done].
    + destruct (decide (x <= x1)%nat); [done|]. destruct (Hmax1 x); [lia|done|done].
    + destruct (decide (y0 <= y)%nat); [done|]. destruct (Hminy y); [lia|done].
    + destruct (decide (y <= y1)%nat); [done|]. destruct (Hmaxy y); [lia|done|done].
  - left. intros x y.
    destruct (decide (pA (getpixel img x y) = 0)) as [|Hne]; [done|].
    destruct (getpixel_outside img x y Hrect Hne) as [Hxw Hyh].
    assert (Pc x) as Hcx by (apply column_solid; [done|]; by exists y).
    apply head_None in Hx0.
    by destruct (filter_range_nonempty Pc (width img) x Hcx Hxw).
Qed.

(** X18. [crop_to_solid_area] returns a rectangular image of at least one
    pixel, and cropping its result again changes nothing: after the crop
    the first and the last column and row each hold a pixel of non-zero
    alpha (or the image is the single transparent pixel). *)
Theorem crop_to_solid_area_idempotent (img : image) :
  rectangular img ->
  rectangular (crop_to_solid_area img)
  /\ (1 <= width (crop_to_solid_area img))%nat
  /\ (1 <= height (crop_to_solid_area img))%nat
  /\ crop_to_solid_area (crop_to_solid_area img) = crop_to_solid_area img.
Proof.
  intros Hrect.
  destruct (solid_bounds img Hrect)
    as [Hnone|(x0 & y0 & x1 & y1 & Hx0 & Hx1 & Hy0 & Hy1 & Hall)].
  - rewrite (crop_to_solid_area_empty img Hrect Hnone).
    split; [repeat constructor|]. split; [done|]. split; [done|]. reflexivity.
  - destruct (crop_to_solid_area_bounds img x0 y0 x1 y1 Hrect Hx0 Hx1 Hy0 Hy1 Hall)
      as (Hcrop & Hx1w & Hy1h & Hx01 & Hy01).
    rewrite Hcrop.
    set (c := crop img (x0, y0, S x1, S y1)).
    assert (Hcrect : rectangular c) by (by apply rectangular_crop).
    destruct (crop_shape img x0 y0 (S x1) (S y1) Hrect) as [Hcw Hch]; [lia..|].
    fold c in Hcw, Hch.
    assert (Hget : forall x y, (x <= x1 - x0)%nat -> (y <= y1 - y0)%nat ->
              getpixel c x y = getpixel img (x0 + x) (y0 + y)).
    { intros x y Hx Hy. unfold getpixel, c. by rewrite crop_lookup by lia. }
    split; [done|]. split; [lia|]. split; [lia|].
    destruct (crop_to_solid_area_bounds c 0 0 (x1 - x0) (y1 - y0) Hcrect)
      as (Hcc & _).
    + destruct Hx0 as [y Hy]. destruct (Hall _ _ Hy) as [_ Hyr].
      exists (y - y0)%nat. rewrite Hget by lia.
      by replace (x0 + 0)%nat with x0 by lia;
         replace (y0 + (y - y0))%nat with y by lia.
    + destruct Hx1 as [y Hy]. destruct (Hall _ _ Hy) as [_ Hyr].
      exists (y - y0)%nat. rewrite Hget by lia.
      by replace (x0 + (x1 - x0))%nat with x1 by lia;
         replace (y0 + (y - y0))%nat with y by lia.
    + destruct Hy0 as [x Hx]. destruct (Hall _ _ Hx) as [Hxr _].
      exists (x - x0)%nat. rewrite Hget by lia.
      by replace (y0 + 0)%nat with y0 by lia;
         replace (x0 + (x - x0))%nat with x by lia.
    + destruct Hy1 as [x Hx]. destruct (Hall _ _ Hx) as [Hxr _].
      exists (x - x0)%nat. rewrite Hget by lia.
      by replace (y0 + (y1 - y0))%nat with y1 by lia;
         replace (x0 + (x - x0))%nat with x by lia.
    + intros x y Hxy.
      destruct (getpixel_outside c x y Hcrect Hxy) as [Hxw Hyh]. lia.
    + rewrite Hcc.
      replace (S (x1 - x0)) with (width c) by lia.
      replace (S (y1 - y0)) with (height c) by lia.
      by apply crop_full.
Qed.

Lemma crop_to_solid_area_idempotent_witness :
  let img := [[transparent_black; transparent_black; transparent_black];
              [transparent_black; opaque_white; Pixel 1 2 3 191];
              [transparent_black; transparent_black; transparent_black]] in
  rectangular (crop_to_solid_area img)
  /\ (1 <= width (crop_to_solid_area img))%nat
  /\ (1 <= height (crop_to_solid_area img))%nat
  /\ crop_to_solid_area (crop_to_solid_area img) = crop_to_solid_area img.
Proof.
  apply (crop_to_solid_area_idempotent
           [[transparent_black; transparent_black; transparent_black];
            [transparent_black; opaque_white; Pixel 1 2 3 191];
            [transparent_black; transparent_black; transparent_black]]).
  repeat constructor.
Defined.

(* ================================================================= *)
(** ** The text of a stamp, read back *)

Lemma list_ascii_of_string_app (s1 s2 : string) :
  list_ascii_of_string (s1 +:+ s2)
  = list_ascii_of_string s1 ++ list_ascii_of_string s2.
Proof.
  induction s1 as [|c s1 IH]; [done|].
  change (String c s1 +:+ s2) with (String c (s1 +:+ s2)).
  cbn [list_ascii_of_string]. by rewrite IH.
Qed.

Lemma split_on_no_sep (sep : ascii) (s : string) :
  Forall (fun c => c ≠ sep) (list_ascii_of_string s) -> split_on sep s = [s].
Proof.
  induction s as [|c s IH]; cbn [list_ascii_of_string split_on]; [done|].
  intros [Hc Hs]%Forall_cons.
  destruct (Ascii.eqb_spec c sep) as [|_]; [done|]. by rewrite IH.
Qed.

Lemma split_on_app (sep : ascii) (s1 s2 : string) :
  Forall (fun c => c ≠ sep) (list_ascii_of_string s1) ->
  split_on sep (s1 +:+ String sep s2) = s1 :: split_on sep s2.
Proof.
  induction s1 as [|c s1 IH].
  - intros _. change ("" +:+ String sep s2) with (String sep s2).
    cbn [split_on]. by rewrite Ascii.eqb_refl.
  - cbn [list_ascii_of_string]. intros [Hc Hs]%Forall_cons.
    change (String c s1 +:+ String sep s2) with (String c (s1 +:+ String sep s2)).
    cbn [split_on].
    destruct (Ascii.eqb_spec c sep) as [|_]; [done|]. by rewrite IH.
Qed.

Lemma string_of_uint_digits (d : uint) :
  Forall (fun c => (48 <= nat_of_ascii c <= 57)%nat)
    (list_ascii_of_string (NilEmpty.string_of_uint d)).
Proof.
  induction d; cbn [NilEmpty.string_of_uint list_ascii_of_string];
    [by apply Forall_nil|..]; (apply Forall_cons; split; [vm_compute; lia|done]).
Qed.

(** The characters of a printed integer: digits, after a minus sign at
    most. *)
Lemma str_int_chars (z : Z) :
  Forall (fun c => (48 <= nat_of_ascii c <= 57)%nat \/ c = "-"%char)
    (list_ascii_of_string (str_int z)).
Proof.
  assert (Hu : forall d,
            Forall (fun c => (48 <= nat_of_ascii c <= 57)%nat \/ c = "-"%char)
              (list_ascii_of_string (NilZero.string_of_uint d))).
  { intros d. pose proof (string_of_uint_digits d) as Hd.
    destruct d; cbn [NilZero.string_of_uint];
      try (eapply Forall_impl; [exact Hd|]; intros c Hc; by left).
    cbn [list_ascii_of_string]. apply Forall_cons.
    split; [left; vm_compute; lia|by apply Forall_nil]. }
  unfold str_int. destruct (Z.to_int z) as [d|d]; cbn [NilZero.string_of_int].
  - apply Hu.
  - cbn [list_ascii_of_string]. apply Forall_cons. split; [by right|apply Hu].
Qed.

Lemma str_int_no_sep (z : Z) (sep : ascii) :
  sep = "."%char \/ sep = ","%char ->
  Forall (fun c => c ≠ sep) (list_ascii_of_string (str_int z)).
Proof.
  intros Hsep. eapply Forall_impl; [apply str_int_chars|].
  intros c Hc Heq. subst c.
  destruct Hc as [Hc|Hc]; destruct Hsep as [Hs|Hs]; subst sep;
    try discriminate; vm_compute in Hc; lia.
Qed.

Lemma read_int_str_int (z : Z) : read_int (str_int z) = Some z.
Proof.
  unfold read_int, str_int. rewrite NilZero.isi.
  - cbn. by rewrite DecimalZ.of_to.
  - destruct z; cbn; [done| |done]. intros [= Hp].
    by apply Unsigned.to_uint_nonnil in Hp.
  - destruct z; cbn; [done|done|]. intros [= Hp].
    by apply Unsigned.to_uint_nonnil in Hp.
Qed.

Lemma read_nat_str_int (n : nat) : read_nat (str_int (Z.of_nat n)) = Some (Z.of_nat n).
Proof.
  unfold read_nat, str_int.
  pose proof (DecimalZ.of_to (Z.of_nat n)) as Hz.
  destruct (Z.of_nat n) as [|p|p] eqn:Hn; [| |lia].
  - done.
  - cbn [Z.to_int NilZero.string_of_int].
    rewrite NilZero.usu by apply Unsigned.to_uint_nonnil.
    cbn [fmap option_fmap option_map]. f_equal. exact Hz.
Qed.

Lemma fmt_tenths_no_comma (n : nat) :
  Forall (fun c => c ≠ ","%char) (list_ascii_of_string (fmt_tenths n)).
Proof.
  unfold fmt_tenths. rewrite !list_ascii_of_string_app.
  apply Forall_app. split; [apply str_int_no_sep; by right|].
  apply Forall_app. split; [|apply str_int_no_sep; by right].
  cbn. apply Forall_cons. split; [done|by apply Forall_nil].
Qed.

(** A coordinate or a size is written as the numeral of its tenth with
    one digit after the point. *)
Lemma read_tenths_fmt_tenths (n : nat) : read_tenths (fmt_tenths n) = Some (tenths n).
Proof.
  unfold read_tenths, fmt_tenths.
  change ("." +:+ str_int (Z.of_nat (n mod 10)))
    with (String "." (str_int (Z.of_nat (n mod 10)))).
  rewrite split_on_app by (apply str_int_no_sep; by left).
  rewrite split_on_no_sep by (apply str_int_no_sep; by left).
  assert (Hlen : String.length (str_int (Z.of_nat (n mod 10))) = 1%nat).
  { pose proof (Nat.mod_upper_bound n 10 ltac:(done)) as Hr.
    destruct (n mod 10)%nat as [|[|[|[|[|[|[|[|[|[|r]]]]]]]]]]; try reflexivity. lia. }
  rewrite Hlen. cbn [Nat.eqb].
  rewrite !read_nat_str_int. cbn [mbind option_bind].
  unfold tenths. do 2 f_equal.
  rewrite (Nat.div_mod_eq n 10) at 3. lia.
Qed.

Lemma read_header_img_header (w h : nat) :
  read_header (img_header w h) = Some (tenths w, tenths h, "img").
Proof.
  unfold read_header, img_header.
  change ("," +:+ fmt_tenths h +:+ ",img")
    with (String "," (fmt_tenths h +:+ String "," "img")).
  rewrite !split_on_app by apply fmt_tenths_no_comma.
  cbn [split_on Ascii.eqb Bool.eqb].
  by rewrite !read_tenths_fmt_tenths.
Qed.

Lemma read_point_point_line (x y : nat) (n : Z) :
  read_point (point_line x y n) = Some (tenths x, tenths y, n).
Proof.
  unfold read_point, point_line.
  change ("," +:+ fmt_tenths y +:+ "," +:+ str_int n)
    with (String "," (fmt_tenths y +:+ String "," (str_int n))).
  rewrite !split_on_app by apply fmt_tenths_no_comma.
  rewrite split_on_no_sep by (apply str_int_no_sep; by right).
  by rewrite !read_tenths_fmt_tenths, read_int_str_int.
Qed.

Section StaticStampText.
Context `{External}.

(** C1. For a post-dither RGBA image and a non-empty palette the static
    encoder writes the header with the width and height in tenths and
    the kind [img], then one line for every pixel whose alpha exceeds
    191, rows from the last to the first and columns from left to
    right, with the coordinates [x] and [height - 1 - y] in tenths and
    the number of the nearest palette entry; a pixel with alpha at most
    191 gets no line.  Read back, the header line has three
    comma-separated fields: the numerals of [width * 0.1] and
    [height * 0.1], each with one digit after the point, and [img]; a
    point line has the numerals of [x * 0.1] and [(height - 1 - y) * 0.1]
    and the colour number.  A 2x2 image of pixels that are all kept,
    with a palette of one entry, gives exactly the four lines shown; a
    37x5 header is [3.7,0.5,img]. *)
Theorem static_stamp_lines (use_lab : bool) (img : image) (key : color_key) :
  key ≠ [] -> byte_image img ->
  (exists nearest : nat * nat -> Z,
     (forall x y, kept img (x, y) ->
        exists i, nearest_entry use_lab key (pixel_rgb (getpixel img x y)) i
                    (nearest (x, y)))
     /\ write_stamp use_lab img key =
        img_header (width img) (height img)
        :: ((fun xy => point_line xy.1 (height img - 1 - xy.2) (nearest xy))
            <$> filter (fun xy => kept img xy)
                  (bottom_up_coords (width img) (height img)))
     /\ exists header points,
          write_stamp use_lab img key = header :: points
          /\ read_header header
             = Some (tenths (width img), tenths (height img), "img")
          /\ read_point <$> points
             = (fun xy => Some (tenths xy.1, tenths (height img - 1 - xy.2),
                                nearest xy))
               <$> filter (fun xy => kept img xy)
                     (bottom_up_coords (width img) (height img)))
  /\ (forall (p00 p10 p01 p11 : pixel) (n : Z) (c : rgb),
        191 < pA p00 -> 191 < pA p10 -> 191 < pA p01 -> 191 < pA p11 ->
        write_stamp use_lab [[p00; p10]; [p01; p11]] [(n, c)] =
        [ "0.2,0.2,img";
          "0.0,0.0," +:+ str_int n; "0.1,0.0," +:+ str_int n;
          "0.0,0.1," +:+ str_int n; "0.1,0.1," +:+ str_int n ])
  /\ img_header 37 5 = "3.7,0.5,img"
  /\ point_line 12 0 (-1) = "1.2,0.0,-1"
  /\ point_line 3 104 25 = "0.3,10.4,25".
Proof.
  intros Hkey Hbyte. split; [|split; [|done]].
  - exists (fun xy => matched_number use_lab key (getpixel img xy.1 xy.2)).
    split; [|split].
    + intros x y _. unfold matched_number. simpl.
      destruct (find_closest_color_nearest use_lab
                  (pixel_rgb (getpixel img x y)) key Hkey) as (n & -> & Hn).
      rewrite rgb_to_uint8_byte in Hn by (by apply byte_getpixel).
      eauto.
    + by apply write_stamp_lines.
    + eexists _, _. split; [by apply write_stamp_lines|].
      split; [apply read_header_img_header|].
      rewrite <- list_fmap_compose. apply list_fmap_ext. intros _ xy _.
      apply read_point_point_line.
  - intros p00 p10 p01 p11 n c H00 H10 H01 H11.
    rewrite write_stamp_lines by done.
    assert (Hnum : forall p, matched_number use_lab [(n, c)] p = n).
    { intros p. unfold matched_number.
      rewrite find_closest_color_index by done.
      pose proof (closest_index_lt use_lab [(n, c)]
        (rgb_to_uint8 (pixel_rgb p))) as Hlt.
      simpl in Hlt.
      destruct (closest_index use_lab [(n, c)] _) as [|i]; [done|].
      specialize (Hlt ltac:(done)). lia. }
    unfold bottom_up_coords, kept.
    cbn -[Z.ltb point_line img_header matched_number].
    apply Z.ltb_lt in H00, H10, H01, H11.
    rewrite H00, H10, H01, H11.
    rewrite !decide_True by done.
    cbn -[point_line img_header matched_number].
    rewrite !Hnum. reflexivity.
Qed.

End StaticStampText.

Lemma static_stamp_lines_witness :
  (exists nearest : nat * nat -> Z,
     (forall x y, kept [[opaque_white; Pixel 9 9 9 191]] (x, y) ->
        exists i, @nearest_entry rgb_only false white_black
                    (pixel_rgb (getpixel [[opaque_white; Pixel 9 9 9 191]] x y)) i
                    (nearest (x, y)))
     /\ @write_stamp rgb_only false [[opaque_white; Pixel 9 9 9 191]] white_black =
        img_header 2 1
        :: ((fun xy => point_line xy.1 (1 - 1 - xy.2) (nearest xy))
            <$> filter (fun xy => kept [[opaque_white; Pixel 9 9 9 191]] xy)
                  (bottom_up_coords 2 1))
     /\ exists header points,
          @write_stamp rgb_only false [[opaque_white; Pixel 9 9 9 191]] white_black
          = header :: points
          /\ read_header header = Some (tenths 2, tenths 1, "img")
          /\ read_point <$> points
             = (fun xy => Some (tenths xy.1, tenths (1 - 1 - xy.2), nearest xy))
               <$> filter (fun xy => kept [[opaque_white; Pixel 9 9 9 191]] xy)
                     (bottom_up_coords 2 1))
  /\ (forall (p00 p10 p01 p11 : pixel) (n : Z) (c : rgb),
        191 < pA p00 -> 191 < pA p10 -> 191 < pA p01 -> 191 < pA p11 ->
        @write_stamp rgb_only false [[p00; p10]; [p01; p11]] [(n, c)] =
        [ "0.2,0.2,img";
          "0.0,0.0," +:+ str_int n; "0.1,0.0," +:+ str_int n;
          "0.0,0.1," +:+ str_int n; "0.1,0.1," +:+ str_int n ])
  /\ img_header 37 5 = "3.7,0.5,img"
  /\ point_line 12 0 (-1) = "1.2,0.0,-1"
  /\ point_line 3 104 25 = "0.3,10.4,25".
Proof.
  apply (@static_stamp_lines rgb_only false
           [[opaque_white; Pixel 9 9 9 191]] white_black).
  - done.
  - repeat constructor; simpl; lia.
Defined.

Section CroppedHeaderText.
Context `{External}.


End CroppedHeaderText.


(* ================================================================= *)
(** ** Opacity thresholds *)

Section OpacityThresholds.
Context `{External}.

(** What [process_image] returns for a dithering method holds palette
    colours wherever the alpha is positive. *)
Lemma process_image_dithering_quantized (use_lab : bool) (img out : image)
    (key : color_key) (mode : string) (p : params) (g g' : rng) :
  rectangular img -> Forall byte_rgb key.*2 ->
  mode ∈ dithering_methods ->
  process_image use_lab img key mode p g = Ok (out, g') ->
  forall x y, (x < width img)%nat -> (y < height img)%nat ->
    0 < pA (getpixel img x y) ->
    pixel_rgb (getpixel out x y) ∈ key.*2.
Proof.
  intros Hrect Hbytes Hmode Hrun x y Hx Hy Ha.
  rewrite <- (color_values_rgb_bytes key Hbytes).
  unfold dithering_methods in Hmode.
  repeat (apply elem_of_cons in Hmode as [->|Hmode]);
    [..|by apply elem_of_nil in Hmode];
    unfold process_image in Hrun; cbn [registry_get processing_method_registry
      String.eqb Ascii.eqb Bool.eqb] in Hrun;
    try (unfold no_rng in Hrun;
         apply bind_Ok in Hrun as (out' & Hout & [= <- <-])).
  - by apply (hybrid_dithering_quantized use_lab img out' key p).
  - by apply (ordered_dithering_quantized use_lab img out' key p).
  - destruct (optimized_error_diffusion_quantized use_lab img out' key
                (get_strength p) atkinson_matrix Hrect
                (Forall_lookup_1 _ _ 0 _ source_matrices_forward eq_refl) Hout)
      as [_ Hq].
    by apply Hq.
  - destruct (optimized_error_diffusion_quantized use_lab img out' key
                (get_strength p) stucki_matrix Hrect
                (Forall_lookup_1 _ _ 1 _ source_matrices_forward eq_refl) Hout)
      as [_ Hq].
    by apply Hq.
  - destruct (optimized_error_diffusion_quantized use_lab img out' key
                (get_strength p) floyd_steinberg_matrix Hrect
                (Forall_lookup_1 _ _ 2 _ source_matrices_forward eq_refl) Hout)
      as [_ Hq].
    by apply Hq.
  - destruct (optimized_error_diffusion_quantized use_lab img out' key
                (get_strength p) jarvis_judice_ninke_matrix Hrect
                (Forall_lookup_1 _ _ 3 _ source_matrices_forward eq_refl) Hout)
      as [_ Hq].
    by apply Hq.
  - destruct (optimized_error_diffusion_quantized use_lab img out' key
                (get_strength p) sierra2_matrix Hrect
                (Forall_lookup_1 _ _ 4 _ source_matrices_forward eq_refl) Hout)
      as [_ Hq].
    by apply Hq.
  - rewrite (color_values_rgb_bytes key Hbytes).
    apply (random_dithering_quantized use_lab img out key p g g'); try done. lia.
Qed.

(** C6, as the code has it.  The tone preprocessor counts a pixel as
    opaque when its alpha is at least 191: that is the mask it hands to
    its passes, a pixel of the mask takes the RGB the passes computed and
    any other pixel keeps its own.  ['Color Match'] gives a pixel its
    nearest palette colour only when its alpha exceeds 191 and leaves
    any other pixel as it is.  The stamp encoders (static, first frame
    and later frames of an animation) take a pixel only when its alpha
    exceeds 191; a later frame records [-1] for any other.  The dithering
    methods do not use the threshold: they give a palette colour to every
    pixel of positive alpha. *)
Theorem opacity_thresholds (use_lab : bool) (img : image) (key : color_key)
    (x y h : nat) (f : list string) (m : pixel_map) :
  key ≠ [] ->
  let a := pA (getpixel img x y) in
  (preprocess_opaque_mask img y x = true <-> 191 <= a)
  /\ (color_matching_opaque_mask img x y = true <-> 191 < a)
  /\ (a <= 191 -> stamp_pixel use_lab key img h y x f = f)
  /\ (191 < a ->
      stamp_pixel use_lab key img h y x f =
      f ++ [point_line x (h - 1 - y)
              (matched_number use_lab key (getpixel img x y))])
  /\ (a <= 191 -> first_frame_step use_lab key img y x (m, f) = Ok (m, f))
  /\ (191 < a ->
      first_frame_step use_lab key img y x (m, f) =
      Ok (<[(x, y) := matched_number use_lab key (getpixel img x y)]> m,
          f ++ [point_line x y
                  (matched_number use_lab key (getpixel img x y))]))
  /\ (rectangular img -> (x < width img)%nat -> (y < height img)%nat ->
      collect_step use_lab key img y x m
      = Ok (<[(x, y) := if a <=? 191 then -1
                        else matched_number use_lab key (getpixel img x y)]> m))
  /\ (forall color_key_array out,
        preprocess_image use_lab img color_key_array = Ok out ->
        getpixel out x y
        = if 191 <=? a
          then with_rgb
                 (default (pixel_rgb (getpixel img x y))
                    (preprocess_passes use_lab (map pixel_rgb <$> img)
                       (preprocess_opaque_mask img) color_key_array
                     !! y ≫= (.!! x)))
                 (getpixel img x y)
          else getpixel img x y)
  /\ (rectangular img -> (0 < width img)%nat ->
      exists out,
        color_matching use_lab img key = Ok out
        /\ getpixel out x y
           = if 191 <? a
             then with_rgb (nearest_color use_lab key (pixel_rgb (getpixel img x y)))
                    (getpixel img x y)
             else getpixel img x y)
  /\ (forall mode p g out g',
        mode ∈ dithering_methods -> rectangular img ->
        Forall byte_rgb key.*2 ->
        process_image use_lab img key mode p g = Ok (out, g') ->
        (x < width img)%nat -> (y < height img)%nat -> 0 < a ->
        pixel_rgb (getpixel out x y) ∈ key.*2).
Proof.
  intros Hkey a.
  split; [unfold preprocess_opaque_mask; fold a; rewrite Z.geb_le; lia|].
  split; [unfold color_matching_opaque_mask; fold a; rewrite Z.gtb_lt; lia|].
  assert (Hm : find_closest_color use_lab (pixel_rgb (getpixel img x y)) key
               = Ok (matched_number use_lab key (getpixel img x y))).
  { unfold matched_number.
    by destruct (find_closest_color_nearest use_lab
                   (pixel_rgb (getpixel img x y)) key Hkey) as (n & -> & _). }
  split; [|split; [|split; [|split; [|split; [|split; [|split]]]]]].
  - intros Ha. unfold stamp_pixel. simpl. fold a.
    by replace (a <=? 191) with true by (symmetry; apply Z.leb_le; lia).
  - intros Ha. unfold stamp_pixel. simpl. fold a.
    replace (a <=? 191) with false by (symmetry; apply Z.leb_gt; lia).
    fold (pixel_rgb (getpixel img x y)). by rewrite Hm.
  - intros Ha. unfold first_frame_step. simpl. fold a.
    by replace (a <=? 191) with true by (symmetry; apply Z.leb_le; lia).
  - intros Ha. unfold first_frame_step. simpl. fold a.
    replace (a <=? 191) with false by (symmetry; apply Z.leb_gt; lia).
    fold (pixel_rgb (getpixel img x y)). by rewrite Hm.
  - intros Hrect Hx Hy.
    by rewrite (collect_step_Ok use_lab key (width img) (height img) Hkey img x y m).
  - intros color_key_array out Hrun.
    by apply preprocess_image_pixel.
  - intros Hrect Hw. eexists. split; [by apply color_matching_map|].
    rewrite getpixel_fmap_total by apply match_pixel_transparent. done.
  - intros mode p g out g' Hmode Hrect Hbytes Hrun Hx Hy Ha.
    by apply (process_image_dithering_quantized use_lab img out key mode p g g').
Qed.

End OpacityThresholds.

Lemma opacity_thresholds_witness :
  let img := [[Pixel 10 20 30 191]] in
  let a := pA (getpixel img 0 0) in
  (preprocess_opaque_mask img 0 0 = true <-> 191 <= a)
  /\ (color_matching_opaque_mask img 0 0 = true <-> 191 < a)
  /\ (a <= 191 -> @stamp_pixel rgb_only false white_black img 1 0 0 [] = [])
  /\ (191 < a ->
      @stamp_pixel rgb_only false white_black img 1 0 0 [] =
      [] ++ [point_line 0 (1 - 1 - 0)
               (@matched_number rgb_only false white_black (getpixel img 0 0))])
  /\ (a <= 191 ->
      @first_frame_step rgb_only false white_black img 0 0 (∅, []) = Ok (∅, []))
  /\ (191 < a ->
      @first_frame_step rgb_only false white_black img 0 0 (∅, []) =
      Ok (<[(0%nat, 0%nat) :=
              @matched_number rgb_only false white_black (getpixel img 0 0)]> ∅,
          [] ++ [point_line 0 0
                   (@matched_number rgb_only false white_black
                      (getpixel img 0 0))]))
  /\ (rectangular img -> (0 < width img)%nat -> (0 < height img)%nat ->
      @collect_step rgb_only false white_black img 0 0 ∅
      = Ok (<[(0%nat, 0%nat) :=
                if a <=? 191 then -1
                else @matched_number rgb_only false white_black
                       (getpixel img 0 0)]> ∅))
  /\ (forall color_key_array out,
        @preprocess_image rgb_only false img color_key_array = Ok out ->
        getpixel out 0 0
        = if 191 <=? a
          then with_rgb
                 (default (pixel_rgb (getpixel img 0 0))
                    (@preprocess_passes rgb_only false (map pixel_rgb <$> img)
                       (preprocess_opaque_mask img) color_key_array
                     !! 0%nat ≫= (.!! 0%nat)))
                 (getpixel img 0 0)
          else getpixel img 0 0)
  /\ (rectangular img -> (0 < width img)%nat ->
      exists out,
        @color_matching rgb_only false img white_black = Ok out
        /\ getpixel out 0 0
           = if 191 <? a
             then with_rgb (@nearest_color rgb_only false white_black
                              (pixel_rgb (getpixel img 0 0)))
                    (getpixel img 0 0)
             else getpixel img 0 0)
  /\ (forall mode p g out g',
        mode ∈ dithering_methods -> rectangular img ->
        Forall byte_rgb white_black.*2 ->
        @process_image rgb_only false img white_black mode p g = Ok (out, g') ->
        (0 < width img)%nat -> (0 < height img)%nat -> 0 < a ->
        pixel_rgb (getpixel out 0 0) ∈ white_black.*2).
Proof.
  apply (@opacity_thresholds rgb_only false [[Pixel 10 20 30 191]] white_black
           0 0 1 [] ∅).
  done.
Defined.

(** A pixel whose alpha is exactly 191 is opaque for the preprocessor, but
    not for colour matching, and it is left out of the stamp; a dithering
    method gives it a palette colour all the same. *)
Lemma alpha_191_not_opaque_everywhere :
  let img := [[Pixel 10 20 30 191]] in
  preprocess_opaque_mask img 0 0 = true
  /\ color_matching_opaque_mask img 0 0 = false
  /\ @color_matching rgb_only false img white_black = Ok img
  /\ @write_stamp rgb_only false img white_black = ["0.1,0.1,img"]
  /\ @process_image rgb_only false img white_black "Floyd Dither" ∅
       (constant_rng 0)
     = Ok ([[Pixel 0 0 0 191]], constant_rng 0)
  /\ ¬ (forall (img : image) (x y : nat),
          color_matching_opaque_mask img x y
          = (191 <=? pA (getpixel img x y))).
Proof.
  repeat split; try (by vm_compute).
  intros Hall. specialize (Hall [[Pixel 10 20 30 191]] 0%nat 0%nat).
  vm_compute in Hall. discriminate Hall.
Qed.

(* ================================================================= *)
(** ** An empty palette *)


Section EmptyPaletteRuns.
Context `{External}.








End EmptyPaletteRuns.

